(** * Shell-session execution service: executor, registry and controller

    A shallow embedding of [src/agents/bash-tools.ts] (the [bash] and
    [process] tools) together with the session registry it drives, and the
    properties of the specification stated over it.

    Conventions of the embedding.
    - A JavaScript string is a [string]: a sequence of code units, of which
      only the 8-bit ones are represented.  [String.length] is [.length].
    - A JavaScript number that the code guards with [Number.isFinite],
      [Number.isNaN] or [Math.floor] is a [num]: a rational, an infinity or
      NaN.  Exit codes, pids, clock readings and the timeout in seconds are
      integers ([Z]); where the code writes one into a text, the text is
      that of [pretty], which is the text JavaScript gives for a safe
      integer.
    - [null] and [undefined] are both [None]: the code only ever tests them
      with [??], [== null], [!x] or [?.], which do not tell them apart.
    - The promise returned by [execute] is modelled by what settles it: a
      value it resolves with, or an error it rejects with (a [throw] inside
      the [async] body is such a rejection).
    - What a handler does outside the process (killing a process tree,
      calling [onUpdate]) is logged in the state of the call.

    Left out: the [list] action of the controller (the helpers it is built
    from are embedded), the parsing of numbers by [readEnvInt], the
    environment overlay handed to the spawned shell, the TTL sweeper of the
    registry, and the bodies of [getShellConfig], [killProcessTree] and
    [sanitizeBinaryOutput] of shell-utils. *)

From Stdlib Require Import ZArith QArith Qround Lqa Bool Ascii String List Lia.
From stdpp Require Import base option list gmap strings pretty.

Local Open Scope Z_scope.

(** ** JavaScript numbers *)

Module Js.

Inductive num : Type :=
| Fin (q : Q)
| PInf
| NInf
| NaN.

Definition of_Z (z : Z) : num := Fin (inject_Z z).
Definition of_nat (n : nat) : num := of_Z (Z.of_nat n).

(** [Number.isFinite] and [Number.isNaN] *)
Definition isFinite (x : num) : bool :=
  match x with Fin _ => true | _ => false end.

Definition isNaN (x : num) : bool :=
  match x with NaN => true | _ => false end.

(** [Math.floor] *)
Definition floor (x : num) : num :=
  match x with
  | Fin q => of_Z (Qfloor q)
  | _ => x
  end.

(** [Math.max] and [Math.min] on two arguments *)
Definition max (x y : num) : num :=
  match x, y with
  | NaN, _ | _, NaN => NaN
  | PInf, _ | _, PInf => PInf
  | NInf, z | z, NInf => z
  | Fin a, Fin b => if Qle_bool a b then Fin b else Fin a
  end.

Definition min (x y : num) : num :=
  match x, y with
  | NaN, _ | _, NaN => NaN
  | NInf, _ | _, NInf => NInf
  | PInf, z | z, PInf => z
  | Fin a, Fin b => if Qle_bool a b then Fin a else Fin b
  end.

(** [x + y] and [x - y] *)
Definition add (x y : num) : num :=
  match x, y with
  | NaN, _ | _, NaN => NaN
  | PInf, NInf | NInf, PInf => NaN
  | PInf, _ | _, PInf => PInf
  | NInf, _ | _, NInf => NInf
  | Fin a, Fin b => Fin (a + b)
  end.

Definition neg (x : num) : num :=
  match x with
  | Fin a => Fin (- a)
  | PInf => NInf
  | NInf => PInf
  | NaN => NaN
  end.

Definition sub (x y : num) : num := add x (neg y).

(** [x === 0] *)
Definition is0 (x : num) : bool :=
  match x with
  | Fin a => Qeq_bool a 0
  | _ => false
  end.

(** The abstract operation ToIntegerOrInfinity, applied by [Array.slice]
    to its arguments: NaN becomes 0, a finite number is truncated. *)
Inductive xint : Type :=
| XZ (z : Z)
| XPInf
| XNInf.

Definition toIntegerOrInfinity (x : num) : xint :=
  match x with
  | NaN => XZ 0
  | PInf => XPInf
  | NInf => XNInf
  | Fin q => XZ (Z.quot (Qnum q) (Zpos (Qden q)))
  end.

(** A relative index of [Array.prototype.slice], resolved against the
    length of the array. *)
Definition relIndex (len : Z) (x : xint) : Z :=
  match x with
  | XNInf => 0
  | XPInf => len
  | XZ z => if z <? 0 then Z.max (len + z) 0 else Z.min z len
  end.

(** [arr.slice(start, end)], [end] possibly [undefined] *)
Definition slice {A} (arr : list A) (start : num) (end_ : option num) : list A :=
  let len := Z.of_nat (length arr) in
  let k := relIndex len (toIntegerOrInfinity start) in
  let final :=
    match end_ with
    | None => len
    | Some e => relIndex len (toIntegerOrInfinity e)
    end in
  take (Z.to_nat (final - k)) (drop (Z.to_nat k) arr).

End Js.

(** ** JavaScript strings *)

Definition LF : ascii := "010"%char.
Definition CR : ascii := "013"%char.

Definition nl : string := String LF "".

(** [!s] on a string: only the empty string is falsy. *)
Definition str_empty (s : string) : bool :=
  match s with "" => true | _ => false end.

(** [a || b] on strings *)
Definition str_or (a b : string) : string :=
  if str_empty a then b else a.

(** [s.slice(0, n)] and [s.slice(n)] for an integer [n], a negative one
    counting as 0 *)
Fixpoint str_take (n : Z) (s : string) : string :=
  match s with
  | String c r => if 0 <? n then String c (str_take (n - 1) r) else ""
  | "" => ""
  end.

Fixpoint str_drop (n : Z) (s : string) : string :=
  match s with
  | String _ r => if 0 <? n then str_drop (n - 1) r else s
  | "" => ""
  end.

(** White space as [String.prototype.trim] sees it, among 8-bit code
    units: TAB, LF, VT, FF, CR, SP and NBSP. *)
Definition is_ws (c : ascii) : bool :=
  let n := nat_of_ascii c in
  ((9 <=? n) && (n <=? 13) || (n =? 32) || (n =? 160))%nat.

Fixpoint trimStart (s : string) : string :=
  match s with
  | String c r => if is_ws c then trimStart r else s
  | "" => ""
  end.

Fixpoint trimEnd (s : string) : string :=
  match s with
  | String c r =>
      let r' := trimEnd r in
      if is_ws c && str_empty r' then "" else String c r'
  | "" => ""
  end.

Definition trim (s : string) : string := trimEnd (trimStart s).

(** [text.replace(/\r\n/g, "\n")] *)
Fixpoint replace_crlf (s : string) : string :=
  match s with
  | "" => ""
  | String c r =>
      match r with
      | String c' r' =>
          if Ascii.eqb c CR && Ascii.eqb c' LF
          then String LF (replace_crlf r')
          else String c (replace_crlf r)
      | "" => String c ""
      end
  end.

(** [s.split("\n")]: never empty, the empty string gives one empty piece. *)
Fixpoint split_lf (s : string) : list string :=
  match s with
  | "" => [""]
  | String c r =>
      if Ascii.eqb c LF then "" :: split_lf r
      else match split_lf r with
           | h :: t => String c h :: t
           | [] => [String c ""]
           end
  end.

(** [arr.join(sep)] *)
Fixpoint join (sep : string) (arr : list string) : string :=
  match arr with
  | [] => ""
  | [x] => x
  | x :: rest => x +:+ sep +:+ join sep rest
  end.

(** [if (lines.length > 0 && lines[lines.length - 1] === "") lines.pop()] *)
Fixpoint pop_if_last_empty (lines : list string) : list string :=
  match lines with
  | [] => []
  | [x] => if str_empty x then [] else [x]
  | x :: rest => x :: pop_if_last_empty rest
  end.

(** ** [sliceLogLines] *)

Record LogSlice : Type := mkLogSlice {
  slice : string;
  totalLines : nat;
  totalChars : nat;
}.

(** The lines of a non-empty text, as [sliceLogLines] counts them. *)
Definition log_lines (text : string) : list string :=
  pop_if_last_empty (split_lf (replace_crlf text)).

Definition sliceLogLines (text : string) (offset limit : option Js.num) : LogSlice :=
  if str_empty text then mkLogSlice "" 0 0 else
  let normalized := replace_crlf text in
  let lines := pop_if_last_empty (split_lf normalized) in
  let totalLines := length lines in
  let totalChars := String.length text in
  let start :=
    match offset with
    | Some o =>
        if Js.isFinite o then Js.max (Js.of_Z 0) (Js.floor o) else Js.of_Z 0
    | None => Js.of_Z 0
    end in
  let start :=
    match limit, offset with
    | Some l, None =>
        let tailCount := Js.max (Js.of_Z 0) (Js.floor l) in
        Js.max (Js.sub (Js.of_nat totalLines) tailCount) (Js.of_Z 0)
    | _, _ => start
    end in
  let end_ :=
    match limit with
    | Some l =>
        if Js.isFinite l
        then Some (Js.add start (Js.max (Js.of_Z 0) (Js.floor l)))
        else None
    | None => None
    end in
  mkLogSlice (join nl (Js.slice lines start end_)) totalLines totalChars.

(** ** Sessions *)

Inductive StdinMode : Type := Pipe | Pty.

Inductive Status : Type := Running | Completed | Failed.

(** [NodeJS.Signals | number]: the signal a child died of, as a name
    (child processes) or as a number (the PTY backend). *)
Inductive Signal : Type :=
| SigName (name : string)
| SigNum (n : Z).

Inductive Stream : Type := Stdout | Stderr.

#[global] Instance StdinMode_eq_dec : EqDecision StdinMode.
Proof. solve_decision. Defined.
#[global] Instance Status_eq_dec : EqDecision Status.
Proof. solve_decision. Defined.
#[global] Instance Signal_eq_dec : EqDecision Signal.
Proof. solve_decision. Defined.

(** Truthiness of a signal value: a non-empty name, a non-zero number. *)
Definition signal_truthy (sg : Signal) : bool :=
  match sg with
  | SigName s => negb (str_empty s)
  | SigNum n => negb (n =? 0)
  end.

(** A signal inside a template literal *)
Definition show_signal (sg : Signal) : string :=
  match sg with
  | SigName s => s
  | SigNum n => pretty n
  end.

(** The transport handles of a session: [child] is the child-process
    handle of pipe mode ([child.pid] is undefined when the spawn failed),
    [pty] the PTY handle. *)
Record ChildProc : Type := mkChild { child_pid : option Z }.
Record PtyProc : Type := mkPty { pty_pid : Z }.

(** The session object: the literal [execute] builds, and the two fields
    the registry records on exit, [status] and [endedAt] (section 3 of the
    specification). *)
Record Session : Type := mkSession {
  id : string;
  command : string;
  child : option ChildProc;
  pty : option PtyProc;
  pid : option Z;
  stdinMode : StdinMode;
  startedAt : Z;
  cwd : string;
  maxOutputChars : Z;
  totalOutputChars : Z;
  pendingStdout : list string;
  pendingStderr : list string;
  aggregated : string;
  tail : string;
  exited : bool;
  exitCode : option Z;
  exitSignal : option Signal;
  truncated : bool;
  backgrounded : bool;
  (* recorded by the registry on exit *)
  status : Status;
  endedAt : option Z;
}.

(** ** The session registry

    The registry module, [bash-process-registry.ts], is imported by
    [bash-tools.ts] and is not one of the files embedded here; its
    operations are modelled from section 4.2 of the specification. *)

(** Modelled from the spec: the registry of [bash-process-registry.ts], an
    indexed storage for live and finished sessions.  A session is one
    mutable object shared by the registry and by the closure of the
    [execute] call that created it.  The store [objs] holds these objects
    under their ids (ids come from a UUID source, so an id names one
    object); [live] and [fin] are the two sets of references of the
    registry.  An operation that takes a session takes the id it is stored
    under. *)
Record Registry : Type := mkRegistry {
  objs : gmap string Session;
  live : gset string;
  fin : gset string;
}.

(** The registry of a process that has started no session yet *)
Definition emptyRegistry : Registry := mkRegistry ∅ ∅ ∅.

(** Modelled from the spec: [add(session)] of the registry inserts into the
    live set. *)
Definition addSession (s : Session) (r : Registry) : Registry :=
  mkRegistry (<[id s := s]> (objs r)) ({[id s]} ∪ live r) (fin r).

(** Modelled from the spec: [get(id)] of the registry looks the id up in
    the live set; undefined if absent. *)
Definition getSession (r : Registry) (i : string) : option Session :=
  if decide (i ∈ live r) then objs r !! i else None.

(** Modelled from the spec: [getFinished(id)] of the registry looks the id
    up in the finished set; undefined if absent. *)
Definition getFinishedSession (r : Registry) (i : string) : option Session :=
  if decide (i ∈ fin r) then objs r !! i else None.

(** Modelled from the spec: [delete(id)] of the registry removes from
    either set.  The object itself stays reachable from the closure that
    created it. *)
Definition deleteSession (i : string) (r : Registry) : Registry :=
  mkRegistry (objs r) (live r ∖ {[i]}) (fin r ∖ {[i]}).

(** Modelled from the spec: the tail kept by the registry is the last K
    characters of the aggregated output, K fixed and implementation-chosen;
    2000 here. *)
Definition TAIL_CHARS : Z := 2000.

(** The last [n] characters of a string *)
Definition str_last (n : Z) (s : string) : string :=
  str_drop (Z.of_nat (String.length s) - n) s.

(** Modelled from the spec: what [appendOutput] of the registry does to
    the session object.  It appends to [aggregated] up to the remaining cap,
    updates the tail, enqueues into the pending buffer of the stream and
    counts the characters received; the part beyond the cap is dropped and
    [truncated] set.  Nothing is appended once the session has exited. *)
Definition append_chunk (st : Stream) (chunk : string) (s : Session) : Session :=
  if exited s then s else
  let room := maxOutputChars s - Z.of_nat (String.length (aggregated s)) in
  let kept := str_take room chunk in
  let agg := aggregated s +:+ kept in
  let cut := (String.length kept <? String.length chunk)%nat in
  let 'mkSession i c ch pt p m t0 d cap tot pout perr _ _ ex ec es tr bg stt en := s in
  mkSession i c ch pt p m t0 d cap (tot + Z.of_nat (String.length chunk))
    (match st with Stdout => pout ++ [kept] | Stderr => pout end)
    (match st with Stdout => perr | Stderr => perr ++ [kept] end)
    agg (str_last TAIL_CHARS agg) ex ec es (tr || cut) bg stt en.

(** Modelled from the spec: [appendOutput(session, stream, chunk)] of the
    registry, on the shared object. *)
Definition appendOutput (i : string) (st : Stream) (chunk : string)
    (r : Registry) : Registry :=
  mkRegistry (alter (append_chunk st chunk) i (objs r)) (live r) (fin r).

(** Modelled from the spec: what [drain] of the registry leaves of the
    session object, the pending buffers swapped with empty ones. *)
Definition drained (s : Session) : Session :=
  let 'mkSession i c ch pt p m t0 d cap tot _ _ agg tl ex ec es tr bg stt en := s in
  mkSession i c ch pt p m t0 d cap tot [] [] agg tl ex ec es tr bg stt en.

(** Modelled from the spec: [drain(session)] of the registry swaps the
    pending buffers with empty ones and returns the drained pair. *)
Definition drainSession (i : string) (s : Session) (r : Registry)
    : (string * string) * Registry :=
  ((join "" (pendingStdout s), join "" (pendingStderr s)),
   mkRegistry (alter drained i (objs r)) (live r) (fin r)).

(** Modelled from the spec: what [markBackgrounded] of the registry does
    to the session object. *)
Definition set_backgrounded (s : Session) : Session :=
  let 'mkSession i c ch pt p m t0 d cap tot pout perr agg tl ex ec es tr _ stt en := s in
  mkSession i c ch pt p m t0 d cap tot pout perr agg tl ex ec es tr true stt en.

(** Modelled from the spec: [markBackgrounded(session)] of the registry is
    the idempotent transition of [backgrounded] to true. *)
Definition markBackgrounded (i : string) (r : Registry) : Registry :=
  mkRegistry (alter set_backgrounded i (objs r)) (live r) (fin r).

(** Modelled from the spec: what [markExited] of the registry does to the
    session object.  It records the exit code, the signal and the status;
    the first call also sets [endedAt] to the clock reading. *)
Definition set_exited (code : option Z) (sg : option Signal) (stt : Status)
    (now : Z) (s : Session) : Session :=
  let 'mkSession i c ch pt p m t0 d cap tot pout perr agg tl ex _ _ tr bg _ en := s in
  mkSession i c ch pt p m t0 d cap tot pout perr agg tl true code sg tr bg stt
    (if ex then en else Some now).

(** Modelled from the spec: [markExited(session, code, signal, status)] of
    the registry.  The first call sets [endedAt] and moves the session from
    live to finished; later calls update the status fields and do not move
    it again. *)
Definition markExited (i : string) (code : option Z) (sg : option Signal)
    (stt : Status) (now : Z) (r : Registry) : Registry :=
  let first :=
    match objs r !! i with Some s => negb (exited s) | None => false end in
  mkRegistry (alter (set_exited code sg stt now) i (objs r))
    (if first then live r ∖ {[i]} else live r)
    (if first then {[i]} ∪ fin r else fin r).

(** ** The [bash] tool: parameters, results and the state of a call *)

Definition CHUNK_LIMIT : Z := 8 * 1024.

Definition clampNumber (value : option Js.num) (defaultValue mn mx : Js.num) : Js.num :=
  match value with
  | None => defaultValue
  | Some v => if Js.isNaN v then defaultValue else Js.min (Js.max v mn) mx
  end.

(** [chunkString]: the loop advances by [limit] characters a turn, so the
    length of the input bounds the number of turns. *)
Fixpoint chunk_loop (turns : nat) (limit : Z) (input : string) : list string :=
  match turns with
  | O => []
  | S k =>
      if str_empty input then []
      else str_take limit input :: chunk_loop k limit (str_drop limit input)
  end.

Definition chunkString (input : string) : list string :=
  chunk_loop (String.length input) CHUNK_LIMIT input.

(** A value caught by [catch] or found in [PtyLoadResult.error], by the
    cases [formatPtyError] tells apart: a falsy value, a string, an [Error]
    with its message, anything else with its [JSON.stringify] ([None] when
    that throws). *)
Inductive JsErr : Type :=
| ErrFalsy
| ErrString (s : string)
| ErrError (message : string)
| ErrOther (json : option string).

(** [message.split(/\r?\n/)[0]] *)
Fixpoint first_line (s : string) : string :=
  match s with
  | "" => ""
  | String c r =>
      if Ascii.eqb c LF then ""
      else if Ascii.eqb c CR
              && match r with String c' _ => Ascii.eqb c' LF | "" => false end
      then ""
      else String c (first_line r)
  end.

Definition formatPtyError (error : JsErr) : string :=
  match error with
  | ErrFalsy => ""
  | ErrString s => if str_empty s then "" else " (" +:+ s +:+ ")"
  | ErrError message =>
      let firstLine := trim (first_line message) in
      if str_empty firstLine then "" else " (" +:+ firstLine +:+ ")"
  | ErrOther (Some json) => " (" +:+ json +:+ ")"
  | ErrOther None => ""
  end.

Record BashToolDefaults : Type := mkBashDefaults {
  backgroundMs : option Js.num;
  timeoutSec : option Z;
}.

(** The parameters of a [bash] call.  [env] is left out: it only reaches
    the spawned process. *)
Record BashParams : Type := mkBashParams {
  b_command : string;
  b_workdir : option string;
  b_yieldMs : option Js.num;
  b_background : bool;
  b_timeout : option Z;
  b_stdinMode : option StdinMode;
}.

Inductive PtyLoad : Type :=
| PtyLoaded
| PtyLoadFailed (error : JsErr).

Inductive PtySpawn : Type :=
| PtySpawned (pid : Z)
| PtySpawnThrew (error : JsErr).

(** What the host answers during the synchronous part of [execute]. *)
Record Host : Type := mkHost {
  h_now : Z;                      (* Date.now() *)
  h_uuid : string;                (* randomUUID() *)
  h_cwd : string;                 (* process.cwd() *)
  h_envYieldMs : option Z;        (* readEnvInt("PI_BASH_YIELD_MS") *)
  h_envMaxOutput : option Z;      (* readEnvInt("PI_BASH_MAX_OUTPUT_CHARS") *)
  h_ptyLoad : PtyLoad;            (* await loadPtyModule() *)
  h_ptySpawn : PtySpawn;          (* ptyModule.spawn(...) *)
  h_childPid : option Z;          (* spawn(...).pid *)
}.

Definition num_to_Z (x : Js.num) : Z :=
  match x with
  | Js.Fin q => Qfloor q
  | _ => 0
  end.

Definition DEFAULT_MAX_OUTPUT (h : Host) : Z :=
  num_to_Z (clampNumber (Js.of_Z <$> h_envMaxOutput h)
                (Js.of_Z 30000) (Js.of_Z 1000) (Js.of_Z 150000)).

Inductive BashDetails : Type :=
| DRunning (sessionId : string) (pid : option Z) (startedAt : Z) (tail : string)
| DDone (st : Status) (exitCode : Z) (durationMs : Z) (aggregated : string).

Record BashResult : Type := mkBashResult {
  b_text : string;
  b_details : BashDetails;
}.

(** What a call of [resolve] or [reject] hands to the caller. *)
Inductive Settlement : Type :=
| Resolved (r : BashResult)
| Rejected (message : string).

(** Calls that leave the process: [killProcessTree(pid)] of shell-utils
    and the PTY handle's own [kill()]. *)
Inductive Effect : Type :=
| KillProcessTree (pid : Z)
| PtyKill.

(** The external cancel signal as the call sees it: none was passed, one
    was passed and [onAbort] listens on it, or it has fired. *)
Inductive AbortState : Type := NoSignal | Listening | Aborted.

(** The constants of the closure of one call. *)
Record Closure : Type := mkClosure {
  sessionId : string;
  c_startedAt : Z;
  warning : option string;
  effectiveTimeout : Z;
  c_child : bool;
  c_pty : bool;
  onUpdate : bool;
}.

(** The variables of the closure, the registry, and what has been observed
    from outside: the calls of [resolve] and [reject] in order, the progress
    updates, the kill requests. *)
Record Exec : Type := mkExec {
  clo : Closure;
  reg : Registry;
  signal : AbortState;
  settled : bool;
  yielded : bool;
  timedOut : bool;
  yieldPending : bool;
  timeoutPending : bool;
  calls : list Settlement;
  updates : list BashResult;
  effects : list Effect;
}.

Definition with_reg (f : Registry → Registry) (st : Exec) : Exec :=
  let 'mkExec c r sg se y t yp tp cs us fx := st in
  mkExec c (f r) sg se y t yp tp cs us fx.

(** The session object of the call, through the closure's reference. *)
Definition session (st : Exec) : option Session :=
  objs (reg st) !! sessionId (clo st).

(** [killSession] *)
Definition killSession (s : Session) : list Effect :=
  let p :=
    match pid s with
    | Some p => Some p
    | None =>
        match child s ≫= child_pid with
        | Some p => Some p
        | None => pty_pid <$> pty s
        end
    end in
  match p with
  | Some p => if p =? 0 then [] else [KillProcessTree p]
  | None => []
  end ++
  match stdinMode s, pty s with
  | Pty, Some _ => [PtyKill]
  | _, _ => []
  end.

(** ** The handlers of a call *)

Definition warningText (w : option string) : string :=
  match w with
  | Some w => if str_empty w then "" else w +:+ nl +:+ nl
  | None => ""
  end.

Definition show_pid (p : option Z) : string :=
  match p with Some p => pretty p | None => "n/a" end.

(** [settle]: the first call runs its argument, the later ones return. *)
Definition settle (s : Settlement) (st : Exec) : Exec :=
  if settled st then st else
  let 'mkExec c r sg _ y t yp tp cs us fx := st in
  mkExec c r sg true y t yp tp (cs ++ [s]) us fx.

Definition set_yielded (st : Exec) : Exec :=
  let 'mkExec c r sg se _ t yp tp cs us fx := st in
  mkExec c r sg se true t yp tp cs us fx.

Definition set_timedOut (st : Exec) : Exec :=
  let 'mkExec c r sg se y _ yp tp cs us fx := st in
  mkExec c r sg se y true yp tp cs us fx.

Definition set_signal (sg : AbortState) (st : Exec) : Exec :=
  let 'mkExec c r _ se y t yp tp cs us fx := st in
  mkExec c r sg se y t yp tp cs us fx.

Definition set_yieldPending (b : bool) (st : Exec) : Exec :=
  let 'mkExec c r sg se y t _ tp cs us fx := st in
  mkExec c r sg se y t b tp cs us fx.

Definition set_timeoutPending (b : bool) (st : Exec) : Exec :=
  let 'mkExec c r sg se y t yp _ cs us fx := st in
  mkExec c r sg se y t yp b cs us fx.

Definition push_update (u : BashResult) (st : Exec) : Exec :=
  let 'mkExec c r sg se y t yp tp cs us fx := st in
  mkExec c r sg se y t yp tp cs (us ++ [u]) fx.

Definition push_effects (l : list Effect) (st : Exec) : Exec :=
  let 'mkExec c r sg se y t yp tp cs us fx := st in
  mkExec c r sg se y t yp tp cs us (fx ++ l).

(** [onAbort] *)
Definition onAbort (st : Exec) : Exec :=
  match session st with
  | Some s => push_effects (killSession s) st
  | None => st
  end.

(** [emitUpdate] *)
Definition emitUpdate (st : Exec) : Exec :=
  if negb (onUpdate (clo st)) then st else
  match session st with
  | Some s =>
      let tailText := str_or (tail s) (aggregated s) in
      push_update
        (mkBashResult (warningText (warning (clo st)) +:+ tailText)
           (DRunning (sessionId (clo st)) (pid s) (c_startedAt (clo st)) (tail s)))
        st
  | None => st
  end.

(** The body of the three [data] listeners; [str] is the text of the chunk
    once through [sanitizeBinaryOutput] (shell-utils). *)
Definition onData (stream : Stream) (str : string) (st : Exec) : Exec :=
  foldl (fun st chunk =>
           emitUpdate (with_reg (appendOutput (sessionId (clo st)) stream chunk) st))
        st (chunkString str).

(** The text of the still-running result, without and with the warning *)
Definition running_notice (sid : string) (p : option Z) : string :=
  "Command still running (session " +:+ sid +:+ ", pid " +:+ show_pid p +:+ "). " +:+
  "Use process (list/poll/log/write/kill/clear/remove) for follow-up.".

Definition still_running_text (st : Exec) (p : option Z) : string :=
  warningText (warning (clo st)) +:+ running_notice (sessionId (clo st)) p.

(** [resolveRunning] *)
Definition resolveRunning (st : Exec) : Exec :=
  match session st with
  | Some s =>
      settle
        (Resolved
           (mkBashResult (still_running_text st (pid s))
              (DRunning (sessionId (clo st)) (pid s) (c_startedAt (clo st)) (tail s))))
        st
  | None => st
  end.

(** [onYieldNow], and the callback of the yield timer *)
Definition onYieldNow (st : Exec) : Exec :=
  let st := set_yieldPending false st in
  if settled st then st else
  let st := set_yielded st in
  let st := with_reg (markBackgrounded (sessionId (clo st))) st in
  resolveRunning st.

Definition onYieldTimer (st : Exec) : Exec :=
  let st := set_yieldPending false st in
  if settled st then st else
  let st := set_yielded st in
  let st := with_reg (markBackgrounded (sessionId (clo st))) st in
  resolveRunning st.

(** The callback of the timeout timer *)
Definition onTimeout (st : Exec) : Exec :=
  let st := set_timeoutPending false st in
  let st := set_timedOut st in
  onAbort st.

(** [exitSignal != null], the truthiness of [exitSignal], and [exitSignal]
    inside a template literal *)
Definition wasSignal (exitSignal : option Signal) : bool :=
  match exitSignal with Some _ => true | None => false end.

Definition exitSignal_truthy (exitSignal : option Signal) : bool :=
  match exitSignal with Some sg => signal_truthy sg | None => false end.

Definition show_exitSignal (exitSignal : option Signal) : string :=
  match exitSignal with Some sg => show_signal sg | None => "null" end.

(** The reason of a failure, as [handleExit] words it.  The timeout is a
    whole number of seconds; [pretty] writes it as the template literal of
    the code does for every safe integer (up to 2^53 - 1).  A timeout that
    is no whole number, or a larger one, is not represented. *)
Definition failure_reason (timedOut : bool) (effectiveTimeout : Z)
    (code : option Z) (exitSignal : option Signal) : string :=
  if timedOut then
    "Command timed out after " +:+ pretty effectiveTimeout +:+ " seconds"
  else if wasSignal exitSignal && exitSignal_truthy exitSignal then
    "Command aborted by signal " +:+ show_exitSignal exitSignal
  else
    match code with
    | None => "Command aborted before exit code was captured"
    | Some c => "Command exited with code " +:+ pretty c
    end.

Definition is_aborted (sg : AbortState) : bool :=
  match sg with Aborted => true | _ => false end.

Definition code_is_0 (code : option Z) : bool :=
  match code with Some c => c =? 0 | None => false end.

(** The classification of an exit by [handleExit] *)
Definition isSuccess (code : option Z) (exitSignal : option Signal)
    (sg : AbortState) (timedOut : bool) : bool :=
  code_is_0 code && negb (wasSignal exitSignal)
  && negb (is_aborted sg) && negb timedOut.

(** [handleExit] *)
Definition handleExit (code : option Z) (exitSignal : option Signal) (now : Z)
    (st : Exec) : Exec :=
  let st := set_yieldPending false st in
  let st := set_timeoutPending false st in
  let durationMs := now - c_startedAt (clo st) in
  let ok := isSuccess code exitSignal (signal st) (timedOut st) in
  let status := if ok then Completed else Failed in
  let st := with_reg (markExited (sessionId (clo st)) code exitSignal status now) st in
  match session st with
  | None => st
  | Some s =>
      if yielded st || backgrounded s then st else
      let aggregated := trim (aggregated s) in
      if negb ok then
        let reason :=
          failure_reason (timedOut st) (effectiveTimeout (clo st)) code exitSignal in
        let message :=
          if str_empty aggregated then reason
          else aggregated +:+ nl +:+ nl +:+ reason in
        settle (Rejected message) st
      else
        settle
          (Resolved
             (mkBashResult
                (warningText (warning (clo st)) +:+ str_or aggregated "(no output)")
                (DDone Completed (default 0 code) durationMs aggregated)))
          st
  end.

(** The listener of the child's [error] event *)
Definition onChildError (message : string) (now : Z) (st : Exec) : Exec :=
  let st := set_yieldPending false st in
  let st := set_timeoutPending false st in
  let st := with_reg (markExited (sessionId (clo st)) None None Failed now) st in
  settle (Rejected message) st.

(** ** The call and the events that follow it *)

(** What [execute] has done once its synchronous part is over: thrown, or
    left a call waiting for events. *)
Inductive Started : Type :=
| Threw (message : string)
| Pending (st : Exec).

Definition pty_warning (what : string) (error : JsErr) : string :=
  "Warning: node-pty failed to " +:+ what +:+ formatPtyError error +:+ "; " +:+
  "falling back to pipe mode.".

(** The constants [createBashTool] derives from its defaults *)
Definition defaultBackgroundMs (defaults : BashToolDefaults) (h : Host) : Js.num :=
  clampNumber
    (match backgroundMs defaults with
     | Some v => Some v
     | None => Js.of_Z <$> h_envYieldMs h
     end)
    (Js.of_Z 20000) (Js.of_Z 10) (Js.of_Z 120000).

Definition defaultTimeoutSec (defaults : BashToolDefaults) : Z :=
  match timeoutSec defaults with
  | Some t => if 0 <? t then t else 1800
  | None => 1800
  end.

(** [yieldWindow] and [effectiveTimeout] *)
Definition yieldWindow (defaults : BashToolDefaults) (h : Host)
    (params : BashParams) : Js.num :=
  if b_background params then Js.of_Z 0
  else clampNumber
         (Some (default (defaultBackgroundMs defaults h) (b_yieldMs params)))
         (defaultBackgroundMs defaults h) (Js.of_Z 10) (Js.of_Z 120000).

Definition effectiveTimeout_of (defaults : BashToolDefaults) (params : BashParams) : Z :=
  default (defaultTimeoutSec defaults) (b_timeout params).

(** The choice of the transport: the mode that is used, the warning, and
    the PTY handle when the PTY backend loaded and spawned. *)
Definition start_transport (h : Host) (params : BashParams)
    : StdinMode * option string * option PtyProc :=
  let requestedStdinMode :=
    match b_stdinMode params with Some Pty => Pty | _ => Pipe end in
  match requestedStdinMode with
  | Pipe => (Pipe, None, None)
  | Pty =>
      match h_ptyLoad h with
      | PtyLoadFailed ptyError => (Pipe, Some (pty_warning "load" ptyError), None)
      | PtyLoaded =>
          match h_ptySpawn h with
          | PtySpawned p => (Pty, None, Some (mkPty p))
          | PtySpawnThrew error => (Pipe, Some (pty_warning "start" error), None)
          end
      end
  end.

(** The session object of a new call *)
Definition new_session (h : Host) (params : BashParams) : Session :=
  let '(stdinMode, _, pty) := start_transport h params in
  let child :=
    match stdinMode with
    | Pipe => Some (mkChild (h_childPid h))
    | Pty => None
    end in
  let workdir :=
    str_or (match b_workdir params with Some w => trim w | None => "" end) (h_cwd h) in
  mkSession (h_uuid h) (b_command params) child pty
    (match child ≫= child_pid with
     | Some p => Some p
     | None => pty_pid <$> pty
     end)
    stdinMode (h_now h) workdir (DEFAULT_MAX_OUTPUT h) 0 [] [] "" "" false None None
    false false Running None.

Definition new_closure (defaults : BashToolDefaults) (h : Host)
    (params : BashParams) (upd : bool) : Closure :=
  let '(stdinMode, warning, pty) := start_transport h params in
  mkClosure (h_uuid h) (h_now h) warning (effectiveTimeout_of defaults params)
    (bool_decide (stdinMode = Pipe)) (bool_decide (pty ≠ None)) upd.

(** [createBashTool(defaults).execute(_, params, signal, onUpdate)] up to
    the return of the promise.  [sig] is the cancel signal with its
    [aborted] flag, [upd] tells whether a progress callback was passed. *)
Definition bash_execute (defaults : BashToolDefaults) (h : Host)
    (params : BashParams) (sig : option bool) (upd : bool) (r : Registry) : Started :=
  if str_empty (b_command params) then Threw "Provide a command to start." else
  let st :=
    mkExec (new_closure defaults h params upd)
      (addSession (new_session h params) r)
      NoSignal false false false false false [] [] [] in
  let st :=
    match sig with
    | Some true => onAbort (set_signal Aborted st)
    | Some false => set_signal Listening st
    | None => st
    end in
  let st :=
    if 0 <? effectiveTimeout (clo st) then set_timeoutPending true st else st in
  let st :=
    if Js.is0 (yieldWindow defaults h params) then onYieldNow st
    else set_yieldPending true st in
  Pending st.

(** ** The other helpers of [bash-tools.ts] *)

Definition DQ : ascii := "034"%char.
Definition SQ : ascii := "039"%char.
Definition BS : ascii := "092"%char.

(** [s.slice(start, end)] on a string, [end] possibly [undefined]: the
    indices are relative, as for an array. *)
Definition str_slice (s : string) (start : Z) (end_ : option Z) : string :=
  let len := Z.of_nat (String.length s) in
  let from := Js.relIndex len (Js.XZ start) in
  let to :=
    match end_ with
    | Some e => Js.relIndex len (Js.XZ e)
    | None => len
    end in
  str_take (to - from) (str_drop from s).

(** [s.startsWith(c)] and [s.endsWith(c)] for a text [c] of one character *)
Definition starts_with (c : ascii) (s : string) : bool :=
  match s with
  | String d _ => Ascii.eqb d c
  | "" => false
  end.

Fixpoint ends_with (c : ascii) (s : string) : bool :=
  match s with
  | "" => false
  | String d r => if str_empty r then Ascii.eqb d c else ends_with c r
  end.

(** [stripQuotes] *)
Definition stripQuotes (value : string) : string :=
  let trimmed := trim value in
  if (starts_with DQ trimmed && ends_with DQ trimmed)
     || (starts_with SQ trimmed && ends_with SQ trimmed)
  then str_slice trimmed 1 (Some (-1))
  else trimmed.

(** [truncateMiddle]; [Math.floor((max - 3) / 2)] is the floored
    division of integers. *)
Definition truncateMiddle (str : string) (max : Z) : string :=
  if Z.of_nat (String.length str) <=? max then str else
  let half := (max - 3) / 2 in
  str_slice str 0 (Some half) +:+ "..." +:+
  str_slice str (Z.of_nat (String.length str) - half) None.

(** [c.repeat(n)] for a text [c] of one character and [0 <= n] *)
Fixpoint repeat_char (c : ascii) (n : nat) : string :=
  match n with
  | O => ""
  | S k => String c (repeat_char c k)
  end.

(** [pad] *)
Definition pad (str : string) (width : Z) : string :=
  if width <=? Z.of_nat (String.length str) then str
  else str +:+ repeat_char " " (Z.to_nat (width - Z.of_nat (String.length str))).

(** [s.padStart(2, "0")] *)
Definition padStart2 (s : string) : string :=
  repeat_char "0" (2 - String.length s) +:+ s.

(** [formatDuration] on a whole number of milliseconds *)
Definition formatDuration (ms : Z) : string :=
  if ms <? 1000 then pretty ms +:+ "ms" else
  let seconds := ms / 1000 in
  if seconds <? 60 then pretty seconds +:+ "s" else
  let minutes := seconds / 60 in
  let rem := seconds mod 60 in
  pretty minutes +:+ "m" +:+ padStart2 (pretty rem) +:+ "s".

(** [loadPtyModule]: [cache] is the module variable [ptyModulePromise]
    ([None] for [null]) with what the promise settles to, [import] what
    importing the backend gives now.  The result and the variable after the
    call. *)
Definition loadPtyModule (import : PtyLoad) (cache : option PtyLoad)
    : PtyLoad * option PtyLoad :=
  match cache with
  | None => (import, Some import)
  | Some loaded => (loaded, Some loaded)
  end.

(** ** [tokenizeCommand] and [deriveSessionName]

    The regular expression of [tokenizeCommand] is, with D for the double
    quote and S for the single quote,
    [(?:[^\sDS]+|D(?:\\.|[^D])*D|S(?:\\.|[^S])*S)+] with the flag [g].  It
    is run as a backtracking matcher runs it: alternatives in the order
    they are written, repetitions greedy.  A match is one or more pieces,
    and what follows a piece (more pieces, or the end of the match) can
    always be matched, so the first way found to match a piece is the one
    kept. *)

(** A line terminator, which [.] does not match *)
Definition is_line_end (c : ascii) : bool := Ascii.eqb c LF || Ascii.eqb c CR.

(** The class of the characters that are neither white space nor a
    quote *)
Definition is_bare (c : ascii) : bool :=
  negb (is_ws c) && negb (Ascii.eqb c DQ) && negb (Ascii.eqb c SQ).

(** [(?:\\.|[^q])*q] for the quote [q]: the text behind the closing quote,
    if the pattern matches.  At each character the repetition first tries
    one more turn, with an escaped character, then with a character that is
    no quote, and only then takes the character as the closing quote. *)
Fixpoint quoted (q : ascii) (s : string) : option string :=
  match s with
  | "" => None
  | String c r =>
      let escaped :=
        if Ascii.eqb c BS then
          match r with
          | String d r' => if is_line_end d then None else quoted q r'
          | "" => None
          end
        else None in
      match escaped with
      | Some rest => Some rest
      | None =>
          match (if Ascii.eqb c q then None else quoted q r) with
          | Some rest => Some rest
          | None => if Ascii.eqb c q then Some r else None
          end
      end
  end.

(** A run of such characters behind its first one: the text behind the
    longest run *)
Fixpoint bare_run (s : string) : string :=
  match s with
  | String c r => if is_bare c then bare_run r else s
  | "" => ""
  end.

(** One piece: a run of bare characters, or a text in double quotes, or a
    text in single quotes.  The text behind it. *)
Definition piece (s : string) : option string :=
  match s with
  | "" => None
  | String c r =>
      if is_bare c then Some (bare_run r)
      else if Ascii.eqb c DQ then quoted DQ r
      else if Ascii.eqb c SQ then quoted SQ r
      else None
  end.

(** The pieces that follow the first: the text behind the last one.  A
    piece is not empty, so the length of the text bounds the number of
    turns. *)
Fixpoint pieces (turns : nat) (s : string) : string :=
  match turns with
  | O => s
  | S k =>
      match piece s with
      | Some rest => pieces k rest
      | None => s
      end
  end.

(** A match that starts at the first character: the text matched and the
    text behind it *)
Definition match_here (s : string) : option (string * string) :=
  match piece s with
  | None => None
  | Some rest1 =>
      let rest := pieces (String.length rest1) rest1 in
      Some (str_take (Z.of_nat (String.length s - String.length rest)) s, rest)
  end.

(** [command.match(re) ?? []]: the matches from left to right; where none
    starts, the search moves on by one character. *)
Fixpoint match_all (turns : nat) (s : string) : list string :=
  match turns with
  | O => []
  | S k =>
      match s with
      | "" => []
      | String _ r =>
          match match_here s with
          | Some (token, rest) => token :: match_all k rest
          | None => match_all k r
          end
      end
  end.

(** [tokenizeCommand] *)
Definition tokenizeCommand (command : string) : list string :=
  filter (λ s, str_empty s = false)
    (map stripQuotes (match_all (String.length command) command)).

(** [deriveSessionName]; [None] is [undefined]. *)
Definition deriveSessionName (command : string) : option string :=
  match tokenizeCommand command with
  | [] => None
  | verb :: rest =>
      let target :=
        match List.find (λ t, negb (starts_with "-" t)) rest with
        | Some t => if str_empty t then head rest else Some t
        | None => head rest
        end in
      match target with
      | None => Some verb
      | Some target =>
          if str_empty target then Some verb
          else Some (stripQuotes verb +:+ " " +:+
                     truncateMiddle (stripQuotes target) 48)
      end
  end.

(** ** The [process] tool *)

(** The actions of the controller that work on one session and need
    nothing but the registry.  [write], which also needs the state of the
    input stream, is [process_write] below; [list] is left out. *)
Inductive Action : Type := Poll | Log | Kill | Clear | Remove.

Record ProcParams : Type := mkProcParams {
  action : Action;
  p_sessionId : option string;
  offset : option Js.num;
  limit : option Js.num;
}.

(** The [details] of a result.  A field the code leaves out is [None].
    [d_name] is [name], which the code sets to [deriveSessionName] of the
    command and which is undefined for a command without tokens; [total]
    always repeats [totalLines]. *)
Record ProcDetails : Type := mkDetails {
  d_status : Status;
  d_sessionId : option string;
  d_exitCode : option Z;
  d_exitSignal : option Signal;
  d_aggregated : option string;
  d_totalLines : option nat;
  d_totalChars : option nat;
  d_truncated : option bool;
  d_name : option string;
}.

Record ProcResult : Type := mkProcResult {
  p_text : string;
  p_details : ProcDetails;
}.

Definition failure (text : string) : ProcResult :=
  mkProcResult text (mkDetails Failed None None None None None None None None).

Definition completed_or_failed (s : Status) : Status :=
  match s with Completed => Completed | _ => Failed end.

Definition exited_with (exitSignal : option Signal) (exitCode : Z) : string :=
  nl +:+ nl +:+ "Process exited with " +:+
  (if exitSignal_truthy exitSignal then "signal " +:+ show_exitSignal exitSignal
   else "code " +:+ pretty exitCode) +:+ ".".

(** [case "poll"] *)
Definition process_poll (now : Z) (sid : string) (r : Registry)
    : ProcResult * Registry :=
  match getSession r sid with
  | None =>
      match getFinishedSession r sid with
      | Some finished =>
          (mkProcResult
             (str_or (tail finished)
                ("(no output recorded" +:+
                 (if truncated finished then " — truncated to cap" else "") +:+ ")")
              +:+ exited_with (exitSignal finished) (default 0 (exitCode finished)))
             (mkDetails (completed_or_failed (status finished)) (Some sid)
                (exitCode finished) None (Some (aggregated finished))
                None None None (deriveSessionName (command finished))),
           r)
      | None => (failure ("No session found for " +:+ sid), r)
      end
  | Some session =>
      if negb (backgrounded session) then
        (failure ("Session " +:+ sid +:+ " is not backgrounded."), r)
      else
        let '((stdout, stderr), r) := drainSession sid session r in
        let has_exited := exited session in
        let code := default 0 (exitCode session) in
        let sgn := exitSignal session in
        let status :=
          if has_exited then
            if (code =? 0) && negb (wasSignal sgn) then Completed else Failed
          else Running in
        let r :=
          if has_exited
          then markExited sid (exitCode session) sgn status now r
          else r in
        let output :=
          trim (join nl (filter (fun s => str_empty s = false)
                           [trimEnd stdout; trimEnd stderr])) in
        (mkProcResult
           (str_or output "(no new output)" +:+
            (if has_exited then exited_with sgn code
             else nl +:+ nl +:+ "Process still running."))
           (mkDetails status (Some sid) (if has_exited then Some code else None)
              None (Some (aggregated session)) None None None
              (deriveSessionName (command session))),
         r)
  end.

(** [case "log"] *)
Definition process_log (sid : string) (offset limit : option Js.num)
    (r : Registry) : ProcResult :=
  match getSession r sid with
  | Some session =>
      if negb (backgrounded session) then
        failure ("Session " +:+ sid +:+ " is not backgrounded.")
      else
        let ls := sliceLogLines (aggregated session) offset limit in
        mkProcResult (str_or (slice ls) "(no output yet)")
          (mkDetails (if exited session then Completed else Running) (Some sid)
             None None None (Some (totalLines ls)) (Some (totalChars ls))
             (Some (truncated session)) (deriveSessionName (command session)))
  | None =>
      match getFinishedSession r sid with
      | Some finished =>
          let ls := sliceLogLines (aggregated finished) offset limit in
          mkProcResult (str_or (slice ls) "(no output recorded)")
            (mkDetails (completed_or_failed (status finished)) (Some sid)
               (exitCode finished) (exitSignal finished) None
               (Some (totalLines ls)) (Some (totalChars ls))
               (Some (truncated finished)) (deriveSessionName (command finished)))
      | None => failure ("No session found for " +:+ sid)
      end
  end.

(** What a call of the controller leaves behind: its result, the registry
    after it, and the kill requests it made, in order. *)
Record ProcOut : Type := mkProcOut {
  o_result : ProcResult;
  o_registry : Registry;
  o_effects : list Effect;
}.

(** [case "kill"] *)
Definition process_kill (now : Z) (sid : string) (r : Registry) : ProcOut :=
  match getSession r sid with
  | None => mkProcOut (failure ("No active session found for " +:+ sid)) r []
  | Some session =>
      if negb (backgrounded session) then
        mkProcOut (failure ("Session " +:+ sid +:+ " is not backgrounded.")) r []
      else
        mkProcOut
          (mkProcResult ("Killed session " +:+ sid +:+ ".")
             (mkDetails Failed None None None None None None None
                (deriveSessionName (command session))))
          (markExited sid None (Some (SigName "SIGKILL")) Failed now r)
          (killSession session)
  end.

(** [case "clear"] *)
Definition process_clear (sid : string) (r : Registry) : ProcOut :=
  match getFinishedSession r sid with
  | Some _ =>
      mkProcOut
        (mkProcResult ("Cleared session " +:+ sid +:+ ".")
           (mkDetails Completed None None None None None None None None))
        (deleteSession sid r) []
  | None => mkProcOut (failure ("No finished session found for " +:+ sid)) r []
  end.

(** [case "remove"] *)
Definition process_remove (now : Z) (sid : string) (r : Registry) : ProcOut :=
  match getSession r sid with
  | Some session =>
      mkProcOut
        (mkProcResult ("Removed session " +:+ sid +:+ ".")
           (mkDetails Failed None None None None None None None
              (deriveSessionName (command session))))
        (markExited sid None (Some (SigName "SIGKILL")) Failed now r)
        (killSession session)
  | None =>
      match getFinishedSession r sid with
      | Some _ =>
          mkProcOut
            (mkProcResult ("Removed session " +:+ sid +:+ ".")
               (mkDetails Completed None None None None None None None None))
            (deleteSession sid r) []
      | None => mkProcOut (failure ("No session found for " +:+ sid)) r []
      end
  end.

(** [createProcessTool().execute(_, params)] for the actions above; [now]
    is the clock reading of the call. *)
Definition process_execute (now : Z) (params : ProcParams) (r : Registry) : ProcOut :=
  match p_sessionId params with
  | None => mkProcOut (failure "sessionId is required for this action.") r []
  | Some sid =>
      if str_empty sid then
        mkProcOut (failure "sessionId is required for this action.") r []
      else
        match action params with
        | Poll => let '(res, r') := process_poll now sid r in mkProcOut res r' []
        | Log => mkProcOut (process_log sid (offset params) (limit params) r) r []
        | Kill => process_kill now sid r
        | Clear => process_clear sid r
        | Remove => process_remove now sid r
        end
  end.

(** ** The events of a call in flight

    Data and exit events come from the transport that was spawned; the two
    timers fire while they are pending; the cancel signal fires once.  The
    registry is shared, so calls of the controller may fall between the
    events of a call of the executor: [EvProcess]. *)
Inductive Event : Type :=
| EvStdout (data : string)
| EvStderr (data : string)
| EvPtyData (data : string)
| EvYieldTimer
| EvTimeoutTimer
| EvAbort
| EvChildExit (code : option Z) (exitSignal : option string) (now : Z)
| EvChildError (message : string) (now : Z)
| EvPtyExit (exitCode : option Z) (sg : option Z) (now : Z)
| EvProcess (now : Z) (params : ProcParams).

Definition step (st : Exec) (ev : Event) : Exec :=
  match ev with
  | EvStdout data => if c_child (clo st) then onData Stdout data st else st
  | EvStderr data => if c_child (clo st) then onData Stderr data st else st
  | EvPtyData data => if c_pty (clo st) then onData Stdout data st else st
  | EvYieldTimer => if yieldPending st then onYieldTimer st else st
  | EvTimeoutTimer => if timeoutPending st then onTimeout st else st
  | EvAbort =>
      match signal st with
      | Listening => onAbort (set_signal Aborted st)
      | _ => st
      end
  | EvChildExit code exitSignal now =>
      if c_child (clo st) then handleExit code (SigName <$> exitSignal) now st else st
  | EvChildError message now =>
      if c_child (clo st) then onChildError message now st else st
  | EvPtyExit exitCode sg now =>
      if c_pty (clo st) then handleExit exitCode (SigNum <$> sg) now st else st
  | EvProcess now params =>
      with_reg (fun r => o_registry (process_execute now params r)) st
  end.

Definition run (st : Exec) (evs : list Event) : Exec := foldl step st evs.

(** What the caller of [execute] gets: the error thrown, or the first
    settlement of the promise, if any yet. *)
Definition outcome (st : Exec) : option Settlement := head (calls st).

(** ** Sample data *)

Module Sample.

Definition host : Host :=
  mkHost 1000 "s1" "/work" None None PtyLoaded (PtySpawned 4321) (Some 77).

Definition host_no_pty : Host :=
  mkHost 1000 "s1" "/work" None None (PtyLoadFailed (ErrError "boom")) (PtySpawned 4321)
    (Some 77).

Definition defaults : BashToolDefaults := mkBashDefaults None None.

Definition echo : BashParams :=
  mkBashParams "echo hi" None (Some (Js.of_Z 1000)) false None None.

Definition echo_pty : BashParams :=
  mkBashParams "echo hi" None (Some (Js.of_Z 1000)) false None (Some Pty).

Definition started (h : Host) (p : BashParams) : Exec :=
  match bash_execute defaults h p None false emptyRegistry with
  | Pending st => st
  | Threw _ => mkExec (mkClosure "" 0 None 0 false false false) emptyRegistry
                 NoSignal false false false false false [] [] []
  end.

Definition sleep_bg : BashParams :=
  mkBashParams "sleep 60" None None true None None.

Definition sleep_bg_pty : BashParams :=
  mkBashParams "sleep 60" None None true None (Some Pty).

Definition nothing : BashParams :=
  mkBashParams "" None None false None None.

Definition poll (sid : string) : ProcParams := mkProcParams Poll (Some sid) None None.

Definition remove (sid : string) : ProcParams :=
  mkProcParams Remove (Some sid) None None.

(** Registries reached by sample calls *)
Definition echo_done : Registry :=
  reg (run (started host echo) [EvStdout "hi
"; EvChildExit (Some 0) None 1005]).

Definition silent_done : Registry :=
  reg (run (started host echo) [EvChildExit (Some 0) None 1005]).

Definition two_lines_live : Registry :=
  reg (run (started host echo) [EvStdout "a
b
"]).

Definition sleeping : Registry := reg (started host sleep_bg).

(** The session objects in them *)
Definition echo_session : Session :=
  mkSession "s1" "echo hi" (Some (mkChild (Some 77))) None (Some 77) Pipe 1000
    "/work" 30000 3 ["hi
"] [] "hi
" "hi
" true (Some 0) None false false Completed (Some 1005).

Definition two_lines_session : Session :=
  mkSession "s1" "echo hi" (Some (mkChild (Some 77))) None (Some 77) Pipe 1000
    "/work" 30000 4 ["a
b
"] [] "a
b
" "a
b
" false None None false false Running None.


End Sample.

(** ** The [write] action of the controller *)

(** What reaches the transport of a session: a write to the PTY, a write
    to the standard input of the child, the end of that input. *)
Inductive StdinOp : Type :=
| PtyWrite (data : string)
| StdinWrite (data : string)
| StdinEnd.

(** A call of [write] returns a result or, when the write to the pipe
    fails, is rejected with the error of the stream; [ops] is what it did
    to the transport, in order. *)
Inductive WriteOut : Type :=
| WriteReturned (res : ProcResult) (ops : list StdinOp)
| WriteRejected (error : string) (ops : list StdinOp).

(** [case "write"] for a session id that is present.  [destroyed] is
    [session.child.stdin.destroyed], [write_error] the error the stream
    hands to the callback of [write], if any.  The registry is not
    changed. *)
Definition process_write (destroyed : bool) (write_error : option string)
    (sid : string) (data : option string) (eof : bool) (r : Registry) : WriteOut :=
  match getSession r sid with
  | None => WriteReturned (failure ("No active session found for " +:+ sid)) []
  | Some session =>
      if negb (backgrounded session) then
        WriteReturned (failure ("Session " +:+ sid +:+ " is not backgrounded.")) []
      else
        let written :=
          mkProcResult
            ("Wrote " +:+ pretty (Z.of_nat (String.length (default "" data)))
             +:+ " bytes to session " +:+ sid
             +:+ (if eof then " (stdin closed)" else "") +:+ ".")
            (mkDetails Running (Some sid) None None None None None None
               (deriveSessionName (command session))) in
        match stdinMode session with
        | Pty =>
            match pty session with
            | Some _ =>
                if exited session then
                  WriteReturned
                    (failure ("Session " +:+ sid +:+ " stdin is not writable.")) []
                else
                  WriteReturned written
                    (PtyWrite (default "" data)
                     :: (if eof then [PtyWrite (String "004" "")] else []))
            | None =>
                WriteReturned
                  (failure ("Session " +:+ sid +:+ " stdin is not writable.")) []
            end
        | Pipe =>
            match child session with
            | Some _ =>
                if destroyed then
                  WriteReturned
                    (failure ("Session " +:+ sid +:+ " stdin is not writable.")) []
                else
                  match write_error with
                  | Some err => WriteRejected err [StdinWrite (default "" data)]
                  | None =>
                      WriteReturned written
                        (StdinWrite (default "" data)
                         :: (if eof then [StdinEnd] else []))
                  end
            | None =>
                WriteReturned
                  (failure ("Session " +:+ sid +:+ " stdin is not writable.")) []
            end
        end
  end.

(** ** What the properties are stated with *)

(** Removal of one final line feed *)
Fixpoint chomp (s : string) : string :=
  match s with
  | "" => ""
  | String c r =>
      if Ascii.eqb c LF && str_empty r then "" else String c (chomp r)
  end.

(** The number of line feeds of a text, and whether its last character is
    one *)
Fixpoint count_lf (s : string) : nat :=
  match s with
  | "" => 0
  | String c r => ((if Ascii.eqb c LF then 1 else 0) + count_lf r)%nat
  end.

Fixpoint ends_lf (s : string) : bool :=
  match s with
  | "" => false
  | String c r => if str_empty r then Ascii.eqb c LF else ends_lf r
  end.

(** The window of lines a [log] action is asked for, [offset] and [limit]
    being finite numbers: each is rounded down and a negative one counts as
    zero; a limit without an offset asks for the last lines. *)
Definition line_index (q : Q) : nat := Z.to_nat (Qfloor q).

Definition log_window (lines : list string) (offset limit : option Q) : list string :=
  match offset, limit with
  | None, Some l => drop (length lines - line_index l) lines
  | Some o, Some l => take (line_index l) (drop (line_index o) lines)
  | Some o, None => drop (line_index o) lines
  | None, None => lines
  end.

(** The session a [log] action reads: a live one that was backgrounded, or
    a finished one. *)
Definition log_target (r : Registry) (sid : string) : option Session :=
  match getSession r sid with
  | Some s => if backgrounded s then Some s else None
  | None => getFinishedSession r sid
  end.

(** [split_lf] puts a character that is no line feed in front of the
    first piece. *)
Definition push_char (c : ascii) (l : list string) : list string :=
  match l with
  | h :: t => String c h :: t
  | [] => [String c ""]
  end.

(** A number that holds the integer [z] *)
Definition integral (x : Js.num) (z : Z) : Prop :=
  match x with
  | Js.Fin q => q == inject_Z z
  | _ => False
  end.

(** A text with its line ends normalised: every CR LF pair replaced by LF,
    and the final line feed, if there is one, removed. *)
Definition line_normalized (text : string) : string := chomp (replace_crlf text).

(** The text a [log] result shows when the slice is empty *)
Definition log_placeholder (r : Registry) (sid : string) : string :=
  match getSession r sid with
  | Some _ => "(no output yet)"
  | None => "(no output recorded)"
  end.

(** The reason of a failure as the specification orders it: the timeout
    first, then the signal the process died of, then the missing exit code,
    then the exit code.  A process died of a signal when the exit reports a
    signal name, or a signal number other than 0. *)
Definition died_of (exitSignal : option Signal) : option string :=
  match exitSignal with
  | Some (SigName name) => if str_empty name then None else Some name
  | Some (SigNum n) => if n =? 0 then None else Some (pretty n)
  | None => None
  end.

Definition reason_by_priority (timedOut : bool) (seconds : Z) (code : option Z)
    (exitSignal : option Signal) : string :=
  if timedOut then "Command timed out after " +:+ pretty seconds +:+ " seconds"
  else
    match died_of exitSignal with
    | Some name => "Command aborted by signal " +:+ name
    | None =>
        match code with
        | None => "Command aborted before exit code was captured"
        | Some n => "Command exited with code " +:+ pretty n
        end
    end.


(** The events that end a run: an exit of the process, or the failure to
    spawn or signal it. *)
Definition terminal (ev : Event) : bool :=
  match ev with
  | EvChildExit _ _ _ | EvChildError _ _ | EvPtyExit _ _ _ => true
  | _ => false
  end.

(** One registry comes from another by changes that leave every session
    object in place, backgrounded or not as it was. *)
Definition keeps_background (r r' : Registry) : Prop :=
  ∀ j, backgrounded <$> objs r' !! j = backgrounded <$> objs r !! j.

(** A handler is quiet when it leaves the settlement of the call alone. *)
Definition quiet (st st' : Exec) : Prop :=
  clo st' = clo st ∧ settled st' = settled st ∧ yielded st' = yielded st
  ∧ yieldPending st' = yieldPending st ∧ calls st' = calls st
  ∧ keeps_background (reg st) (reg st').

(** The state of a call in flight is consistent: its session object
    exists and is backgrounded exactly when the call has yielded; a call
    that is not settled has made no call of [resolve] or [reject], has not
    yielded, and its yield timer is pending; a settled call has made one. *)
Record consistent (st : Exec) : Prop := mkConsistent {
  cs_session : is_Some (session st);
  cs_backgrounded : ∀ s, session st = Some s → backgrounded s = yielded st;
  cs_unsettled :
    settled st = false →
    calls st = [] ∧ yieldPending st = true ∧ yielded st = false;
  cs_settled : settled st = true → length (calls st) = 1%nat;
}.

(** A result carries the warning of its call: its text is the warning, a
    blank line, and then the still-running notice or the output. *)
Definition result_body (res : BashResult) : string :=
  match b_details res with
  | DRunning sid p _ _ => running_notice sid p
  | DDone _ _ _ output => str_or output "(no output)"
  end.

Definition carries_warning (w : option string) (x : Settlement) : Prop :=
  match x with
  | Resolved res => b_text res = warningText w +:+ result_body res
  | Rejected _ => True
  end.

(** The state of a call before its timers are set: nothing has happened
    to its settlement yet. *)
Definition fresh (st : Exec) : Prop :=
  (∃ s, session st = Some s ∧ backgrounded s = false)
  ∧ settled st = false ∧ yielded st = false ∧ calls st = [].

(** An event is heard when it comes from the transport the call has
    spawned (the listeners of the other transport were never installed). *)
Definition heard (st : Exec) (ev : Event) : bool :=
  match ev with
  | EvStdout _ | EvStderr _ | EvChildExit _ _ _ | EvChildError _ _ => c_child (clo st)
  | EvPtyData _ | EvPtyExit _ _ _ => c_pty (clo st)
  | _ => true
  end.

(** The stream and the text of a data event *)
Definition data_of (ev : Event) : option (Stream * string) :=
  match ev with
  | EvStdout data => Some (Stdout, data)
  | EvStderr data => Some (Stderr, data)
  | EvPtyData data => Some (Stdout, data)
  | _ => None
  end.

(** The capture of a text by a session: chunk by chunk *)
Definition captured (stream : Stream) (data : string) (s : Session) : Session :=
  foldl (λ s chunk, append_chunk stream chunk s) s (chunkString data).

(** The order of numbers; NaN compares with nothing. *)
Definition num_le (x y : Js.num) : Prop :=
  match x, y with
  | Js.NaN, _ | _, Js.NaN => False
  | Js.NInf, _ | _, Js.PInf => True
  | Js.Fin a, Js.Fin b => (a <= b)%Q
  | _, _ => False
  end.

(** All the elements of a list but the last *)
Fixpoint but_last {A} (l : list A) : list A :=
  match l with
  | [] | [_] => []
  | x :: rest => x :: but_last rest
  end.

(** One registry comes from another by changes that leave every session
    object in place with its transport: what [killSession] would request
    for it is the same. *)
Definition keeps_target (r r' : Registry) : Prop :=
  ∀ j, killSession <$> objs r' !! j = killSession <$> objs r !! j.

(** A handler is harmless when it requests no kill and leaves alone what
    the kill requests depend on. *)
Definition harmless (st st' : Exec) : Prop :=
  clo st' = clo st ∧ effects st' = effects st ∧ timedOut st' = timedOut st
  ∧ signal st' = signal st ∧ keeps_target (reg st) (reg st').

(** The kill requests of a call: each is one of [ks], the requests for its
    own session, and there is none unless the timeout has fired or the
    cancel signal was raised. *)
Record kills_own (ks : list Effect) (st : Exec) : Prop := mkKillsOwn {
  ko_session : ∃ s, session st = Some s ∧ killSession s = ks;
  ko_effects : Forall (λ e, e ∈ ks) (effects st);
  ko_cause : effects st ≠ [] → timedOut st = true ∨ signal st = Aborted;
}.

(** What a kill request of a call may be, for the session [s] of the
    call: the tree of its recorded process, whose id is not 0, and the PTY
    handle when the session runs on a PTY. *)
Definition aimed_at (s : Session) (e : Effect) : Prop :=
  match e with
  | KillProcessTree p => pid s = Some p ∧ p ≠ 0
  | PtyKill => stdinMode s = Pty
  end.

(** What a call of [write] did to the transport *)
Definition write_ops (out : WriteOut) : list StdinOp :=
  match out with
  | WriteReturned _ ops => ops
  | WriteRejected _ ops => ops
  end.

(** The input of a session can be written to: the session runs on a PTY
    whose handle is there and has not exited, or on pipes whose standard
    input is there and not destroyed. *)
Definition writable (destroyed : bool) (s : Session) : Prop :=
  match stdinMode s with
  | Pty => is_Some (pty s) ∧ exited s = false
  | Pipe => is_Some (child s) ∧ destroyed = false
  end.

(** A text without a line feed *)
Definition one_line (s : string) : Prop := count_lf s = 0%nat.

(** Calls of [loadPtyModule] one after the other, [imports] holding what
    importing the backend would give at the time of each call: the results
    in order. *)
Fixpoint loadPtyModule_calls (imports : list PtyLoad) (cache : option PtyLoad)
    : list PtyLoad :=
  match imports with
  | [] => []
  | import :: rest =>
      let '(res, cache') := loadPtyModule import cache in
      res :: loadPtyModule_calls rest cache'
  end.


(** A word of a command line: a text that is not empty and holds neither
    white space nor a quote. *)
Fixpoint all_bare (s : string) : bool :=
  match s with
  | "" => true
  | String c r => is_bare c && all_bare r
  end.

Definition word (w : string) : Prop := w ≠ "" ∧ all_bare w = true.

(** A text that can stand between two quotes [q] as it is: it holds
    neither the quote nor a backslash. *)
Fixpoint plain_for (q : ascii) (s : string) : bool :=
  match s with
  | "" => true
  | String c r => negb (Ascii.eqb c q) && negb (Ascii.eqb c BS) && plain_for q r
  end.

(** An argument as it is written on a command line and the text it stands
    for: a word, which stands for itself, or a text that is not empty, put
    between two double quotes or two single quotes. *)
Inductive argument : string → string → Prop :=
| arg_word (w : string) : word w → argument w w
| arg_quoted (q : ascii) (s : string) :
    q = DQ ∨ q = SQ → s ≠ "" → plain_for q s = true →
    argument (String q (s +:+ String q "")) s.

(** An option of a command line: a word that begins with a dash *)
Definition option_word (w : string) : Prop := word w ∧ starts_with "-" w = true.

(** The calls the controller refuses, by the guards of its branches: no
    session id; for [poll] and [log], a live session that was not
    backgrounded, or no session under the id at all; for [kill], no live
    session under the id, or one that was not backgrounded; for [clear],
    no finished session under the id; for [remove], no session under the
    id at all. *)
Definition refused (params : ProcParams) (r : Registry) : Prop :=
  match p_sessionId params with
  | None => True
  | Some sid =>
      sid = "" ∨
      match action params with
      | Poll | Log =>
          match getSession r sid with
          | Some s => backgrounded s = false
          | None => getFinishedSession r sid = None
          end
      | Kill =>
          match getSession r sid with
          | Some s => backgrounded s = false
          | None => True
          end
      | Clear => getFinishedSession r sid = None
      | Remove => getSession r sid = None ∧ getFinishedSession r sid = None
      end
  end.

(** The pending buffer of a stream, and the other stream *)
Definition pending (stream : Stream) (s : Session) : list string :=
  match stream with Stdout => pendingStdout s | Stderr => pendingStderr s end.

Definition other_stream (stream : Stream) : Stream :=
  match stream with Stdout => Stderr | Stderr => Stdout end.

(** The session [s] once its process has written the text [data], taken
    as one piece, with [pout] and [perr] for its pending buffers: the text
    is added to the aggregated output as far as the cap leaves room, the
    tail is the end of that output, every character written is counted,
    and [truncated] is set when some were dropped. *)
Definition received (data : string) (pout perr : list string) (s : Session) : Session :=
  let kept :=
    str_take (maxOutputChars s - Z.of_nat (String.length (aggregated s))) data in
  let 'mkSession i c ch pt p m t0 d cap tot _ _ agg _ ex ec es tr bg stt en := s in
  mkSession i c ch pt p m t0 d cap (tot + Z.of_nat (String.length data)) pout perr
    (agg +:+ kept) (str_last TAIL_CHARS (agg +:+ kept)) ex ec es
    (tr || (String.length kept <? String.length data)%nat) bg stt en.

(** The session [s'] is the session [s] after it has taken the text [data]
    from [stream]: it is [s] with [data] received, the pending buffer of
    the stream holds, after what it held, the part of the text that was
    kept, and the pending buffer of the other stream is as it was. *)
Definition takes (stream : Stream) (data : string) (s s' : Session) : Prop :=
  ∃ pout perr,
    s' = received data pout perr s
    ∧ join "" (match stream with Stdout => pout | Stderr => perr end)
      = join "" (pending stream s)
        +:+ str_take (maxOutputChars s - Z.of_nat (String.length (aggregated s))) data
    ∧ match stream with Stdout => perr | Stderr => pout end
      = pending (other_stream stream) s.

(** What a text written by the process does to the session: nothing when
    the text is empty or the session has exited; else the session takes
    the text. *)
Definition receives (stream : Stream) (data : string) (s s' : Session) : Prop :=
  if exited s || str_empty data then s' = s else takes stream data s s'.

(** The events by which the timer of the timeout goes off and the cancel
    signal is raised *)
Definition is_timeout (ev : Event) : bool :=
  match ev with EvTimeoutTimer => true | _ => false end.

Definition is_abort (ev : Event) : bool :=
  match ev with EvAbort => true | _ => false end.

(** Whether a timer that was set at the start of the call [st0] goes off
    during the events [evs]: it does at the first [EvTimeoutTimer], unless
    an exit or an error of the process of the call comes before it and
    clears the timer. *)
Fixpoint timer_goes_off (st0 : Exec) (evs : list Event) : bool :=
  match evs with
  | [] => false
  | ev :: rest =>
      if is_timeout ev then true
      else if terminal ev && heard st0 ev then false
      else timer_goes_off st0 rest
  end.

(** The timeout of a call has fired: the call has a timer, its timeout of
    [seconds] being positive, and the timer has gone off. *)
Definition timeout_fired (seconds : Z) (st0 : Exec) (evs : list Event) : bool :=
  (0 <? seconds) && timer_goes_off st0 evs.

(** The cancel signal of a call has been raised: before the call, or,
    when the call was given one, during the events. *)
Definition abort_raised (sig : option bool) (evs : list Event) : bool :=
  match sig with
  | Some true => true
  | Some false => existsb is_abort evs
  | None => false
  end.

(** A handler leaves the timers and the cancel signal alone. *)
Definition same_timers (st st' : Exec) : Prop :=
  clo st' = clo st ∧ timedOut st' = timedOut st
  ∧ timeoutPending st' = timeoutPending st ∧ signal st' = signal st.

(** * Properties *)

(** ** Lines of a text *)

Section Lines.

Local Open Scope nat_scope.

Lemma split_lf_cons c r :
  split_lf (String c r) =
  if Ascii.eqb c LF then "" :: split_lf r else push_char c (split_lf r).
Proof. reflexivity. Qed.

Lemma split_lf_not_nil s : split_lf s ≠ [].
Proof.
  destruct s as [|c r]; [discriminate|].
  rewrite split_lf_cons. destruct (Ascii.eqb c LF); [discriminate|].
  destruct (split_lf r); discriminate.
Qed.

Lemma pop_cons2 x y l :
  pop_if_last_empty (x :: y :: l) = x :: pop_if_last_empty (y :: l).
Proof. reflexivity. Qed.

Lemma pop_cons x l :
  l ≠ [] → pop_if_last_empty (x :: l) = x :: pop_if_last_empty l.
Proof. destruct l; [congruence | intros _; apply pop_cons2]. Qed.

Lemma pop_push_char c l :
  l ≠ [] → pop_if_last_empty (push_char c l) = push_char c (pop_if_last_empty l).
Proof.
  destruct l as [|h [|y t]]; [congruence | |]; intros _.
  - simpl. destruct h; reflexivity.
  - reflexivity.
Qed.

Lemma join_push_char c l : join nl (push_char c l) = String c (join nl l).
Proof. destruct l as [|h [|y t]]; reflexivity. Qed.

Lemma join_cons_empty l :
  join nl ("" :: l) = match l with [] => "" | _ => String LF (join nl l) end.
Proof. destruct l; reflexivity. Qed.

(** Splitting on line feeds loses nothing. *)
Lemma join_split_lf s : join nl (split_lf s) = s.
Proof.
  induction s as [|c r IH]; [reflexivity|].
  rewrite split_lf_cons. destruct (Ascii.eqb_spec c LF) as [->|Hc].
  - rewrite join_cons_empty, IH.
    pose proof (split_lf_not_nil r). destruct (split_lf r); congruence.
  - by rewrite join_push_char, IH.
Qed.

Lemma pop_split_lf_cons c r :
  pop_if_last_empty (split_lf (String c r)) =
  if Ascii.eqb c LF then
    if str_empty r then [""] else "" :: pop_if_last_empty (split_lf r)
  else push_char c (pop_if_last_empty (split_lf r)).
Proof.
  rewrite split_lf_cons. destruct (Ascii.eqb c LF).
  - destruct r as [|c' r']; [reflexivity|].
    apply pop_cons, split_lf_not_nil.
  - apply pop_push_char, split_lf_not_nil.
Qed.

Lemma pop_split_lf_nil s : pop_if_last_empty (split_lf s) = [] → s = "".
Proof.
  destruct s as [|c r]; [done|]. rewrite pop_split_lf_cons.
  destruct (Ascii.eqb c LF); [destruct (str_empty r); discriminate|].
  destruct (pop_if_last_empty (split_lf r)); discriminate.
Qed.

(** Rejoining the counted lines gives the text without its final line
    feed. *)
Lemma join_log_lines s : join nl (pop_if_last_empty (split_lf s)) = chomp s.
Proof.
  induction s as [|c r IH]; [reflexivity|].
  rewrite pop_split_lf_cons. simpl chomp. destruct (Ascii.eqb c LF) eqn:Ec.
  - apply Ascii.eqb_eq in Ec as ->.
    destruct r as [|c' r']; [reflexivity|]. cbn [str_empty andb].
    rewrite join_cons_empty, IH.
    destruct (pop_if_last_empty (split_lf (String c' r'))) eqn:E; [|reflexivity].
    apply pop_split_lf_nil in E. discriminate.
  - simpl andb. cbv iota. by rewrite join_push_char, IH.
Qed.

Lemma length_push_char c l : length (push_char c l) = Nat.max 1 (length l).
Proof. destruct l; reflexivity. Qed.

Lemma length_log_lines s :
  length (pop_if_last_empty (split_lf s)) + (if ends_lf s then 1 else 0)
  = count_lf s + (if str_empty s then 0 else 1).
Proof.
  induction s as [|c r IH]; [reflexivity|].
  rewrite pop_split_lf_cons. simpl count_lf. simpl ends_lf. cbn [str_empty].
  destruct (Ascii.eqb c LF) eqn:Ec.
  - destruct r as [|c' r']; [reflexivity|].
    cbn [str_empty] in *. cbn [length]. destruct (ends_lf _); lia.
  - rewrite length_push_char. destruct r as [|c' r']; [reflexivity|].
    cbn [str_empty] in *.
    destruct (pop_if_last_empty (split_lf (String c' r'))) eqn:E.
    + apply pop_split_lf_nil in E. discriminate.
    + simpl length in *. lia.
Qed.

(** Normalisation of line ends keeps the line feeds. *)
Lemma string_ind2 (P : string → Prop) :
  P "" → (∀ c, P (String c "")) →
  (∀ c c' r, P r → P (String c' r) → P (String c (String c' r))) →
  ∀ s, P s.
Proof.
  intros H0 H1 H2 s. cut (P s ∧ ∀ c, P (String c s)); [tauto|].
  induction s as [|c' r [IH1 IH2]]; split; auto.
Qed.

Lemma replace_crlf_cons2 c c' r :
  replace_crlf (String c (String c' r)) =
  if Ascii.eqb c CR && Ascii.eqb c' LF then String LF (replace_crlf r)
  else String c (replace_crlf (String c' r)).
Proof. reflexivity. Qed.

Lemma replace_crlf_empty s : str_empty (replace_crlf s) = str_empty s.
Proof.
  destruct s as [|c [|c' r]]; try reflexivity.
  rewrite replace_crlf_cons2. by destruct (_ && _).
Qed.

Lemma count_lf_replace_crlf s : count_lf (replace_crlf s) = count_lf s.
Proof.
  induction s as [|c|c c' r IH1 IH2] using string_ind2; try reflexivity.
  rewrite replace_crlf_cons2.
  destruct (Ascii.eqb c CR) eqn:Ec; destruct (Ascii.eqb c' LF) eqn:Ec';
    cbn [andb]; cbn [count_lf] in *; rewrite ?Ec' in *.
  - apply Ascii.eqb_eq in Ec as ->. rewrite IH1. reflexivity.
  - by rewrite IH2.
  - by rewrite IH2.
  - by rewrite IH2.
Qed.

Lemma ends_lf_replace_crlf s : ends_lf (replace_crlf s) = ends_lf s.
Proof.
  induction s as [|c|c c' r IH1 IH2] using string_ind2; try reflexivity.
  rewrite replace_crlf_cons2.
  destruct (Ascii.eqb c CR) eqn:Ec; destruct (Ascii.eqb c' LF) eqn:Ec';
    cbn [andb]; cbn [ends_lf str_empty] in *; rewrite ?replace_crlf_empty;
    cbn [str_empty]; rewrite ?Ec' in *; try exact IH2.
  destruct r as [|c2 r2]; [reflexivity|]. exact IH1.
Qed.

End Lines.

(** ** Numbers that hold an integer, and [Array.slice] on them *)

Section Numbers.

Lemma integral_of_Z z : integral (Js.of_Z z) z.
Proof. simpl. reflexivity. Qed.

Lemma integral_floor q : integral (Js.floor (Js.Fin q)) (Qfloor q).
Proof. apply integral_of_Z. Qed.

Lemma integral_add x y a b :
  integral x a → integral y b → integral (Js.add x y) (a + b).
Proof.
  destruct x as [p| | |], y as [q| | |]; simpl; try tauto.
  intros -> ->. by rewrite inject_Z_plus.
Qed.

Lemma integral_sub x y a b :
  integral x a → integral y b → integral (Js.sub x y) (a - b).
Proof.
  destruct x as [p| | |], y as [q| | |]; simpl; try tauto.
  intros -> ->. unfold Z.sub. by rewrite inject_Z_plus, inject_Z_opp.
Qed.

Lemma integral_max x y a b :
  integral x a → integral y b → integral (Js.max x y) (Z.max a b).
Proof.
  destruct x as [p| | |], y as [q| | |]; simpl; try tauto.
  intros Hp Hq. destruct (Qle_bool p q) eqn:E; simpl.
  - apply Qle_bool_iff in E. rewrite Hp, Hq in E. rewrite <- Zle_Qle in E.
    by rewrite Z.max_r.
  - assert (¬ (a <= b)%Z) as Hn.
    { intros Hle. rewrite Zle_Qle in Hle. rewrite <- Hp, <- Hq in Hle.
      apply Qle_bool_iff in Hle. congruence. }
    rewrite Z.max_l by lia. done.
Qed.

Lemma integral_toInteger x z :
  integral x z → Js.toIntegerOrInfinity x = Js.XZ z.
Proof.
  destruct x as [q| | |]; simpl; try tauto.
  unfold Qeq. simpl. rewrite Z.mul_1_r. intros ->.
  f_equal. apply Z.quot_mul. done.
Qed.

Lemma take_drop_clip {A} (l : list A) (a b : nat) :
  take (Nat.min b (length l) - Nat.min a (length l)) (drop (Nat.min a (length l)) l)
  = take (b - a) (drop a l).
Proof.
  destruct (Nat.le_gt_cases (length l) a) as [Ha|Ha].
  - rewrite (Nat.min_r a) by lia. rewrite !drop_ge by lia. by rewrite !take_nil.
  - rewrite (Nat.min_l a) by lia.
    destruct (Nat.le_gt_cases b (length l)) as [Hb|Hb].
    + by rewrite (Nat.min_l b) by lia.
    + rewrite (Nat.min_r b) by lia.
      rewrite !take_ge; [done | |]; rewrite length_drop; lia.
Qed.

Lemma slice_from {A} (l : list A) x a :
  integral x a → (0 <= a)%Z → Js.slice l x None = drop (Z.to_nat a) l.
Proof.
  intros Hx Ha. unfold Js.slice. rewrite (integral_toInteger _ _ Hx). simpl.
  destruct (Z.ltb_spec a 0); [lia|].
  pose proof (take_drop_clip l (Z.to_nat a) (length l)) as H1.
  rewrite Nat.min_id in H1.
  replace (Z.to_nat (Z.of_nat (length l) - Z.min a (Z.of_nat (length l))))
    with (length l - Nat.min (Z.to_nat a) (length l))%nat by lia.
  replace (Z.to_nat (Z.min a (Z.of_nat (length l))))
    with (Nat.min (Z.to_nat a) (length l)) by lia.
  rewrite H1. apply take_ge. rewrite length_drop. lia.
Qed.

Lemma slice_between {A} (l : list A) x y a b :
  integral x a → integral y b → (0 <= a)%Z → (0 <= b)%Z →
  Js.slice l x (Some y) = take (Z.to_nat b - Z.to_nat a) (drop (Z.to_nat a) l).
Proof.
  intros Hx Hy Ha Hb. unfold Js.slice.
  rewrite (integral_toInteger _ _ Hx), (integral_toInteger _ _ Hy). simpl.
  destruct (Z.ltb_spec a 0); [lia|]. destruct (Z.ltb_spec b 0); [lia|].
  rewrite <- take_drop_clip.
  replace (Z.to_nat (Z.min b (Z.of_nat (length l)) - Z.min a (Z.of_nat (length l))))
    with (Nat.min (Z.to_nat b) (length l) - Nat.min (Z.to_nat a) (length l))%nat by lia.
  replace (Z.to_nat (Z.min a (Z.of_nat (length l))))
    with (Nat.min (Z.to_nat a) (length l)) by lia.
  done.
Qed.

End Numbers.

(** ** [sliceLogLines] on finite arguments *)

Lemma line_index_max q : Z.to_nat (Z.max 0 (Qfloor q)) = line_index q.
Proof. unfold line_index. lia. Qed.

Lemma log_window_nil offset limit : log_window [] offset limit = [].
Proof.
  destruct offset, limit; simpl; rewrite ?drop_nil, ?take_nil; reflexivity.
Qed.

Lemma sliceLogLines_finite text (offset limit : option Q) :
  sliceLogLines text (Js.Fin <$> offset) (Js.Fin <$> limit)
  = mkLogSlice (join nl (log_window (log_lines text) offset limit))
      (length (log_lines text)) (String.length text).
Proof.
  destruct text as [|c r].
  { simpl. unfold log_lines. simpl. by rewrite log_window_nil. }
  unfold sliceLogLines, log_lines. cbn [str_empty].
  set (lines := pop_if_last_empty (split_lf (replace_crlf (String c r)))).
  f_equal. f_equal.
  pose proof (integral_of_Z 0) as H0.
  destruct offset as [o|], limit as [l|]; cbn [fmap option_fmap option_map Js.isFinite log_window].
  - pose proof (integral_max _ _ _ _ H0 (integral_floor o)) as Ho.
    pose proof (integral_max _ _ _ _ H0 (integral_floor l)) as Hl.
    rewrite (slice_between _ _ _ _ _ Ho (integral_add _ _ _ _ Ho Hl)) by lia.
    rewrite line_index_max. f_equal. unfold line_index. lia.
  - pose proof (integral_max _ _ _ _ H0 (integral_floor o)) as Ho.
    rewrite (slice_from _ _ _ Ho) by lia. by rewrite line_index_max.
  - pose proof (integral_max _ _ _ _ H0 (integral_floor l)) as Hl.
    pose proof (integral_max _ _ _ _
                  (integral_sub _ _ _ _ (integral_of_Z (Z.of_nat (length lines))) Hl) H0)
      as Hs.
    rewrite (slice_between _ _ _ _ _ Hs (integral_add _ _ _ _ Hs Hl)) by lia.
    replace (Z.to_nat (Z.max (Z.of_nat (length lines) - Z.max 0 (Qfloor l)) 0))
      with (length lines - line_index l)%nat by (unfold line_index; lia).
    apply take_ge. rewrite length_drop. unfold line_index. lia.
  - by rewrite (slice_from _ _ _ H0) by lia.
Qed.

(** ** The [log] action *)

Lemma process_log_target r sid s offset limit :
  log_target r sid = Some s →
  process_log sid offset limit r =
  let ls := sliceLogLines (aggregated s) offset limit in
  mkProcResult (str_or (slice ls) (log_placeholder r sid))
    (mkDetails
       (match getSession r sid with
        | Some _ => if exited s then Completed else Running
        | None => completed_or_failed (status s)
        end)
       (Some sid)
       (match getSession r sid with Some _ => None | None => exitCode s end)
       (match getSession r sid with Some _ => None | None => exitSignal s end)
       None (Some (totalLines ls)) (Some (totalChars ls))
       (Some (truncated s)) (deriveSessionName (command s))).
Proof.
  unfold log_target, process_log, log_placeholder.
  destruct (getSession r sid) as [s0|].
  - destruct (backgrounded s0) eqn:B; [|discriminate]. by intros [= ->].
  - by intros ->.
Qed.

Lemma process_log_no_target r sid offset limit :
  log_target r sid = None →
  d_totalLines (p_details (process_log sid offset limit r)) = None
  ∧ d_totalChars (p_details (process_log sid offset limit r)) = None.
Proof.
  unfold log_target, process_log.
  destruct (getSession r sid) as [s0|].
  - by destruct (backgrounded s0).
  - by intros ->.
Qed.

Lemma sliceLogLines_totals text offset limit :
  totalChars (sliceLogLines text offset limit) = String.length text
  ∧ totalLines (sliceLogLines text offset limit) = length (log_lines text).
Proof.
  unfold sliceLogLines, log_lines. by destruct text.
Qed.

Lemma process_log_finite r sid s (offset limit : option Q) :
  log_target r sid = Some s →
  process_log sid (Js.Fin <$> offset) (Js.Fin <$> limit) r
  = mkProcResult
      (str_or (join nl (log_window (log_lines (aggregated s)) offset limit))
         (log_placeholder r sid))
      (p_details (process_log sid (Js.Fin <$> offset) (Js.Fin <$> limit) r))
  ∧ d_totalLines (p_details (process_log sid (Js.Fin <$> offset) (Js.Fin <$> limit) r))
    = Some (length (log_lines (aggregated s)))
  ∧ d_totalChars (p_details (process_log sid (Js.Fin <$> offset) (Js.Fin <$> limit) r))
    = Some (String.length (aggregated s)).
Proof.
  intros E. rewrite (process_log_target _ _ _ _ _ E).
  cbv zeta. rewrite sliceLogLines_finite. done.
Qed.

(** A live session that has not been backgrounded is not read. *)
Lemma process_log_refused r sid s offset limit :
  getSession r sid = Some s → backgrounded s = false →
  process_log sid offset limit r
  = failure ("Session " +:+ sid +:+ " is not backgrounded.").
Proof. unfold process_log. by intros -> ->. Qed.

(** C10.  The [log] action reports, of the aggregated text of the session
    it reads, the length of the raw text (CR LF pairs not yet replaced) as
    [totalChars] and as [totalLines] the number of pieces left after
    replacing CR LF by LF, splitting on LF and dropping one final empty
    piece: a final line feed does not add a line, so the count is the number
    of line feeds, plus one for a non-empty text, less one for a text that
    ends in a line feed. *)
Theorem log_totals (offset limit : option Js.num) :
  (∀ text,
     let ls := sliceLogLines text offset limit in
     totalChars ls = String.length text
     ∧ totalLines ls = length (pop_if_last_empty (split_lf (replace_crlf text)))
     ∧ (totalLines ls + (if ends_lf text then 1 else 0)
        = count_lf text + (if str_empty text then 0 else 1))%nat)
  ∧ (∀ r sid,
       let d := p_details (process_log sid offset limit r) in
       let text := aggregated <$> log_target r sid in
       d_totalChars d = (λ t, totalChars (sliceLogLines t offset limit)) <$> text
       ∧ d_totalLines d = (λ t, totalLines (sliceLogLines t offset limit)) <$> text).
Proof.
  split.
  - intros text ls. destruct (sliceLogLines_totals text offset limit) as [Hc Hl].
    subst ls. rewrite Hc, Hl. unfold log_lines. split; [done|]. split; [done|].
    pose proof (length_log_lines (replace_crlf text)) as H.
    by rewrite ends_lf_replace_crlf, count_lf_replace_crlf, replace_crlf_empty in H.
  - intros r sid d text. subst d text.
    destruct (log_target r sid) as [s|] eqn:E.
    + by rewrite (process_log_target _ _ _ _ _ E).
    + by destruct (process_log_no_target r sid offset limit E) as [-> ->].
Qed.

(** C7, as amended.  On a finished session, or a live one that was
    backgrounded, a [log] action with finite [offset] and [limit] (each
    rounded down, a negative one counting as zero) shows the last [limit]
    lines when only [limit] is given, and otherwise the lines from [offset]
    up to, not including, [offset + limit] (all lines from [offset] on
    without a limit, from the first line without an offset); a placeholder
    stands in for an empty slice.  The result reports the number of lines
    and the number of characters of the whole output. *)
Theorem log_window_returned (r : Registry) (sid : string) (s : Session)
    (offset limit : option Q) :
  log_target r sid = Some s →
  let res := process_log sid (Js.Fin <$> offset) (Js.Fin <$> limit) r in
  p_text res
  = str_or (join nl (log_window (log_lines (aggregated s)) offset limit))
      (log_placeholder r sid)
  ∧ d_totalLines (p_details res) = Some (length (log_lines (aggregated s)))
  ∧ d_totalChars (p_details res) = Some (String.length (aggregated s)).
Proof.
  intros E res. subst res.
  destruct (process_log_finite r sid s offset limit E) as (Ht&Hl&Hc).
  split; [by rewrite Ht | done].
Qed.

(** C9, as amended.  On a finished session with aggregated output [O], a
    [log] action with offset 0 and no bound on the number of lines shows [O]
    with its line ends normalised (CR LF pairs replaced by LF, the lines in
    order, the final line feed removed), or the placeholder
    [(no output recorded)] when that text is empty. *)
Theorem log_roundtrip (r : Registry) (sid : string) (f : Session)
    (limit : option Js.num) :
  getSession r sid = None →
  getFinishedSession r sid = Some f →
  limit = None ∨ limit = Some Js.PInf →
  p_text (process_log sid (Some (Js.of_Z 0)) limit r)
  = str_or (line_normalized (aggregated f)) "(no output recorded)".
Proof.
  intros Hl Hf Hlim.
  assert (log_target r sid = Some f) as E by (unfold log_target; by rewrite Hl).
  assert (process_log sid (Some (Js.of_Z 0)) limit r
          = process_log sid (Js.Fin <$> Some (inject_Z 0)) (Js.Fin <$> None) r) as ->.
  { unfold process_log, sliceLogLines. rewrite Hl, Hf.
    destruct Hlim as [-> | ->]; reflexivity. }
  destruct (process_log_finite r sid f (Some (inject_Z 0)) None E) as (-> & _).
  unfold log_placeholder. rewrite Hl. cbn [log_window p_text].
  change (line_index (inject_Z 0)) with 0%nat. rewrite drop_0.
  unfold log_lines. by rewrite join_log_lines.
Qed.

(** ** Texts and their lengths *)

Section Texts.

Lemma append_empty_r (s : string) : s +:+ "" = s.
Proof.
  induction s as [|c s IH]; [done|].
  change (String c (s +:+ "") = String c s). by rewrite IH.
Qed.

Lemma string_append_cons c (a b : string) : String c a +:+ b = String c (a +:+ b).
Proof. done. Qed.

Lemma length_append (a b : string) :
  String.length (a +:+ b) = (String.length a + String.length b)%nat.
Proof.
  induction a as [|c a IH]; [done|].
  rewrite string_append_cons. cbn [String.length]. by rewrite IH.
Qed.

Lemma str_take_drop n s : str_take n s +:+ str_drop n s = s.
Proof.
  revert n. induction s as [|c s IH]; intros n; [done|].
  cbn [str_take str_drop]. destruct (0 <? n); [|done].
  by rewrite string_append_cons, IH.
Qed.

Lemma length_str_take n s :
  Z.of_nat (String.length (str_take n s))
  = Z.max 0 (Z.min n (Z.of_nat (String.length s))).
Proof.
  revert n. induction s as [|c s IH]; intros n; [cbn; lia|].
  cbn [str_take]. destruct (0 <? n) eqn:E.
  - apply Z.ltb_lt in E. cbn [String.length]. rewrite Nat2Z.inj_succ, IH. lia.
  - apply Z.ltb_ge in E. cbn [String.length]. lia.
Qed.

Lemma length_str_drop n s :
  Z.of_nat (String.length (str_drop n s))
  = Z.of_nat (String.length s) - Z.max 0 (Z.min n (Z.of_nat (String.length s))).
Proof.
  pose proof (f_equal String.length (str_take_drop n s)) as H.
  rewrite length_append in H. pose proof (length_str_take n s). lia.
Qed.

Lemma join_empty_cons x l : join "" (x :: l) = x +:+ join "" l.
Proof. destruct l; cbn; [by rewrite append_empty_r | done]. Qed.

Lemma str_empty_length s : str_empty s = true ↔ String.length s = 0%nat.
Proof. by destruct s. Qed.

Lemma string_app_assoc (a b c : string) : (a +:+ b) +:+ c = a +:+ b +:+ c.
Proof.
  induction a as [|x a IH]; [done|].
  change (String x ((a +:+ b) +:+ c) = String x (a +:+ b +:+ c)). by rewrite IH.
Qed.

End Texts.

(** ** The chunks of a text *)

Lemma chunk_loop_spec (turns : nat) (limit : Z) (input : string) :
  0 < limit → (String.length input <= turns)%nat →
  join "" (chunk_loop turns limit input) = input
  ∧ Forall (λ chunk, 0 < Z.of_nat (String.length chunk) <= limit)
      (chunk_loop turns limit input)
  ∧ Forall (λ chunk, Z.of_nat (String.length chunk) = limit)
      (but_last (chunk_loop turns limit input)).
Proof.
  intros Hl. revert input. induction turns as [|k IH]; intros input Hlen.
  - destruct input; [done | cbn in Hlen; lia].
  - cbn [chunk_loop]. destruct (str_empty input) eqn:E; [by destruct input|].
    assert (0 < Z.of_nat (String.length input)) as Hpos
      by (destruct input; [done | cbn; lia]).
    pose proof (length_str_take limit input) as Ht.
    pose proof (length_str_drop limit input) as Hd.
    destruct (IH (str_drop limit input)) as (Hj&Hb&Hf); [lia|].
    split; [by rewrite join_empty_cons, Hj, str_take_drop|].
    split; [constructor; [lia | done]|].
    destruct k as [|k'].
    { cbn. constructor. }
    cbn [chunk_loop] in *. destruct (str_empty (str_drop limit input)) eqn:E';
      [constructor|].
    cbn [but_last]. constructor; [|exact Hf].
    assert (0 < Z.of_nat (String.length (str_drop limit input)))
      by (destruct (str_drop limit input); [done | cbn; lia]).
    lia.
Qed.

(** ** The registry under its operations *)

Section RegistryFacts.

Lemma keeps_background_refl r : keeps_background r r.
Proof. by intros j. Qed.

Lemma keeps_background_trans r1 r2 r3 :
  keeps_background r1 r2 → keeps_background r2 r3 → keeps_background r1 r3.
Proof. intros H1 H2 j. by rewrite H2, H1. Qed.

Lemma keeps_background_alter (f : Session → Session) i r l d :
  (∀ s, backgrounded (f s) = backgrounded s) →
  keeps_background r (mkRegistry (alter f i (objs r)) l d).
Proof.
  intros Hf j. simpl. rewrite lookup_alter. case_decide; [subst|done].
  destruct (objs r !! j); simpl; [by rewrite Hf | done].
Qed.

Lemma backgrounded_append_chunk st c s :
  backgrounded (append_chunk st c s) = backgrounded s.
Proof. unfold append_chunk. destruct s. simpl. by destruct exited0. Qed.

Lemma backgrounded_set_exited code sg stt now s :
  backgrounded (set_exited code sg stt now s) = backgrounded s.
Proof. by destruct s. Qed.

Lemma backgrounded_drained s : backgrounded (drained s) = backgrounded s.
Proof. by destruct s. Qed.

Lemma keeps_appendOutput i st c r : keeps_background r (appendOutput i st c r).
Proof. apply keeps_background_alter, backgrounded_append_chunk. Qed.

Lemma keeps_markExited i code sg stt now r :
  keeps_background r (markExited i code sg stt now r).
Proof. apply keeps_background_alter, backgrounded_set_exited. Qed.

Lemma keeps_drainSession i s r : keeps_background r (drainSession i s r).2.
Proof. apply keeps_background_alter, backgrounded_drained. Qed.

Lemma keeps_deleteSession i r : keeps_background r (deleteSession i r).
Proof. by intros j. Qed.

Lemma keeps_process_poll now sid r : keeps_background r (process_poll now sid r).2.
Proof.
  unfold process_poll. destruct (getSession r sid) as [s|].
  - destruct (backgrounded s); simpl; [|apply keeps_background_refl].
    destruct (exited s); simpl.
    + eapply keeps_background_trans; [apply (keeps_drainSession sid s)|].
      apply keeps_markExited.
    + apply (keeps_drainSession sid s).
  - destruct (getFinishedSession r sid); apply keeps_background_refl.
Qed.

Lemma keeps_process_execute now params r :
  keeps_background r (o_registry (process_execute now params r)).
Proof.
  unfold process_execute. destruct (p_sessionId params) as [sid|];
    [|apply keeps_background_refl].
  destruct (str_empty sid); [apply keeps_background_refl|].
  destruct (action params).
  - pose proof (keeps_process_poll now sid r) as H.
    by destruct (process_poll now sid r).
  - apply keeps_background_refl.
  - unfold process_kill. destruct (getSession r sid) as [s|];
      [|apply keeps_background_refl].
    destruct (backgrounded s); simpl;
      [apply keeps_markExited | apply keeps_background_refl].
  - unfold process_clear. destruct (getFinishedSession r sid);
      [apply keeps_deleteSession | apply keeps_background_refl].
  - unfold process_remove. destruct (getSession r sid) as [s|];
      [apply keeps_markExited|].
    destruct (getFinishedSession r sid);
      [apply keeps_deleteSession | apply keeps_background_refl].
Qed.

End RegistryFacts.

(** ** Quiet handlers *)

Section Quiet.

Lemma quiet_refl st : quiet st st.
Proof. split_and!; [done.. | apply keeps_background_refl]. Qed.

Lemma quiet_trans st1 st2 st3 : quiet st1 st2 → quiet st2 st3 → quiet st1 st3.
Proof.
  intros (?&?&?&?&?&?) (?&?&?&?&?&?).
  split_and!; [congruence.. | by eapply keeps_background_trans].
Qed.

Lemma quiet_with_reg f st :
  keeps_background (reg st) (f (reg st)) → quiet st (with_reg f st).
Proof. destruct st. by repeat split. Qed.

Lemma quiet_push_update u st : quiet st (push_update u st).
Proof. destruct st. by repeat split. Qed.

Lemma quiet_push_effects l st : quiet st (push_effects l st).
Proof. destruct st. by repeat split. Qed.

Lemma quiet_set_signal sg st : quiet st (set_signal sg st).
Proof. destruct st. by repeat split. Qed.

Lemma quiet_set_timedOut st : quiet st (set_timedOut st).
Proof. destruct st. by repeat split. Qed.

Lemma quiet_set_timeoutPending b st : quiet st (set_timeoutPending b st).
Proof. destruct st. by repeat split. Qed.

Lemma quiet_onAbort st : quiet st (onAbort st).
Proof.
  unfold onAbort. destruct (session st); [apply quiet_push_effects | apply quiet_refl].
Qed.

Lemma quiet_emitUpdate st : quiet st (emitUpdate st).
Proof.
  unfold emitUpdate. destruct (negb _); [apply quiet_refl|].
  destruct (session st); [apply quiet_push_update | apply quiet_refl].
Qed.

Lemma quiet_onData stream str st : quiet st (onData stream str st).
Proof.
  unfold onData. generalize (chunkString str). intros l. revert st.
  induction l as [|c l IH]; intros st; [apply quiet_refl|]. simpl.
  eapply quiet_trans; [|apply IH].
  eapply quiet_trans; [|apply quiet_emitUpdate].
  apply quiet_with_reg, keeps_appendOutput.
Qed.

Lemma quiet_onTimeout st : quiet st (onTimeout st).
Proof.
  unfold onTimeout.
  eapply quiet_trans; [apply (quiet_set_timeoutPending false)|].
  eapply quiet_trans; [apply quiet_set_timedOut | apply quiet_onAbort].
Qed.

Lemma quiet_process now params st :
  quiet st (with_reg (λ r, o_registry (process_execute now params r)) st).
Proof. apply quiet_with_reg, keeps_process_execute. Qed.

Lemma quiet_abort st : quiet st (onAbort (set_signal Aborted st)).
Proof.
  eapply quiet_trans; [apply (quiet_set_signal Aborted) | apply quiet_onAbort].
Qed.

Lemma quiet_session st st' :
  quiet st st' → backgrounded <$> session st' = backgrounded <$> session st.
Proof. intros (Hc&_&_&_&_&Hk). unfold session. by rewrite Hc, Hk. Qed.

Lemma quiet_consistent st st' : quiet st st' → consistent st → consistent st'.
Proof.
  intros Hq [Hs Hb Hu Hse]. pose proof (quiet_session _ _ Hq) as Hbg.
  destruct Hq as (Hc&Hset&Hy&Hyp&Hcalls&Hk).
  destruct Hs as [s Hs]. rewrite Hs in Hbg.
  destruct (session st') as [s'|] eqn:Hs'; [|discriminate].
  simpl in Hbg. injection Hbg as Hbg.
  split.
  - rewrite Hs'. by exists s'.
  - intros s0 Hs0. rewrite Hs' in Hs0. injection Hs0 as <-.
    rewrite Hbg, Hy. by apply Hb.
  - rewrite Hset, Hcalls, Hyp, Hy. exact Hu.
  - rewrite Hset, Hcalls. exact Hse.
Qed.

End Quiet.

Create HintDb quiet.
#[local] Hint Resolve quiet_refl quiet_onData quiet_onTimeout quiet_abort
  quiet_process : quiet.

(** ** Handlers that settle *)

Section Settling.

Local Arguments still_running_text : simpl never.
Local Arguments failure_reason : simpl never.
Local Arguments warningText : simpl never.
Local Arguments trim : simpl never.
Local Arguments markExited : simpl never.
Local Arguments markBackgrounded : simpl never.

Lemma session_markBackgrounded st :
  session (with_reg (markBackgrounded (sessionId (clo st))) st)
  = set_backgrounded <$> session st.
Proof. destruct st. unfold session. simpl. unfold markBackgrounded. simpl. apply lookup_alter_eq. Qed.

Lemma session_markExited code sg stt now st :
  session (with_reg (markExited (sessionId (clo st)) code sg stt now) st)
  = set_exited code sg stt now <$> session st.
Proof. destruct st. unfold session. simpl. unfold markExited. simpl. apply lookup_alter_eq. Qed.

Lemma settle_settled x st : settled (settle x st) = true.
Proof. destruct st as [? ? ? [] ? ? ? ? ? ? ?]; reflexivity. Qed.

Lemma settle_calls x st :
  calls (settle x st) = if settled st then calls st else calls st ++ [x].
Proof. destruct st as [? ? ? [] ? ? ? ? ? ? ?]; reflexivity. Qed.

Lemma settle_frame x st :
  clo (settle x st) = clo st ∧ reg (settle x st) = reg st
  ∧ yielded (settle x st) = yielded st
  ∧ yieldPending (settle x st) = yieldPending st
  ∧ signal (settle x st) = signal st ∧ timedOut (settle x st) = timedOut st.
Proof. destruct st as [? ? ? [] ? ? ? ? ? ? ?]; by repeat split. Qed.

Lemma session_settle x st : session (settle x st) = session st.
Proof. destruct st as [? ? ? [] ? ? ? ? ? ? ?]; reflexivity. Qed.

(** A consistent state, once settled by [settle], is consistent, whatever
    became of its yield timer. *)
Lemma settle_consistent x st :
  is_Some (session st) →
  (∀ s, session st = Some s → backgrounded s = yielded st) →
  (settled st = false → calls st = []) →
  (settled st = true → length (calls st) = 1%nat) →
  consistent (settle x st).
Proof.
  intros Hs Hb Hu Hse. destruct (settle_frame x st) as (Hc&Hr&Hy&_).
  split.
  - by rewrite session_settle.
  - intros s. rewrite session_settle, Hy. apply Hb.
  - rewrite settle_settled. discriminate.
  - intros _. rewrite settle_calls. destruct (settled st); [by apply Hse|].
    rewrite Hu by done. reflexivity.
Qed.

Lemma onYieldTimer_consistent st : consistent st → consistent (onYieldTimer st).
Proof.
  intros [Hs Hb Hu Hse]. unfold onYieldTimer.
  destruct st as [c r sg se y t yp tp cs us fx]. unfold session in *. cbn in *.
  destruct se.
  - split; unfold session; cbn; [done | done | discriminate | done].
  - destruct Hs as [s Hs]. destruct (Hu eq_refl) as (->&_&->).
    unfold resolveRunning, session. cbn. unfold markBackgrounded. cbn.
    rewrite lookup_alter_eq, Hs. cbn.
    split; unfold session; cbn; rewrite ?lookup_alter_eq, ?Hs; cbn.
    + by eexists.
    + intros s' [= <-]. by destruct s.
    + discriminate.
    + done.
Qed.

Lemma onYieldNow_eq st : onYieldNow st = onYieldTimer st.
Proof. reflexivity. Qed.

Lemma handleExit_consistent code sg now st :
  consistent st → consistent (handleExit code sg now st).
Proof.
  intros [Hs Hb Hu Hse]. unfold handleExit.
  destruct st as [c r sgn se y t yp tp cs us fx]. unfold session in *. cbn in *.
  destruct Hs as [s Hs]. unfold markExited. cbn.
  rewrite lookup_alter_eq, Hs. cbn.
  rewrite backgrounded_set_exited, (Hb s Hs), orb_diag.
  destruct y.
  - destruct se; [|by destruct (Hu eq_refl) as (_&_&?)].
    split; unfold session; cbn; rewrite ?lookup_alter_eq, ?Hs; cbn.
    + by eexists.
    + intros s' [= <-]. rewrite backgrounded_set_exited. by apply Hb.
    + discriminate.
    + done.
  - destruct (negb _); apply settle_consistent; unfold session; cbn;
      rewrite ?lookup_alter_eq, ?Hs; cbn; try done; try (by eexists);
      try (intros s' [= <-]; rewrite backgrounded_set_exited; by apply Hb);
      intros ->; by destruct (Hu eq_refl) as (->&_).
Qed.

Lemma onChildError_consistent message now st :
  consistent st → consistent (onChildError message now st).
Proof.
  intros [Hs Hb Hu Hse]. unfold onChildError.
  destruct st as [c r sgn se y t yp tp cs us fx]. unfold session in *. cbn in *.
  destruct Hs as [s Hs]. unfold markExited. cbn.
  apply settle_consistent; unfold session; cbn;
    rewrite ?lookup_alter_eq, ?Hs; cbn; try done; try (by eexists).
  - intros s' [= <-]. rewrite backgrounded_set_exited. by apply Hb.
  - intros ->. by destruct (Hu eq_refl) as (->&_).
Qed.

Lemma step_consistent st ev : consistent st → consistent (step st ev).
Proof.
  intros H. destruct ev; cbn [step]; repeat case_match;
    eauto using quiet_consistent, onYieldTimer_consistent, handleExit_consistent,
      onChildError_consistent with quiet.
Qed.

Lemma run_snoc st evs ev : run st (evs ++ [ev]) = step (run st evs) ev.
Proof. unfold run. by rewrite foldl_app. Qed.

Lemma run_consistent st evs : consistent st → consistent (run st evs).
Proof.
  intros H. induction evs as [|ev evs IH] using rev_ind; [done|].
  rewrite run_snoc. by apply step_consistent.
Qed.


(** What a handler adds to the calls of [resolve] and [reject] *)
Lemma quiet_calls st st' : quiet st st' → calls st' = calls st ∧ clo st' = clo st.
Proof. by intros (?&?&?&?&?&?). Qed.

Lemma onYieldTimer_calls st :
  clo (onYieldTimer st) = clo st
  ∧ (settled st = true → calls (onYieldTimer st) = calls st
                          ∧ settled (onYieldTimer st) = true)
  ∧ ∃ l, calls (onYieldTimer st) = calls st ++ l
         ∧ Forall (carries_warning (warning (clo st))) l.
Proof.
  unfold onYieldTimer. destruct st as [c r sg se y t yp tp cs us fx]. cbn.
  destruct se; cbn.
  - split; [done|]. split; [done|]. exists []. by rewrite app_nil_r.
  - split; [|split; [discriminate|]]; unfold resolveRunning; cbn;
      destruct (session _); cbn; try done.
    + eexists [_]. split; [done|]. by repeat constructor.
    + exists []. by rewrite app_nil_r.
Qed.

Lemma handleExit_calls code sg now st :
  clo (handleExit code sg now st) = clo st
  ∧ (settled st = true → calls (handleExit code sg now st) = calls st
                          ∧ settled (handleExit code sg now st) = true)
  ∧ ∃ l, calls (handleExit code sg now st) = calls st ++ l
         ∧ Forall (carries_warning (warning (clo st))) l.
Proof.
  unfold handleExit. destruct st as [c r sgn se y t yp tp cs us fx]. cbn.
  destruct (session _) as [s|]; cbn.
  2:{ split; [done|]. split; [done|]. exists []. by rewrite app_nil_r. }
  destruct (y || backgrounded s); cbn.
  { split; [done|]. split; [done|]. exists []. by rewrite app_nil_r. }
  destruct (negb _); destruct se; cbn; (split; [done|]); (split; [done|]);
    try (exists []; by rewrite app_nil_r);
    (eexists [_]; split; [done|]; by repeat constructor).
Qed.

Lemma onChildError_calls message now st :
  clo (onChildError message now st) = clo st
  ∧ (settled st = true → calls (onChildError message now st) = calls st
                          ∧ settled (onChildError message now st) = true)
  ∧ ∃ l, calls (onChildError message now st) = calls st ++ l
         ∧ Forall (carries_warning (warning (clo st))) l.
Proof.
  unfold onChildError. destruct st as [c r sgn se y t yp tp cs us fx]. cbn.
  destruct se; cbn; (split; [done|]); (split; [done|]).
  - exists []. by rewrite app_nil_r.
  - eexists [_]. split; [done|]. by repeat constructor.
Qed.

Lemma quiet_step_calls st st' :
  quiet st st' →
  clo st' = clo st
  ∧ (settled st = true → calls st' = calls st ∧ settled st' = true)
  ∧ ∃ l, calls st' = calls st ++ l
         ∧ Forall (carries_warning (warning (clo st))) l.
Proof.
  intros (Hc&Hs&_&_&Hcs&_). split; [done|]. split; [intros <-; done|].
  exists []. by rewrite app_nil_r.
Qed.

Lemma step_calls st ev :
  clo (step st ev) = clo st
  ∧ (settled st = true → calls (step st ev) = calls st ∧ settled (step st ev) = true)
  ∧ ∃ l, calls (step st ev) = calls st ++ l
         ∧ Forall (carries_warning (warning (clo st))) l.
Proof.
  assert (∀ st', quiet st st' →
            clo st' = clo st
            ∧ (settled st = true → calls st' = calls st ∧ settled st' = true)
            ∧ ∃ l, calls st' = calls st ++ l
                   ∧ Forall (carries_warning (warning (clo st))) l) as Hq
    by apply quiet_step_calls.
  destruct ev; cbn [step]; repeat case_match;
    eauto using onYieldTimer_calls, handleExit_calls, onChildError_calls with quiet.
Qed.

Lemma clo_run st evs : clo (run st evs) = clo st.
Proof.
  induction evs as [|ev evs IH] using rev_ind; [done|].
  rewrite run_snoc. destruct (step_calls (run st evs) ev) as (->&_). done.
Qed.

Lemma run_carries st evs :
  Forall (carries_warning (warning (clo st))) (calls st) →
  Forall (carries_warning (warning (clo st))) (calls (run st evs)).
Proof.
  intros H. induction evs as [|ev evs IH] using rev_ind; [done|].
  rewrite run_snoc. destruct (step_calls (run st evs) ev) as (_&_&l&->&Hl).
  rewrite clo_run in Hl. by apply Forall_app.
Qed.

(** Who settles *)
Lemma onYieldTimer_settled st :
  is_Some (session st) → settled (onYieldTimer st) = true.
Proof.
  intros [s Hs]. unfold onYieldTimer.
  destruct st as [c r sg se y t yp tp cs us fx]. unfold session in *. cbn in *.
  destruct se; [done|]. unfold resolveRunning, session. cbn.
  unfold markBackgrounded. cbn. rewrite lookup_alter_eq, Hs. reflexivity.
Qed.

Lemma handleExit_settled code sg now st :
  consistent st → settled (handleExit code sg now st) = true.
Proof.
  intros H. pose proof (handleExit_consistent code sg now st H) as [_ _ Hu _].
  destruct (settled (handleExit code sg now st)) eqn:E; [done|].
  destruct (Hu eq_refl) as (_&Hyp&_).
  revert Hyp. unfold handleExit.
  destruct st as [c r sgn se y t yp tp cs us fx]. cbn.
  destruct (session _) as [s|]; cbn; [|done].
  destruct (y || backgrounded s); cbn; [done|].
  destruct (negb _); destruct se; cbn; done.
Qed.

Lemma onChildError_settled message now st :
  settled (onChildError message now st) = true.
Proof. apply settle_settled. Qed.

(** What becomes of the session object *)
Lemma handleExit_session code sg now st :
  session (handleExit code sg now st)
  = set_exited code sg
      (if isSuccess code sg (signal st) (timedOut st) then Completed else Failed)
      now <$> session st.
Proof.
  unfold handleExit. destruct st as [c r sgn se y t yp tp cs us fx].
  unfold session. cbn. unfold markExited. cbn. rewrite lookup_alter_eq.
  destruct (objs r !! sessionId c) as [s|] eqn:Hs; cbn.
  2:{ rewrite lookup_alter_eq, Hs. done. }
  destruct (y || backgrounded _); cbn.
  { rewrite lookup_alter_eq, Hs. done. }
  destruct (negb _); destruct se; cbn; rewrite lookup_alter_eq, Hs; done.
Qed.

Lemma emitUpdate_frame st :
  reg (emitUpdate st) = reg st ∧ clo (emitUpdate st) = clo st.
Proof.
  unfold emitUpdate. destruct (negb _); [done|].
  destruct (session st); [|done]. by destruct st.
Qed.

Lemma onData_session stream str st :
  session (onData stream str st)
  = captured stream str <$> session st.
Proof.
  unfold onData, captured. generalize (chunkString str). intros l. revert st.
  induction l as [|c l IH]; intros st; cbn [foldl].
  - by destruct (session st).
  - rewrite IH. unfold session at 1.
    destruct (emitUpdate_frame
                (with_reg (appendOutput (sessionId (clo st)) stream c) st)) as [-> ->].
    destruct st as [cl r sg se y t yp tp cs us fx]. unfold session. cbn.
    unfold appendOutput. cbn. rewrite lookup_alter_eq.
    by destruct (objs r !! sessionId cl).
Qed.

End Settling.

(** ** The start of a call *)

Section Start.

Lemma fresh_quiet st st' : quiet st st' → fresh st → fresh st'.
Proof.
  intros Hq ((s&Hs&Hb)&Hse&Hy&Hc). pose proof (quiet_session _ _ Hq) as Hbg.
  destruct Hq as (_&Hset&Hyd&_&Hcalls&_). rewrite Hs in Hbg.
  destruct (session st') as [s'|] eqn:Hs'; [|discriminate]. injection Hbg as Hbg.
  split; [|by rewrite Hset, Hyd, Hcalls].
  exists s'. split; [done | congruence].
Qed.

Lemma fresh_arm st : fresh st → consistent (set_yieldPending true st).
Proof.
  intros ((s&Hs&Hb)&Hse&Hy&Hc).
  destruct st as [c r sg se y t yp tp cs us fx]. unfold session in *. cbn in *. subst.
  split; unfold session; cbn; [by eexists | congruence | done | discriminate].
Qed.

Lemma fresh_yield_now st : fresh st → consistent (onYieldNow st).
Proof.
  intros ((s&Hs&Hb)&Hse&Hy&Hc). rewrite onYieldNow_eq. unfold onYieldTimer.
  destruct st as [c r sg se y t yp tp cs us fx]. unfold session in *. cbn in *. subst.
  unfold resolveRunning, session. cbn. unfold markBackgrounded. cbn.
  rewrite lookup_alter_eq, Hs. cbn.
  split; unfold session; cbn; rewrite ?lookup_alter_eq, ?Hs; cbn.
  - by eexists.
  - intros s' [= <-]. by destruct s.
  - discriminate.
  - done.
Qed.

Lemma new_session_id h params : id (new_session h params) = h_uuid h.
Proof. unfold new_session. by destruct (start_transport h params) as [[? ?] ?]. Qed.

Lemma new_session_backgrounded h params : backgrounded (new_session h params) = false.
Proof. unfold new_session. by destruct (start_transport h params) as [[? ?] ?]. Qed.

Lemma new_closure_sessionId defaults h params upd :
  sessionId (new_closure defaults h params upd) = h_uuid h.
Proof. unfold new_closure. by destruct (start_transport h params) as [[? ?] ?]. Qed.

Lemma new_closure_timeout defaults h params upd :
  effectiveTimeout (new_closure defaults h params upd)
  = effectiveTimeout_of defaults params.
Proof. unfold new_closure. by destruct (start_transport h params) as [[? ?] ?]. Qed.

(** The synchronous part of [execute] leaves a consistent call behind,
    whose closure is the one computed from the parameters, and which is
    settled only if it has yielded at once. *)
Lemma bash_execute_pending defaults h params sig upd r st0 :
  bash_execute defaults h params sig upd r = Pending st0 →
  str_empty (b_command params) = false
  ∧ consistent st0
  ∧ clo st0 = new_closure defaults h params upd
  ∧ settled st0 = yielded st0
  ∧ Forall (carries_warning (warning (clo st0))) (calls st0).
Proof.
  unfold bash_execute. destruct (str_empty (b_command params)); [discriminate|].
  set (st1 := mkExec _ _ _ _ _ _ _ _ _ _ _).
  assert (fresh st1) as F1.
  { split; [|done]. exists (new_session h params).
    unfold session. cbn. rewrite new_closure_sessionId, <- (new_session_id h params).
    split; [apply lookup_insert_eq | apply new_session_backgrounded]. }
  set (st2 := match sig with Some true => _ | Some false => _ | None => _ end).
  assert (quiet st1 st2) as Q2.
  { subst st2. destruct sig as [[]|].
    - eapply quiet_trans; [apply (quiet_set_signal Aborted) | apply quiet_onAbort].
    - apply quiet_set_signal.
    - apply quiet_refl. }
  set (st3 := if 0 <? effectiveTimeout (clo st2) then _ else _).
  assert (quiet st2 st3) as Q3.
  { subst st3. destruct (0 <? _); [apply quiet_set_timeoutPending | apply quiet_refl]. }
  pose proof (quiet_trans _ _ _ Q2 Q3) as Q.
  pose proof (fresh_quiet _ _ Q F1) as F3.
  destruct Q as (Hc&_). destruct F3 as (Hs3&Hse3&Hy3&Hc3).
  assert (fresh st3) as F3 by done.
  intros [= <-]. split; [done|].
  destruct (Js.is0 _).
  - split; [by apply fresh_yield_now|].
    destruct (onYieldTimer_calls st3) as (Hclo&_&l&Hl&HF).
    rewrite onYieldNow_eq. split; [by rewrite Hclo, Hc|].
    split.
    + rewrite (onYieldTimer_settled st3) by (destruct Hs3 as (s&->&_); by eexists).
      clear -Hse3. unfold onYieldTimer.
      destruct st3 as [c r' sg se y t yp tp cs us fx]. cbn in *. subst.
      unfold resolveRunning. cbn. by destruct (session _).
    + rewrite Hl, Hc3, Hclo. done.
  - split; [by apply fresh_arm|].
    clear -Hc Hse3 Hy3 Hc3.
    destruct st3 as [c r' sg se y t yp tp cs us fx]. cbn in *. subst. done.
Qed.


End Start.

(** ** What a data event leaves in the session *)

Section Capture.

Lemma str_take_nonpos n s : n <= 0 → str_take n s = "".
Proof.
  intros H. destruct s as [|c r]; [done|]. cbn [str_take].
  destruct (0 <? n) eqn:E; [apply Z.ltb_lt in E; lia | done].
Qed.

Lemma str_take_append n a b :
  str_take n (a +:+ b)
  = str_take n a +:+ str_take (n - Z.of_nat (String.length (str_take n a))) b.
Proof.
  revert n. induction a as [|c a IH]; intros n.
  - change (str_take n b = str_take (n - 0) b). by rewrite Z.sub_0_r.
  - rewrite string_append_cons. cbn [str_take].
    destruct (0 <? n) eqn:E.
    + replace (n - Z.of_nat (String.length (String c (str_take (n - 1) a))))
        with (n - 1 - Z.of_nat (String.length (str_take (n - 1) a)))
        by (cbn [String.length]; lia).
      by rewrite string_append_cons, IH.
    + apply Z.ltb_ge in E. change ("" = str_take (n - 0) b).
      by rewrite str_take_nonpos by lia.
Qed.

Lemma join_empty_snoc l x : join "" (l ++ [x]) = join "" l +:+ x.
Proof.
  induction l as [|y l IH]; [done|].
  change ((y :: l) ++ [x]) with (y :: (l ++ [x])).
  by rewrite !join_empty_cons, IH, string_app_assoc.
Qed.

Lemma length_take_le n s :
  (String.length (str_take n s) <= String.length s)%nat.
Proof. pose proof (length_str_take n s). lia. Qed.

Lemma takes_append_chunk stream chunk s :
  exited s = false → takes stream chunk s (append_chunk stream chunk s).
Proof.
  intros He. unfold takes, append_chunk. rewrite He.
  destruct s as [i c ch pt p m t0 d cap tot pout perr agg tl ex ec es tr bg stt en].
  cbn [maxOutputChars aggregated pending other_stream pendingStdout pendingStderr].
  destruct stream.
  - exists (pout ++ [str_take (cap - Z.of_nat (String.length agg)) chunk]), perr.
    split; [done|]. split; [apply join_empty_snoc | done].
  - exists pout, (perr ++ [str_take (cap - Z.of_nat (String.length agg)) chunk]).
    split; [done|]. split; [apply join_empty_snoc | done].
Qed.

Lemma takes_trans stream c d s s1 s2 :
  takes stream c s s1 → takes stream d s1 s2 → takes stream (c +:+ d) s s2.
Proof.
  intros (p1&q1&->&Hj1&Ho1) (p2&q2&->&Hj2&Ho2). unfold takes.
  destruct s as [i c0 ch pt p m t0 d0 cap tot pout perr agg tl ex ec es tr bg stt en].
  cbn [received maxOutputChars aggregated pending other_stream pendingStdout
       pendingStderr] in *.
  set (k1 := str_take (cap - Z.of_nat (String.length agg)) c) in *.
  set (k2 := str_take (cap - Z.of_nat (String.length (agg +:+ k1))) d) in *.
  assert (str_take (cap - Z.of_nat (String.length agg)) (c +:+ d) = k1 +:+ k2) as Hk.
  { rewrite str_take_append. fold k1. subst k2. do 2 f_equal.
    rewrite length_append. lia. }
  exists p2, q2. rewrite Hk. split; [|split].
  - rewrite <- !string_app_assoc. f_equal.
    + rewrite length_append. lia.
    + rewrite <- orb_assoc. f_equal. rewrite !length_append.
      assert (String.length k1 <= String.length c)%nat by apply length_take_le.
      assert (String.length k2 <= String.length d)%nat by apply length_take_le.
      destruct (Nat.ltb_spec (String.length k1) (String.length c));
        destruct (Nat.ltb_spec (String.length k2) (String.length d));
        destruct (Nat.ltb_spec (String.length k1 + String.length k2)
                    (String.length c + String.length d)); cbn; try done; lia.
  - destruct stream; cbn [pending other_stream pendingStdout pendingStderr] in *;
      by rewrite Hj2, Hj1, string_app_assoc.
  - destruct stream; cbn [pending other_stream pendingStdout pendingStderr] in *;
      congruence.
Qed.

Lemma takes_exited stream data s s' : takes stream data s s' → exited s' = exited s.
Proof. intros (p&q&->&_). by destruct s. Qed.

Lemma takes_chunks stream chunk chunks s :
  exited s = false →
  takes stream (join "" (chunk :: chunks)) s
    (foldl (λ s c, append_chunk stream c s) s (chunk :: chunks)).
Proof.
  revert chunk s. induction chunks as [|c2 l IH]; intros chunk s He.
  - by apply takes_append_chunk.
  - rewrite join_empty_cons. cbn [foldl].
    pose proof (takes_append_chunk stream chunk s He) as H1.
    eapply takes_trans; [exact H1|]. apply IH.
    by rewrite (takes_exited _ _ _ _ H1).
Qed.

Lemma exited_chunks stream chunks s :
  exited s = true → foldl (λ s c, append_chunk stream c s) s chunks = s.
Proof.
  intros He. induction chunks as [|c l IH]; [done|]. cbn [foldl].
  unfold append_chunk at 2. by rewrite He.
Qed.

(** The chunks a data listener hands to the registry one by one leave the
    session as the text taken in one piece does. *)
Lemma receives_captured stream data s : receives stream data s (captured stream data s).
Proof.
  unfold receives, captured. destruct (exited s) eqn:He; cbn [orb].
  { by apply exited_chunks. }
  destruct (str_empty data) eqn:Ed; [by destruct data|].
  destruct (chunk_loop_spec (String.length data) CHUNK_LIMIT data) as (Hj&_);
    [done | lia |].
  fold (chunkString data) in Hj.
  destruct (chunkString data) as [|c l] eqn:Ec; [by destruct data|].
  rewrite <- Hj. by apply takes_chunks.
Qed.

End Capture.

(** ** The timers and the cancel signal along a run *)

Section Timers.

Lemma same_timers_refl st : same_timers st st.
Proof. done. Qed.

Lemma same_timers_trans st1 st2 st3 :
  same_timers st1 st2 → same_timers st2 st3 → same_timers st1 st3.
Proof. intros (?&?&?&?) (?&?&?&?). split_and!; congruence. Qed.

Lemma timers_emitUpdate st : same_timers st (emitUpdate st).
Proof.
  unfold emitUpdate. destruct (negb _); [done|].
  destruct (session st); [|done]. by destruct st.
Qed.

Lemma timers_onData stream str st : same_timers st (onData stream str st).
Proof.
  unfold onData. generalize (chunkString str) as l. intros l. revert st.
  induction l as [|c l IH]; intros st; [done|].
  cbn [foldl]. eapply same_timers_trans; [|apply IH].
  eapply same_timers_trans; [|apply timers_emitUpdate]. by destruct st.
Qed.

Lemma timers_onYieldTimer st : same_timers st (onYieldTimer st).
Proof.
  unfold onYieldTimer, resolveRunning. destruct st as [c r sg se y t yp tp cs us fx].
  cbn. destruct se; cbn; [done|]. by destruct (session _).
Qed.

Lemma timers_onAbort st : same_timers st (onAbort st).
Proof. unfold onAbort. destruct (session st); [|done]. by destruct st. Qed.

Lemma timers_handleExit code sg now st :
  clo (handleExit code sg now st) = clo st
  ∧ timedOut (handleExit code sg now st) = timedOut st
  ∧ timeoutPending (handleExit code sg now st) = false
  ∧ signal (handleExit code sg now st) = signal st.
Proof.
  unfold handleExit. destruct st as [c r sgn se y t yp tp cs us fx]. cbn.
  destruct (session _) as [s|]; cbn; [|done].
  destruct (y || backgrounded s); cbn; [done|].
  destruct (negb _); destruct se; cbn; done.
Qed.

Lemma timers_onChildError message now st :
  clo (onChildError message now st) = clo st
  ∧ timedOut (onChildError message now st) = timedOut st
  ∧ timeoutPending (onChildError message now st) = false
  ∧ signal (onChildError message now st) = signal st.
Proof.
  unfold onChildError, settle. destruct st as [c r sgn se y t yp tp cs us fx]. cbn.
  by destruct se.
Qed.

Lemma timers_onTimeout st :
  clo (onTimeout st) = clo st ∧ timedOut (onTimeout st) = true
  ∧ timeoutPending (onTimeout st) = false ∧ signal (onTimeout st) = signal st.
Proof.
  unfold onTimeout.
  destruct (timers_onAbort (set_timedOut (set_timeoutPending false st)))
    as (->&->&->&->). by destruct st.
Qed.

Lemma timers_abort st :
  clo (onAbort (set_signal Aborted st)) = clo st
  ∧ timedOut (onAbort (set_signal Aborted st)) = timedOut st
  ∧ timeoutPending (onAbort (set_signal Aborted st)) = timeoutPending st
  ∧ signal (onAbort (set_signal Aborted st)) = Aborted.
Proof.
  destruct (timers_onAbort (set_signal Aborted st)) as (->&->&->&->). by destruct st.
Qed.

(** What one event does to the timeout and to the cancel signal *)
Lemma step_timers st ev :
  clo (step st ev) = clo st
  ∧ timedOut (step st ev) = timedOut st || (is_timeout ev && timeoutPending st)
  ∧ timeoutPending (step st ev)
    = timeoutPending st && negb (is_timeout ev) && negb (terminal ev && heard st ev)
  ∧ signal (step st ev)
    = match signal st with
      | Listening => if is_abort ev then Aborted else Listening
      | sg => sg
      end.
Proof.
  assert (∀ st', same_timers st st' →
            clo st' = clo st ∧ timedOut st' = timedOut st || false
            ∧ timeoutPending st' = timeoutPending st && true && true
            ∧ signal st' = match signal st with
                           | Listening => Listening
                           | sg => sg
                           end) as Hsame.
  { intros st' (->&->&->&->). rewrite orb_false_r, !andb_true_r.
    by destruct (signal st). }
  destruct ev as [d|d|d| | | |xc xs now|message now|xc xs now|now params];
    cbn [step is_timeout is_abort terminal heard andb negb].
  - destruct (c_child (clo st)); apply Hsame; [apply timers_onData | done].
  - destruct (c_child (clo st)); apply Hsame; [apply timers_onData | done].
  - destruct (c_pty (clo st)); apply Hsame; [apply timers_onData | done].
  - destruct (yieldPending st); apply Hsame; [apply timers_onYieldTimer | done].
  - destruct (timeoutPending st) eqn:E.
    + destruct (timers_onTimeout st) as (->&->&->&->).
      rewrite orb_true_r. by destruct (signal st).
    + rewrite E, orb_false_r. by destruct (signal st).
  - destruct (signal st) eqn:E; rewrite ?E, ?orb_false_r, ?andb_true_r; try done.
    by destruct (timers_abort st) as (->&->&->&->).
  - destruct (c_child (clo st)); cbn [negb].
    + destruct (timers_handleExit xc (SigName <$> xs) now st) as (->&->&->&->).
      rewrite orb_false_r, andb_false_r. by destruct (signal st).
    + by apply Hsame.
  - destruct (c_child (clo st)); cbn [negb].
    + destruct (timers_onChildError message now st) as (->&->&->&->).
      rewrite orb_false_r, andb_false_r. by destruct (signal st).
    + by apply Hsame.
  - destruct (c_pty (clo st)); cbn [negb].
    + destruct (timers_handleExit xc (SigNum <$> xs) now st) as (->&->&->&->).
      rewrite orb_false_r, andb_false_r. by destruct (signal st).
    + by apply Hsame.
  - apply Hsame. by destruct st.
Qed.

Lemma timer_goes_off_clo st st' evs :
  clo st' = clo st → timer_goes_off st' evs = timer_goes_off st evs.
Proof.
  intros H. induction evs as [|ev evs IH]; [done|]. cbn [timer_goes_off].
  rewrite IH. by destruct ev; cbn [heard]; rewrite ?H.
Qed.

Lemma timedOut_run st evs :
  timedOut (run st evs)
  = timedOut st || (timeoutPending st && timer_goes_off st evs).
Proof.
  revert st. induction evs as [|ev evs IH]; intros st.
  { cbn. by rewrite andb_false_r, orb_false_r. }
  change (run st (ev :: evs)) with (run (step st ev) evs). rewrite IH.
  destruct (step_timers st ev) as (Hc&->&->&_).
  rewrite (timer_goes_off_clo st (step st ev) evs Hc). cbn [timer_goes_off].
  destruct (timedOut st), (timeoutPending st), (is_timeout ev),
    (terminal ev && heard st ev), (timer_goes_off st evs); done.
Qed.

Lemma signal_run st evs :
  signal (run st evs)
  = match signal st with
    | Listening => if existsb is_abort evs then Aborted else Listening
    | sg => sg
    end.
Proof.
  revert st. induction evs as [|ev evs IH]; intros st.
  { cbn. by destruct (signal st). }
  change (run st (ev :: evs)) with (run (step st ev) evs). rewrite IH.
  destruct (step_timers st ev) as (_&_&_&->). cbn [existsb].
  destruct (signal st), (is_abort ev), (existsb is_abort evs); done.
Qed.

(** The timers and the cancel signal as [execute] leaves them *)
Lemma bash_execute_timers defaults h params sig upd r st0 :
  bash_execute defaults h params sig upd r = Pending st0 →
  timedOut st0 = false
  ∧ timeoutPending st0 = (0 <? effectiveTimeout_of defaults params)
  ∧ signal st0 = match sig with
                 | Some true => Aborted
                 | Some false => Listening
                 | None => NoSignal
                 end.
Proof.
  unfold bash_execute. destruct (str_empty (b_command params)); [discriminate|].
  set (st1 := mkExec _ _ _ _ _ _ _ _ _ _ _).
  set (st2 := match sig with Some true => _ | Some false => _ | None => _ end).
  assert (clo st2 = clo st1 ∧ timedOut st2 = false ∧ timeoutPending st2 = false
          ∧ signal st2 = match sig with
                         | Some true => Aborted
                         | Some false => Listening
                         | None => NoSignal
                         end) as (Hc2&Ht2&Hp2&Hs2).
  { subst st2. destruct sig as [[]|]; [|done..].
    destruct (timers_abort st1) as (->&->&->&->). done. }
  set (st3 := if 0 <? effectiveTimeout (clo st2) then _ else _).
  assert (timedOut st3 = false
          ∧ timeoutPending st3 = (0 <? effectiveTimeout_of defaults params)
          ∧ signal st3 = signal st2) as (Ht3&Hp3&Hs3).
  { subst st3. rewrite Hc2. subst st1. cbn [clo]. rewrite new_closure_timeout.
    destruct (0 <? effectiveTimeout_of defaults params); [|done].
    by destruct st2. }
  intros [= <-]. destruct (Js.is0 _).
  - rewrite onYieldNow_eq. destruct (timers_onYieldTimer st3) as (_&->&->&->).
    by rewrite Hs3.
  - rewrite <- Hs2, <- Hs3. by destruct st3.
Qed.

(** The flags of a call say what has happened: [timedOut] is set exactly
    when the timeout has fired, and the cancel signal reads aborted exactly
    when it has been raised. *)
Lemma flags_run defaults h params sig upd r st0 evs :
  bash_execute defaults h params sig upd r = Pending st0 →
  timedOut (run st0 evs) = timeout_fired (effectiveTimeout_of defaults params) st0 evs
  ∧ is_aborted (signal (run st0 evs)) = abort_raised sig evs.
Proof.
  intros H. destruct (bash_execute_timers _ _ _ _ _ _ _ H) as (Ht&Hp&Hs).
  rewrite timedOut_run, signal_run, Ht, Hp, Hs. split; [done|].
  destruct sig as [[]|]; cbn; [done | | done]. by destruct (existsb _ _).
Qed.

End Timers.

(** ** The executor *)


Lemma isSuccess_iff code exitSignal sg timedOut :
  isSuccess code exitSignal sg timedOut = true ↔
  code = Some 0 ∧ exitSignal = None ∧ sg ≠ Aborted ∧ timedOut = false.
Proof.
  unfold isSuccess. rewrite !andb_true_iff, !negb_true_iff. split.
  - intros (((Hc&Hs)&Ha)&Ht). split_and!; [| | |done].
    + destruct code as [z|]; [|done]. cbn in Hc. apply Z.eqb_eq in Hc. by subst.
    + by destruct exitSignal.
    + by destruct sg.
  - intros (->&->&Ha&->). split_and!; try done. by destruct sg.
Qed.

Lemma status_set_exited code sg stt now s :
  status (set_exited code sg stt now s) = stt
  ∧ exited (set_exited code sg stt now s) = true.
Proof. by destruct s. Qed.




(** C5.  When the process of a call exits, the status recorded in its
    session is [completed] if and only if the exit code is 0, the exit
    signal is null, the external cancel signal has not been raised (neither
    before the call nor during the run) and the timeout has not fired (the
    call has no timer, or the timer has not gone off before the exit); in
    every other case it is [failed]. *)
Theorem exit_status_recorded (defaults : BashToolDefaults) (h : Host)
    (params : BashParams) (sig : option bool) (upd : bool) (r : Registry)
    (st0 : Exec) (evs : list Event)
    (code : option Z) (exitSignal : option Signal) (now : Z) :
  bash_execute defaults h params sig upd r = Pending st0 →
  ∃ s', session (handleExit code exitSignal now (run st0 evs)) = Some s'
        ∧ exited s' = true
        ∧ (status s' = Completed ↔
           code = Some 0 ∧ exitSignal = None
           ∧ abort_raised sig evs = false
           ∧ timeout_fired (effectiveTimeout_of defaults params) st0 evs = false)
        ∧ (status s' ≠ Completed → status s' = Failed).
Proof.
  intros Hstart.
  destruct (bash_execute_pending _ _ _ _ _ _ _ Hstart) as (_&Hc0&_).
  destruct (run_consistent st0 evs Hc0) as [[s Hs] _ _ _].
  destruct (flags_run _ _ _ _ _ _ _ evs Hstart) as [Ht Ha].
  rewrite handleExit_session, Hs. cbn [fmap option_fmap option_map].
  eexists. split; [done|].
  match goal with
  | |- context [set_exited ?c ?g ?stt ?n ?s] =>
      destruct (status_set_exited c g stt n s) as [-> ->]
  end.
  split; [done|]. rewrite <- Ht, <- Ha.
  assert (is_aborted (signal (run st0 evs)) = false ↔ signal (run st0 evs) ≠ Aborted)
    as -> by (by destruct (signal (run st0 evs))).
  rewrite <- isSuccess_iff.
  by destruct (isSuccess _ _ _ _).
Qed.

(** C2.  A call is settled at most once: of the calls of [resolve] (still
    running, or success) and [reject] at most one is ever made, and it is
    made exactly when the call becomes settled.  Once the call is settled no
    event whatever adds a call.  A call that is not settled yet has its
    yield timer pending, and the firing of that timer settles it, as does
    every exit or error of its process: so each call gets its one
    settlement.  Settled or not, a data event is captured into the
    session: unless the session has exited or the text is empty, the text
    is added to the aggregated output as far as the cap leaves room, the
    part kept is queued in the pending buffer of its stream, the tail, the
    count of characters and the truncation mark follow; and an exit is
    recorded in the session. *)
Theorem single_settlement (defaults : BashToolDefaults) (h : Host)
    (params : BashParams) (sig : option bool) (upd : bool) (r : Registry)
    (st0 : Exec) (evs : list Event) :
  bash_execute defaults h params sig upd r = Pending st0 →
  let st := run st0 evs in
  (length (calls st) ≤ 1)%nat
  ∧ (settled st = true ↔ length (calls st) = 1%nat)
  ∧ (settled st = true →
     ∀ ev, calls (step st ev) = calls st ∧ settled (step st ev) = true)
  ∧ (settled st = false →
     yieldPending st = true ∧ settled (step st EvYieldTimer) = true)
  ∧ (∀ ev, terminal ev = true → heard st ev = true → settled (step st ev) = true)
  ∧ (∀ ev stream data,
       data_of ev = Some (stream, data) → heard st ev = true →
       ∃ s s', session st = Some s ∧ session (step st ev) = Some s'
               ∧ receives stream data s s')
  ∧ (∀ ev, terminal ev = true → heard st ev = true →
       exited <$> session (step st ev) = Some true).
Proof.
  intros Hstart st.
  destruct (bash_execute_pending _ _ _ _ _ _ _ Hstart) as (_&Hc0&_).
  pose proof (run_consistent st0 evs Hc0) as Hc. fold st in Hc.
  pose proof Hc as [Hs Hb Hu Hse].
  split_and!.
  - destruct (settled st); [rewrite Hse by done; lia|].
    destruct (Hu eq_refl) as (->&_). cbn. lia.
  - split; [done|]. destruct (settled st); [done|].
    destruct (Hu eq_refl) as (->&_). discriminate.
  - intros Hset ev. destruct (step_calls st ev) as (_&H&_). by apply H.
  - intros Hset. destruct (Hu Hset) as (_&Hyp&_). split; [done|].
    cbn [step]. rewrite Hyp. by apply onYieldTimer_settled.
  - intros ev Ht Hh. destruct ev; try discriminate Ht; cbn [step heard] in *;
      rewrite Hh; [by apply handleExit_settled | apply onChildError_settled
                  | by apply handleExit_settled].
  - intros ev stream data Hd Hh. destruct Hs as [s Hs].
    exists s, (captured stream data s). split; [done|].
    split; [|apply receives_captured].
    destruct ev; try discriminate Hd; cbn [step heard data_of] in *;
      rewrite Hh; injection Hd as <- <-; by rewrite onData_session, Hs.
  - intros ev Ht Hh. destruct Hs as [s Hs].
    destruct ev; try discriminate Ht; cbn [step heard] in *; rewrite Hh.
    + rewrite handleExit_session, Hs. cbn. by destruct s.
    + unfold onChildError. rewrite session_settle.
      rewrite (session_markExited None None Failed now
                 (set_timeoutPending false (set_yieldPending false st))).
      replace (session (set_timeoutPending false (set_yieldPending false st)))
        with (session st) by (by destruct st).
      rewrite Hs. cbn. by destruct s.
    + rewrite handleExit_session, Hs. cbn. by destruct s.
Qed.

(** ** The fallback from the PTY to pipes *)

Lemma warningText_some w body :
  str_empty w = false → warningText (Some w) +:+ body = w +:+ nl +:+ nl +:+ body.
Proof. unfold warningText. intros ->. by rewrite !string_app_assoc. Qed.

Lemma pty_warning_shape what error :
  ∃ mid, pty_warning what error
         = "Warning: " +:+ mid +:+ "falling back to pipe mode.".
Proof.
  exists ("node-pty failed to " +:+ what +:+ formatPtyError error +:+ "; ").
  unfold pty_warning. rewrite !string_app_assoc. reflexivity.
Qed.

Lemma reg_quiet_start st :
  reg (onAbort st) = reg st ∧ session (onAbort st) = session st.
Proof.
  unfold onAbort. destruct (session st) eqn:E; [|done]. by destruct st.
Qed.

Lemma bash_execute_starts defaults h params sig upd r :
  b_command params ≠ "" → ∃ st0, bash_execute defaults h params sig upd r = Pending st0.
Proof.
  intros H. unfold bash_execute.
  destruct (b_command params); [done|]. cbn [str_empty]. by eexists.
Qed.

Lemma bash_execute_session defaults h params sig upd r st0 :
  bash_execute defaults h params sig upd r = Pending st0 →
  session st0
  = Some (if yielded st0 then set_backgrounded (new_session h params)
          else new_session h params).
Proof.
  unfold bash_execute. destruct (str_empty (b_command params)); [discriminate|].
  set (st1 := mkExec _ _ _ _ _ _ _ _ _ _ _).
  assert (session st1 = Some (new_session h params)) as S1.
  { unfold session. cbn. rewrite new_closure_sessionId, <- (new_session_id h params).
    apply lookup_insert_eq. }
  set (st2 := match sig with Some true => _ | Some false => _ | None => _ end).
  assert (session st2 = Some (new_session h params)
          ∧ settled st2 = false ∧ yielded st2 = false) as (S2&E2&Y2).
  { subst st2. destruct sig as [[]|]; [|done..].
    destruct (reg_quiet_start (set_signal Aborted st1)) as [_ ->].
    split; [done|]. unfold onAbort. by destruct (session _). }
  set (st3 := if 0 <? effectiveTimeout (clo st2) then _ else _).
  assert (session st3 = Some (new_session h params)
          ∧ settled st3 = false ∧ yielded st3 = false) as (S3&E3&Y3).
  { subst st3. destruct (0 <? _); [|done]. by destruct st2. }
  intros [= <-]. destruct (Js.is0 _).
  - rewrite onYieldNow_eq. unfold onYieldTimer.
    destruct st3 as [c r' sg se y t yp tp cs us fx]. unfold session in *. cbn in *.
    subst. unfold resolveRunning, session. cbn. unfold markBackgrounded. cbn.
    rewrite lookup_alter_eq, S3. cbn. by rewrite lookup_alter_eq, S3.
  - destruct st3 as [c r' sg se y t yp tp cs us fx]. unfold session in *. cbn in *.
    by subst.
Qed.

Lemma app_one_neq {A} (l : list A) x : l ≠ l ++ [x].
Proof.
  intros H. apply (f_equal length) in H. rewrite length_app in H. cbn in H. lia.
Qed.

(** The result an exit resolves a call with shows the trimmed output of
    the session. *)
Lemma handleExit_resolves code sg now st s res :
  session st = Some s →
  calls (handleExit code sg now st) = calls st ++ [Resolved res] →
  result_body res = str_or (trim (aggregated s)) "(no output)".
Proof.
  unfold handleExit. destruct st as [c r sgn se y t yp tp cs us fx].
  unfold session. cbn. intros Hs. unfold markExited. cbn.
  rewrite lookup_alter_eq, Hs. cbn.
  replace (aggregated (set_exited code sg
             (if isSuccess code sg sgn t then Completed else Failed) now s))
    with (aggregated s) by (by destruct s).
  destruct (y || backgrounded _); cbn; [intros H; destruct (app_one_neq _ _ H)|].
  destruct (negb _); destruct se; cbn; intros H.
  - destruct (app_one_neq _ _ H).
  - apply app_inv_head in H. discriminate H.
  - destruct (app_one_neq _ _ H).
  - apply app_inv_head in H. injection H as <-. reflexivity.
Qed.

(** C8, as amended.  When a call asks for a PTY and the PTY backend fails
    to load or to spawn, the call records a warning that begins with
    [Warning: ] and ends with [falling back to pipe mode.]; the command is
    spawned with pipes; and whenever the call resolves, the text of its
    result is that warning, a blank line, and then the body of the result:
    the still-running notice when the call yields, the trimmed output of the
    command (or [(no output)]) when an exit resolves it. *)
Theorem pty_fallback_warns (defaults : BashToolDefaults) (h : Host)
    (params : BashParams) (sig : option bool) (upd : bool) (r : Registry)
    (error : JsErr) :
  b_command params ≠ "" →
  b_stdinMode params = Some Pty →
  h_ptyLoad h = PtyLoadFailed error
  ∨ (h_ptyLoad h = PtyLoaded ∧ h_ptySpawn h = PtySpawnThrew error) →
  ∃ st0 w mid s,
    bash_execute defaults h params sig upd r = Pending st0
    ∧ warning (clo st0) = Some w
    ∧ w = "Warning: " +:+ mid +:+ "falling back to pipe mode."
    ∧ session st0 = Some s ∧ stdinMode s = Pipe
    ∧ child s = Some (mkChild (h_childPid h)) ∧ pty s = None
    ∧ c_child (clo st0) = true ∧ c_pty (clo st0) = false
    ∧ (∀ evs res,
         outcome (run st0 evs) = Some (Resolved res) →
         b_text res = w +:+ nl +:+ nl +:+ result_body res)
    ∧ (∀ evs code exitSignal now s' res,
         session (run st0 evs) = Some s' →
         calls (handleExit code exitSignal now (run st0 evs))
         = calls (run st0 evs) ++ [Resolved res] →
         result_body res = str_or (trim (aggregated s')) "(no output)").
Proof.
  intros Hcmd Hmode Hfail.
  destruct (bash_execute_starts defaults h params sig upd r Hcmd) as [st0 Hstart].
  exists st0.
  destruct (bash_execute_pending _ _ _ _ _ _ _ Hstart) as (_&_&Hclo&_&Hcar).
  pose proof (bash_execute_session _ _ _ _ _ _ _ Hstart) as Hsess.
  assert (∃ what, start_transport h params = (Pipe, Some (pty_warning what error), None))
    as [what Htr].
  { unfold start_transport. rewrite Hmode.
    destruct Hfail as [-> | [-> ->]]; eauto. }
  destruct (pty_warning_shape what error) as [mid Hmid].
  exists (pty_warning what error), mid. eexists.
  assert (warning (clo st0) = Some (pty_warning what error)) as Hw.
  { rewrite Hclo. unfold new_closure. by rewrite Htr. }
  split; [exact Hstart|]. split; [done|]. split; [done|]. split; [exact Hsess|].
  assert (∀ s, (s = new_session h params ∨ s = set_backgrounded (new_session h params)) →
               stdinMode s = Pipe ∧ child s = Some (mkChild (h_childPid h)) ∧ pty s = None)
    as Hshape.
  { intros s [-> | ->]; unfold new_session; by rewrite Htr. }
  destruct (Hshape (if yielded st0 then set_backgrounded (new_session h params)
                    else new_session h params)) as (?&?&?);
    [destruct (yielded st0); auto|].
  split; [done|]. split; [done|]. split; [done|].
  split; [rewrite Hclo; unfold new_closure; by rewrite Htr|].
  split; [rewrite Hclo; unfold new_closure; by rewrite Htr|].
  split; [|intros evs code sg now s' res; apply handleExit_resolves].
  intros evs res Hout.
  pose proof (run_carries st0 evs Hcar) as HF. rewrite Hw in HF.
  unfold outcome in Hout. destruct (calls (run st0 evs)) as [|x l]; [discriminate|].
  injection Hout as ->. apply Forall_cons in HF as [HF _]. cbn in HF.
  rewrite HF. apply warningText_some. by rewrite Hmid.
Qed.

(** C4, as amended.  A call of the [bash] tool whose command is the empty
    string is rejected with an error that carries the explanatory text
    [Provide a command to start.]; nothing is spawned and no session is
    registered.  No result object is returned. *)
Theorem empty_command_throws (defaults : BashToolDefaults) (h : Host)
    (params : BashParams) (sig : option bool) (upd : bool) (r : Registry) :
  b_command params = "" →
  bash_execute defaults h params sig upd r = Threw "Provide a command to start.".
Proof. intros H. unfold bash_execute. by rewrite H. Qed.

(** ** The controller *)

Lemma remove_live now sid r s :
  getSession r sid = Some s →
  process_remove now sid r
  = mkProcOut
      (mkProcResult ("Removed session " +:+ sid +:+ ".")
         (mkDetails Failed None None None None None None None (deriveSessionName (command s))))
      (markExited sid None (Some (SigName "SIGKILL")) Failed now r)
      (killSession s).
Proof. unfold process_remove. by intros ->. Qed.

Lemma remove_finished now sid r f :
  getSession r sid = None → getFinishedSession r sid = Some f →
  o_registry (process_remove now sid r) = deleteSession sid r
  ∧ getFinishedSession (o_registry (process_remove now sid r)) sid = None.
Proof.
  unfold process_remove. intros -> ->. cbn. split; [done|].
  unfold getFinishedSession, deleteSession. cbn.
  case_decide as Hin; [|done].
  apply elem_of_difference in Hin as [_ Hin]. by destruct Hin; apply elem_of_singleton.
Qed.

Lemma remove_unknown now sid r :
  getSession r sid = None → getFinishedSession r sid = None →
  process_remove now sid r = mkProcOut (failure ("No session found for " +:+ sid)) r [].
Proof. unfold process_remove. by intros -> ->. Qed.

(** After [markExited] a session that was live and had not exited is in
    the finished set. *)
Lemma markExited_moves i code sg stt now r s :
  getSession r i = Some s → exited s = false →
  getSession (markExited i code sg stt now r) i = None
  ∧ getFinishedSession (markExited i code sg stt now r) i
    = Some (set_exited code sg stt now s).
Proof.
  unfold getSession, getFinishedSession, markExited.
  case_decide as Hl; [|done]. intros Hs Hex. cbn. rewrite Hs, Hex. cbn.
  split.
  - case_decide as Hin; [|done].
    apply elem_of_difference in Hin as [_ Hin]. by destruct Hin; apply elem_of_singleton.
  - case_decide as Hin; [by rewrite lookup_alter_eq, Hs|].
    destruct Hin. apply elem_of_union_l. by apply elem_of_singleton.
Qed.

(** C3.  The [remove] action on a live session: the process tree is
    killed and the result says [Removed session], but the session is not
    deleted from the registry; it is marked as exited and so moved to the
    finished set, where a second [remove] finds and deletes it. *)
Theorem remove_live_leaves_session :
  (backgrounded <$> getSession Sample.sleeping "s1" = Some true)
  ∧ let out := process_execute 2000 (Sample.remove "s1") Sample.sleeping in
    p_text (o_result out) = "Removed session s1."
    ∧ o_effects out = [KillProcessTree 77]
    ∧ getSession (o_registry out) "s1" = None
    ∧ status <$> getFinishedSession (o_registry out) "s1" = Some Failed
    ∧ let again := process_execute 3000 (Sample.remove "s1") (o_registry out) in
      p_text (o_result again) = "Removed session s1."
      ∧ getSession (o_registry again) "s1" = None
      ∧ getFinishedSession (o_registry again) "s1" = None.
Proof. vm_compute. repeat split. Qed.

(** C6, as amended.  A [poll] action on a live session that has not been
    backgrounded returns a failure result whose text says so, and leaves the
    registry as it was: no pending buffer is drained and no session
    changes. *)
Theorem poll_before_backgrounding (now : Z) (r : Registry) (sid : string)
    (s : Session) (off lim : option Js.num) :
  str_empty sid = false →
  getSession r sid = Some s →
  backgrounded s = false →
  process_execute now (mkProcParams Poll (Some sid) off lim) r
  = mkProcOut (failure ("Session " +:+ sid +:+ " is not backgrounded.")) r [].
Proof.
  intros Hsid Hs Hb. unfold process_execute. cbn. rewrite Hsid.
  unfold process_poll. by rewrite Hs, Hb.
Qed.

(** ** The claims of the specification that the code does not meet, each
    at one input *)


(** C4 as stated fails: on an empty command [execute] throws; there is no
    call left that could resolve with a failure result. *)
Lemma empty_command_no_result :
  bash_execute Sample.defaults Sample.host Sample.nothing None false emptyRegistry
  = Threw "Provide a command to start."
  ∧ ¬ ∃ st, bash_execute Sample.defaults Sample.host Sample.nothing None false
              emptyRegistry = Pending st.
Proof. split; [reflexivity|]. intros [st H]. discriminate H. Qed.

(** C6 as stated fails: a session that ran to its end in the foreground
    was never backgrounded, and a [poll] on it reports its exit with status
    [completed]. *)
Lemma poll_finished_never_backgrounded :
  getSession Sample.echo_done "s1" = None
  ∧ backgrounded <$> getFinishedSession Sample.echo_done "s1" = Some false
  ∧ let out := process_execute 2000 (Sample.poll "s1") Sample.echo_done in
    d_status (p_details (o_result out)) = Completed
    ∧ d_status (p_details (o_result out)) ≠ Failed
    ∧ p_text (o_result out) = "hi
" +:+ nl +:+ nl +:+ "Process exited with code 0.".
Proof. vm_compute. repeat split. discriminate. Qed.

(** C7 as stated fails: on a live session that has not been backgrounded
    a [log] action with a limit of one line returns a failure result, not
    the last line, and reports no totals.  On a session that is read, a
    negative offset reads from the first line (no line has an index from -1
    up to 0), and an empty slice is shown as a placeholder. *)
Lemma log_before_backgrounding :
  getSession Sample.two_lines_live "s1" = Some Sample.two_lines_session
  ∧ (let res := process_log "s1" None (Some (Js.of_Z 1)) Sample.two_lines_live in
     res = failure "Session s1 is not backgrounded."
     ∧ p_text res ≠ "b"
     ∧ d_totalLines (p_details res) = None
     ∧ d_totalChars (p_details res) = None)
  ∧ log_target Sample.echo_done "s1" = Some Sample.echo_session
  ∧ p_text (process_log "s1" (Some (Js.of_Z (-1))) (Some (Js.of_Z 1)) Sample.echo_done)
    = "hi"
  ∧ p_text (process_log "s1" None (Some (Js.of_Z 0)) Sample.echo_done)
    = "(no output recorded)".
Proof. vm_compute. repeat split. discriminate. Qed.

(** C8 as stated fails: after the fallback, a call that yields resolves
    with the warning followed by the still-running notice, not by output of
    the command; and a call whose command fails is rejected with a message
    that does not carry the warning. *)
Lemma pty_fallback_without_output :
  (∃ res,
     outcome (run (Sample.started Sample.host_no_pty Sample.sleep_bg_pty)
                [EvStdout "hi
"; EvChildExit (Some 0) None 1005])
     = Some (Resolved res)
     ∧ b_text res
       = "Warning: node-pty failed to load (boom); falling back to pipe mode."
         +:+ nl +:+ nl +:+ running_notice "s1" (Some 77)
     ∧ b_text res
       ≠ "Warning: node-pty failed to load (boom); falling back to pipe mode."
         +:+ nl +:+ nl +:+ "hi")
  ∧ outcome (run (Sample.started Sample.host_no_pty Sample.echo_pty)
               [EvStdout "oops
"; EvChildExit (Some 1) None 1005])
    = Some (Rejected ("oops" +:+ nl +:+ nl +:+ "Command exited with code 1")).
Proof.
  split; [|vm_compute; reflexivity].
  eexists. split; [vm_compute; reflexivity|]. split; [vm_compute; reflexivity|].
  vm_compute. discriminate.
Qed.

(** C9 as stated fails: a finished session without output has the empty
    text as its normalised output, and [log] shows a placeholder instead. *)
Lemma log_of_silent_session :
  getSession Sample.silent_done "s1" = None
  ∧ aggregated <$> getFinishedSession Sample.silent_done "s1" = Some ""
  ∧ p_text (process_log "s1" (Some (Js.of_Z 0)) None Sample.silent_done)
    = "(no output recorded)"
  ∧ p_text (process_log "s1" (Some (Js.of_Z 0)) None Sample.silent_done)
    ≠ line_normalized "".
Proof. vm_compute. repeat split. discriminate. Qed.

(** ** The properties at sample calls *)


Lemma single_settlement_witness :
  bash_execute Sample.defaults Sample.host Sample.echo None false emptyRegistry
  = Pending (Sample.started Sample.host Sample.echo)
  ∧ (length (calls (run (Sample.started Sample.host Sample.echo)
                      [EvYieldTimer; EvStdout "x";
                       EvChildExit (Some 0%Z) None 1500%Z]))
     ≤ 1)%nat.
Proof.
  assert (bash_execute Sample.defaults Sample.host Sample.echo None false emptyRegistry
          = Pending (Sample.started Sample.host Sample.echo)) as H
    by (vm_compute; reflexivity).
  split; [exact H|].
  exact (proj1 (single_settlement _ _ _ _ _ _ _
                  [EvYieldTimer; EvStdout "x"; EvChildExit (Some 0) None 1500] H)).
Defined.

Lemma exit_status_recorded_witness :
  ∃ s', session (handleExit (Some 0) None 1801000
                   (run (Sample.started Sample.host Sample.echo) [EvTimeoutTimer]))
        = Some s'
        ∧ exited s' = true
        ∧ (status s' = Completed ↔
           Some 0%Z = Some 0%Z ∧ @None Signal = None
           ∧ abort_raised None [EvTimeoutTimer] = false
           ∧ timeout_fired (effectiveTimeout_of Sample.defaults Sample.echo)
               (Sample.started Sample.host Sample.echo) [EvTimeoutTimer] = false)
        ∧ (status s' ≠ Completed → status s' = Failed).
Proof.
  apply (exit_status_recorded Sample.defaults Sample.host Sample.echo None false
           emptyRegistry).
  vm_compute. reflexivity.
Defined.

Lemma pty_fallback_warns_witness :
  ∃ st0 w mid s,
    bash_execute Sample.defaults Sample.host_no_pty Sample.echo_pty None false
      emptyRegistry = Pending st0
    ∧ warning (clo st0) = Some w
    ∧ w = "Warning: " +:+ mid +:+ "falling back to pipe mode."
    ∧ session st0 = Some s
    ∧ stdinMode s = Pipe
    ∧ child s = Some (mkChild (h_childPid Sample.host_no_pty)) ∧ pty s = None
    ∧ c_child (clo st0) = true
    ∧ c_pty (clo st0) = false
    ∧ (∀ evs res,
         outcome (run st0 evs) = Some (Resolved res) →
         b_text res = w +:+ nl +:+ nl +:+ result_body res)
    ∧ (∀ evs code exitSignal now s' res,
         session (run st0 evs) = Some s' →
         calls (handleExit code exitSignal now (run st0 evs))
         = calls (run st0 evs) ++ [Resolved res] →
         result_body res = str_or (trim (aggregated s')) "(no output)").
Proof.
  apply (pty_fallback_warns Sample.defaults Sample.host_no_pty Sample.echo_pty None
           false emptyRegistry (ErrError "boom")).
  - discriminate.
  - reflexivity.
  - left. reflexivity.
Defined.

Lemma empty_command_throws_witness :
  b_command Sample.nothing = ""
  ∧ bash_execute Sample.defaults Sample.host Sample.nothing None false emptyRegistry
    = Threw "Provide a command to start.".
Proof.
  split; [reflexivity|]. apply empty_command_throws. reflexivity.
Defined.

Lemma poll_before_backgrounding_witness :
  getSession Sample.two_lines_live "s1" = Some Sample.two_lines_session
  ∧ process_execute 2000 (mkProcParams Poll (Some "s1") None None) Sample.two_lines_live
    = mkProcOut (failure ("Session " +:+ "s1" +:+ " is not backgrounded."))
        Sample.two_lines_live [].
Proof.
  assert (getSession Sample.two_lines_live "s1" = Some Sample.two_lines_session) as H
    by (vm_compute; reflexivity).
  split; [exact H|].
  apply (poll_before_backgrounding 2000 Sample.two_lines_live "s1"
           Sample.two_lines_session None None); [reflexivity | exact H | reflexivity].
Defined.

Lemma log_window_returned_witness :
  log_target Sample.echo_done "s1" = Some Sample.echo_session
  ∧ p_text (process_log "s1" (Js.Fin <$> None) (Js.Fin <$> Some 1%Q) Sample.echo_done)
    = str_or
        (join nl (log_window (log_lines (aggregated Sample.echo_session))
                    None (Some 1%Q)))
        (log_placeholder Sample.echo_done "s1").
Proof.
  assert (log_target Sample.echo_done "s1" = Some Sample.echo_session) as H
    by (vm_compute; reflexivity).
  split; [exact H|].
  exact (proj1 (log_window_returned Sample.echo_done "s1" Sample.echo_session
                  None (Some 1%Q) H)).
Defined.

Lemma log_roundtrip_witness :
  getFinishedSession Sample.echo_done "s1" = Some Sample.echo_session
  ∧ p_text (process_log "s1" (Some (Js.of_Z 0)) None Sample.echo_done)
    = str_or (line_normalized (aggregated Sample.echo_session)) "(no output recorded)".
Proof.
  assert (getFinishedSession Sample.echo_done "s1" = Some Sample.echo_session) as H
    by (vm_compute; reflexivity).
  split; [exact H|].
  apply (log_roundtrip Sample.echo_done "s1" Sample.echo_session None);
    [vm_compute; reflexivity | exact H | by left].
Defined.

(** ** Sample runs *)

Example echo_runs :
  outcome (run (Sample.started Sample.host Sample.echo)
             [EvStdout "hi
"; EvChildExit (Some 0) None 1005])
  = Some (Resolved (mkBashResult "hi" (DDone Completed 0 5 "hi"))).
Proof. vm_compute. reflexivity. Qed.

Example timeout_runs :
  outcome (run (Sample.started Sample.host Sample.echo)
             [EvTimeoutTimer; EvChildExit None (Some "SIGKILL") 1801000])
  = Some (Rejected "Command timed out after 1800 seconds")
  ∧ effects (run (Sample.started Sample.host Sample.echo) [EvTimeoutTimer])
    = [KillProcessTree 77].
Proof. vm_compute. split; reflexivity. Qed.

Example killed_by_signal :
  outcome (run (Sample.started Sample.host Sample.echo)
             [EvStdout "partial"; EvChildExit None (Some "SIGTERM") 1200])
  = Some (Rejected ("partial" +:+ nl +:+ nl +:+ "Command aborted by signal SIGTERM")).
Proof. vm_compute. reflexivity. Qed.

(** A PTY that reports signal number 0 with exit code 0: no signal was
    involved, and the reason names the exit code. *)
Example pty_signal_zero :
  died_of (Some (SigNum 0)) = None
  ∧ reason_by_priority false 1800 (Some 0) (Some (SigNum 0))
    = "Command exited with code 0"
  ∧ isSuccess (Some 0) (Some (SigNum 0)) NoSignal false = false.
Proof. vm_compute. repeat split. Qed.

Example yield_then_poll :
  let st := run (Sample.started Sample.host Sample.echo) [EvYieldTimer; EvStdout "x"] in
  outcome st
  = Some (Resolved (mkBashResult (running_notice "s1" (Some 77))
                      (DRunning "s1" (Some 77) 1000 "")))
  ∧ p_text (o_result (process_execute 2000 (Sample.poll "s1") (reg st)))
    = "x" +:+ nl +:+ nl +:+ "Process still running.".
Proof. vm_compute. split; reflexivity. Qed.

Example sliceLogLines_tail :
  sliceLogLines "a
b
c
" None (Some (Js.of_Z 2)) = mkLogSlice "b
c" 3 6.
Proof. vm_compute. reflexivity. Qed.

Example sliceLogLines_negative_offset :
  sliceLogLines "a
b
c
" (Some (Js.of_Z (-2))) (Some (Js.of_Z 2)) = mkLogSlice "a
b" 3 6.
Proof. vm_compute. reflexivity. Qed.

Example sliceLogLines_crlf :
  sliceLogLines (String "a" (String CR (String LF "b"))) None None
  = mkLogSlice "a
b" 2 4.
Proof. vm_compute. reflexivity. Qed.

(** * Further properties of [bash-tools.ts] *)

(** ** [chunkString] *)

(** X1.  [chunkString] loses nothing and makes no empty chunk: the chunks
    of a text, put together in order, are the text; every chunk has at
    least one and at most 8192 characters, and every chunk but the last has
    exactly 8192. *)
Theorem chunkString_lossless (input : string) :
  join "" (chunkString input) = input
  ∧ Forall (λ chunk, 0 < Z.of_nat (String.length chunk) <= 8192) (chunkString input)
  ∧ Forall (λ chunk, Z.of_nat (String.length chunk) = 8192)
      (but_last (chunkString input)).
Proof. apply (chunk_loop_spec _ CHUNK_LIMIT); [done | lia]. Qed.

(** ** [clampNumber] and the yield window *)

Section Clamp.

Lemma num_le_refl x : Js.isNaN x = false → num_le x x.
Proof. destruct x; cbn; try done. intros _. lra. Qed.

Lemma clamp_some_range v mn mx :
  Js.isNaN v = false → num_le mn mx →
  num_le mn (Js.min (Js.max v mn) mx) ∧ num_le (Js.min (Js.max v mn) mx) mx.
Proof.
  destruct v as [a| | |], mn as [b| | |], mx as [c| | |]; cbn; try done;
    repeat match goal with
           | |- context [Qle_bool ?x ?y] =>
               let E := fresh "E" in
               destruct (Qle_bool x y) eqn:E; cbn;
               [apply Qle_bool_iff in E
               |apply not_true_iff_false in E; rewrite Qle_bool_iff in E]
           end;
    intros _ H; split; try done; try lra.
Qed.

End Clamp.

Lemma clampNumber_between value defaultValue mn mx :
  num_le mn defaultValue → num_le defaultValue mx →
  num_le mn (clampNumber value defaultValue mn mx)
  ∧ num_le (clampNumber value defaultValue mn mx) mx.
Proof.
  intros H1 H2. unfold clampNumber. destruct value as [v|]; [|done].
  destruct (Js.isNaN v) eqn:E; [done|].
  apply clamp_some_range; [done|].
  destruct mn, defaultValue, mx; cbn in *; try done. lra.
Qed.

(** X2.  [clampNumber] keeps within its bounds: when the default lies
    between the bounds, so does the result, whatever the value is, a
    missing one, NaN and the infinities included; and a missing value or
    NaN gives the default itself. *)
Theorem clampNumber_range (value : option Js.num) (defaultValue mn mx : Js.num) :
  num_le mn defaultValue → num_le defaultValue mx →
  num_le mn (clampNumber value defaultValue mn mx)
  ∧ num_le (clampNumber value defaultValue mn mx) mx
  ∧ (match value with Some v => Js.isNaN v = true | None => True end →
     clampNumber value defaultValue mn mx = defaultValue).
Proof.
  intros H1 H2. destruct (clampNumber_between value defaultValue mn mx H1 H2).
  split_and!; [done..|].
  unfold clampNumber. destruct value as [v|]; [|done]. by intros ->.
Qed.

Lemma clampNumber_range_witness :
  num_le (Js.of_Z 10) (clampNumber (Some Js.PInf) (Js.of_Z 20000) (Js.of_Z 10) (Js.of_Z 120000))
  ∧ num_le (clampNumber (Some Js.PInf) (Js.of_Z 20000) (Js.of_Z 10) (Js.of_Z 120000))
      (Js.of_Z 120000).
Proof.
  destruct (clampNumber_range (Some Js.PInf) (Js.of_Z 20000) (Js.of_Z 10) (Js.of_Z 120000))
    as (H1&H2&_); [by vm_compute | by vm_compute |].
  split; [exact H1 | exact H2].
Defined.

Lemma defaultBackgroundMs_between defaults h :
  num_le (Js.of_Z 10) (defaultBackgroundMs defaults h)
  ∧ num_le (defaultBackgroundMs defaults h) (Js.of_Z 120000).
Proof. apply clampNumber_between; by vm_compute. Qed.

Lemma yieldWindow_between defaults h params :
  b_background params = false →
  num_le (Js.of_Z 10) (yieldWindow defaults h params)
  ∧ num_le (yieldWindow defaults h params) (Js.of_Z 120000).
Proof.
  intros Hb. unfold yieldWindow. rewrite Hb.
  apply clampNumber_between; apply defaultBackgroundMs_between.
Qed.

Lemma is0_yieldWindow defaults h params :
  Js.is0 (yieldWindow defaults h params) = b_background params.
Proof.
  destruct (b_background params) eqn:Hb.
  - unfold yieldWindow. by rewrite Hb.
  - destruct (yieldWindow_between defaults h params Hb) as [H _].
    destruct (yieldWindow _ _ _) as [a| | |]; cbn in *; try done.
    destruct (Qeq_bool a 0) eqn:E; [|done].
    apply Qeq_bool_eq in E. unfold Js.of_Z in H. rewrite E in H.
    by vm_compute in H.
Qed.

(** X3.  Unless [background] is set, the yield window is between 10 and
    120000 milliseconds, whatever [yieldMs], the configured default and the
    environment hold (NaN and the infinities included); with [background]
    it is 0. *)
Theorem yieldWindow_bounds (defaults : BashToolDefaults) (h : Host)
    (params : BashParams) :
  if b_background params then yieldWindow defaults h params = Js.of_Z 0
  else num_le (Js.of_Z 10) (yieldWindow defaults h params)
       ∧ num_le (yieldWindow defaults h params) (Js.of_Z 120000).
Proof.
  destruct (b_background params) eqn:Hb.
  - unfold yieldWindow. by rewrite Hb.
  - by apply yieldWindow_between.
Qed.

(** ** The start of a call, in full *)

(** The state [execute] leaves behind, field by field. *)
Lemma bash_execute_shape defaults h params sig upd r st0 :
  bash_execute defaults h params sig upd r = Pending st0 →
  let s0 := new_session h params in
  clo st0 = new_closure defaults h params upd
  ∧ reg st0 = (if b_background params
               then markBackgrounded (h_uuid h) (addSession s0 r)
               else addSession s0 r)
  ∧ signal st0 = match sig with
                 | Some true => Aborted
                 | Some false => Listening
                 | None => NoSignal
                 end
  ∧ settled st0 = b_background params
  ∧ yielded st0 = b_background params
  ∧ timedOut st0 = false
  ∧ yieldPending st0 = negb (b_background params)
  ∧ timeoutPending st0 = (0 <? effectiveTimeout_of defaults params)
  ∧ calls st0
    = (if b_background params
       then [Resolved
               (mkBashResult
                  (warningText (warning (new_closure defaults h params upd))
                   +:+ running_notice (h_uuid h) (pid s0))
                  (DRunning (h_uuid h) (pid s0) (h_now h) (tail s0)))]
       else [])
  ∧ updates st0 = []
  ∧ effects st0 = match sig with Some true => killSession s0 | _ => [] end.
Proof.
  unfold bash_execute. destruct (str_empty (b_command params)); [discriminate|].
  intros [= <-]. rewrite is0_yieldWindow.
  pose proof (new_closure_sessionId defaults h params upd) as Hid.
  pose proof (new_closure_timeout defaults h params upd) as Ht.
  pose proof (new_session_id h params) as Hs.
  assert (c_startedAt (new_closure defaults h params upd) = h_now h) as Hat.
  { unfold new_closure. by destruct (start_transport h params) as [[? ?] ?]. }
  assert (∀ s, backgrounded s = false → tail (set_backgrounded s) = tail s
               ∧ pid (set_backgrounded s) = pid s) as Hbg by (by intros []).
  set (c := new_closure defaults h params upd) in *.
  set (s0 := new_session h params) in *.
  assert (<[id s0:=s0]> (objs r) !! sessionId c = Some s0) as Hl.
  { rewrite Hid, <- Hs. apply lookup_insert_eq. }
  destruct (Hbg s0 (new_session_backgrounded h params)) as [Htl Hpd].
  destruct sig as [[]|]; unfold onAbort, session; cbn; rewrite ?Hl; cbn;
    rewrite Ht; destruct (0 <? effectiveTimeout_of defaults params); cbn;
    destruct (b_background params); cbn;
    unfold onYieldNow, resolveRunning, session, still_running_text; cbn;
    rewrite ?lookup_alter_eq, ?Hl; cbn; rewrite ?Hid, ?Hat, ?Htl, ?Hpd; done.
Qed.

(** X4.  [execute] settles at once exactly when [background] is set.  With
    [background] the call is resolved before it returns, with the warning
    and the still-running notice, and the session is in the registry, live
    and backgrounded; no yield timer is left.  Without it the call is not
    settled on return, its yield timer is pending, and the session is live
    and not backgrounded. *)
Theorem start_outcome (defaults : BashToolDefaults) (h : Host)
    (params : BashParams) (sig : option bool) (upd : bool) (r : Registry) :
  b_command params ≠ "" →
  ∃ st0, bash_execute defaults h params sig upd r = Pending st0
    ∧ if b_background params then
        outcome st0
        = Some (Resolved
                  (mkBashResult
                     (warningText (warning (clo st0))
                      +:+ running_notice (h_uuid h) (pid (new_session h params)))
                     (DRunning (h_uuid h) (pid (new_session h params)) (h_now h) "")))
        ∧ yieldPending st0 = false
        ∧ getSession (reg st0) (h_uuid h)
          = Some (set_backgrounded (new_session h params))
      else
        outcome st0 = None ∧ settled st0 = false ∧ yieldPending st0 = true
        ∧ getSession (reg st0) (h_uuid h) = Some (new_session h params).
Proof.
  intros Hc. destruct (bash_execute_starts defaults h params sig upd r Hc) as [st0 H].
  exists st0. split; [done|].
  destruct (bash_execute_shape _ _ _ _ _ _ _ H) as (Hclo&Hr&_&Hse&_&_&Hyp&_&Hcs&_).
  pose proof (new_session_id h params) as Hid.
  assert (tail (new_session h params) = "") as Htl.
  { unfold new_session. by destruct (start_transport h params) as [[? ?] ?]. }
  unfold outcome, getSession. rewrite Hcs, Hr, Hyp, Hse, Hclo.
  destruct (b_background params); cbn.
  - rewrite Htl. split_and!; [done..|].
    rewrite decide_True by (rewrite Hid; set_solver).
    by rewrite <- Hid, lookup_alter_eq, lookup_insert_eq.
  - split_and!; [done..|].
    rewrite decide_True by (rewrite Hid; set_solver).
    by rewrite <- Hid, lookup_insert_eq.
Qed.

Lemma start_outcome_witness :
  Sample.sleep_bg.(b_command) ≠ ""
  ∧ ∃ st0, bash_execute Sample.defaults Sample.host Sample.sleep_bg None false
             emptyRegistry = Pending st0
           ∧ yieldPending st0 = false.
Proof.
  assert (Sample.sleep_bg.(b_command) ≠ "") as H by (vm_compute; discriminate).
  split; [exact H|].
  destruct (start_outcome Sample.defaults Sample.host Sample.sleep_bg None false
              emptyRegistry H) as (st0&E&Hb).
  exists st0. split; [exact E|].
  change (b_background Sample.sleep_bg) with true in Hb. exact (proj1 (proj2 Hb)).
Defined.

Lemma defaultTimeoutSec_pos defaults : 0 < defaultTimeoutSec defaults.
Proof.
  unfold defaultTimeoutSec. destruct (timeoutSec defaults) as [t|]; [|lia].
  destruct (0 <? t) eqn:E; [by apply Z.ltb_lt | lia].
Qed.

(** X5.  The timeout timer of a call is armed exactly when its timeout in
    seconds is positive.  The timeout is the [timeout] parameter when
    there is one, else the default, which is always positive (the
    configured one when that is positive, else 1800): a call without a
    [timeout] parameter always gets a timer, and a [timeout] of 0 or less
    gives a call without one. *)
Theorem timeout_armed (defaults : BashToolDefaults) (h : Host)
    (params : BashParams) (sig : option bool) (upd : bool) (r : Registry)
    (st0 : Exec) :
  bash_execute defaults h params sig upd r = Pending st0 →
  effectiveTimeout (clo st0) = default (defaultTimeoutSec defaults) (b_timeout params)
  ∧ 0 < defaultTimeoutSec defaults
  ∧ timeoutPending st0 = (0 <? effectiveTimeout (clo st0))
  ∧ timedOut st0 = false
  ∧ (b_timeout params = None → timeoutPending st0 = true).
Proof.
  intros H.
  destruct (bash_execute_shape _ _ _ _ _ _ _ H) as (Hclo&_&_&_&_&Hto&_&Htp&_).
  pose proof (defaultTimeoutSec_pos defaults) as Hpos.
  rewrite Hclo, new_closure_timeout, Htp. unfold effectiveTimeout_of.
  split_and!; [done..|]. intros ->. cbn. by apply Z.ltb_lt.
Qed.

Lemma timeout_armed_witness :
  timeoutPending (Sample.started Sample.host Sample.echo) = true.
Proof.
  assert (bash_execute Sample.defaults Sample.host Sample.echo None false emptyRegistry
          = Pending (Sample.started Sample.host Sample.echo)) as H
    by (vm_compute; reflexivity).
  destruct (timeout_armed _ _ _ _ _ _ _ H) as (_&_&_&_&Hn).
  apply Hn. reflexivity.
Defined.

(** ** The kill requests of a call *)

Section Kills.

Lemma keeps_target_refl r : keeps_target r r.
Proof. by intros j. Qed.

Lemma keeps_target_trans r1 r2 r3 :
  keeps_target r1 r2 → keeps_target r2 r3 → keeps_target r1 r3.
Proof. intros H1 H2 j. by rewrite H2, H1. Qed.

Lemma keeps_target_alter (f : Session → Session) i r l d :
  (∀ s, killSession (f s) = killSession s) →
  keeps_target r (mkRegistry (alter f i (objs r)) l d).
Proof.
  intros Hf j. simpl. rewrite lookup_alter. case_decide; [subst|done].
  destruct (objs r !! j); simpl; [by rewrite Hf | done].
Qed.

Lemma killSession_append_chunk st c s :
  killSession (append_chunk st c s) = killSession s.
Proof. unfold append_chunk. destruct s. simpl. by destruct exited0. Qed.

Lemma killSession_set_exited code sg stt now s :
  killSession (set_exited code sg stt now s) = killSession s.
Proof. by destruct s. Qed.

Lemma killSession_drained s : killSession (drained s) = killSession s.
Proof. by destruct s. Qed.

Lemma killSession_set_backgrounded s : killSession (set_backgrounded s) = killSession s.
Proof. by destruct s. Qed.

Lemma target_markExited i code sg stt now r :
  keeps_target r (markExited i code sg stt now r).
Proof. apply keeps_target_alter, killSession_set_exited. Qed.

Lemma target_markBackgrounded i r : keeps_target r (markBackgrounded i r).
Proof. apply keeps_target_alter, killSession_set_backgrounded. Qed.

Lemma target_appendOutput i st c r : keeps_target r (appendOutput i st c r).
Proof. apply keeps_target_alter, killSession_append_chunk. Qed.

Lemma target_process_execute now params r :
  keeps_target r (o_registry (process_execute now params r)).
Proof.
  unfold process_execute. destruct (p_sessionId params) as [sid|];
    [|apply keeps_target_refl].
  destruct (str_empty sid); [apply keeps_target_refl|].
  destruct (action params).
  - unfold process_poll. destruct (getSession r sid) as [s|]; cbn.
    + destruct (backgrounded s); cbn; [|apply keeps_target_refl].
      destruct (exited s); cbn.
      * eapply keeps_target_trans; [|apply target_markExited].
        apply keeps_target_alter, killSession_drained.
      * apply keeps_target_alter, killSession_drained.
    + destruct (getFinishedSession r sid); apply keeps_target_refl.
  - apply keeps_target_refl.
  - unfold process_kill. destruct (getSession r sid) as [s|];
      [|apply keeps_target_refl].
    destruct (backgrounded s); cbn; [apply target_markExited | apply keeps_target_refl].
  - unfold process_clear. destruct (getFinishedSession r sid); by intros j.
  - unfold process_remove. destruct (getSession r sid) as [s|];
      [apply target_markExited|].
    destruct (getFinishedSession r sid); by intros j.
Qed.

Lemma harmless_refl st : harmless st st.
Proof. split_and!; [done..|apply keeps_target_refl]. Qed.

Lemma harmless_trans st1 st2 st3 :
  harmless st1 st2 → harmless st2 st3 → harmless st1 st3.
Proof.
  intros (?&?&?&?&?) (?&?&?&?&?).
  split_and!; [congruence..|by eapply keeps_target_trans].
Qed.

Lemma harmless_settle x st : harmless st (settle x st).
Proof.
  unfold settle. destruct (settled st); [apply harmless_refl|].
  destruct st. split_and!; [done..|apply keeps_target_refl].
Qed.

Lemma harmless_emitUpdate st : harmless st (emitUpdate st).
Proof.
  unfold emitUpdate. destruct (negb _); [apply harmless_refl|].
  destruct (session st); [|apply harmless_refl].
  destruct st. split_and!; [done..|apply keeps_target_refl].
Qed.

Lemma harmless_onData stream str st : harmless st (onData stream str st).
Proof.
  unfold onData. generalize (chunkString str) as l. intros l. revert st.
  induction l as [|c l IH]; intros st; [apply harmless_refl|].
  cbn [foldl]. eapply harmless_trans; [|apply IH].
  eapply harmless_trans; [|apply harmless_emitUpdate].
  destruct st. split_and!; [done..|apply target_appendOutput].
Qed.

Lemma harmless_onYieldTimer st : harmless st (onYieldTimer st).
Proof.
  unfold onYieldTimer. destruct st as [c r sg se y t yp tp cs us fx]. cbn.
  destruct se; [split_and!; [done..|apply keeps_target_refl]|].
  unfold resolveRunning. destruct (session _); cbn.
  - split_and!; [done..|apply target_markBackgrounded].
  - split_and!; [done..|apply target_markBackgrounded].
Qed.

Lemma harmless_handleExit code sg now st : harmless st (handleExit code sg now st).
Proof.
  unfold handleExit. destruct st as [c r sgn se y t yp tp cs us fx]. cbn.
  destruct (session _) as [s|]; cbn;
    [|split_and!; [done..|apply target_markExited]].
  destruct (y || backgrounded s); cbn;
    [split_and!; [done..|apply target_markExited]|].
  destruct (negb _); destruct se; cbn;
    split_and!; try done; apply target_markExited.
Qed.

Lemma harmless_onChildError message now st :
  harmless st (onChildError message now st).
Proof.
  unfold onChildError. eapply harmless_trans; [|apply harmless_settle].
  destruct st. split_and!; [done..|apply target_markExited].
Qed.

Lemma harmless_process now params st :
  harmless st (with_reg (λ r, o_registry (process_execute now params r)) st).
Proof. destruct st. split_and!; [done..|apply target_process_execute]. Qed.

Lemma harmless_kills_own ks st st' :
  harmless st st' → kills_own ks st → kills_own ks st'.
Proof.
  intros (Hc&He&Ht&Hs&Hk) [(s&Hse&Hks) Hfx Hcause].
  split; rewrite ?He, ?Ht, ?Hs; [|done..].
  specialize (Hk (sessionId (clo st))). unfold session in *. rewrite Hc.
  rewrite Hse in Hk. destruct (objs (reg st') !! _) as [s'|]; [|done].
  injection Hk as Hk. exists s'. split; congruence.
Qed.

Lemma kills_own_onAbort ks st :
  timedOut st = true ∨ signal st = Aborted →
  kills_own ks st → kills_own ks (onAbort st).
Proof.
  intros Hcause [(s&Hse&Hks) Hfx _]. unfold onAbort. rewrite Hse.
  destruct st as [c r sg se y t yp tp cs us fx]. unfold session in *. cbn in *.
  split; unfold session; cbn; [by exists s | | done].
  apply Forall_app. split; [done|]. rewrite Hks. by apply Forall_forall.
Qed.

Lemma kills_own_set_signal ks st :
  kills_own ks st → kills_own ks (set_signal Aborted st).
Proof.
  intros [Hs Hfx _]. destruct st. split; [done..|]. by right.
Qed.

Lemma kills_own_onTimeout ks st : kills_own ks st → kills_own ks (onTimeout st).
Proof.
  intros [Hs Hfx _]. unfold onTimeout. apply kills_own_onAbort.
  - left. by destruct st.
  - destruct st. split; [done..|]. by left.
Qed.

Lemma kills_own_step ks st ev : kills_own ks st → kills_own ks (step st ev).
Proof.
  intros H. destruct ev; cbn [step]; repeat case_match; try done;
    first [ by apply kills_own_onTimeout
          | apply kills_own_onAbort; [right; by destruct st|];
            by apply kills_own_set_signal
          | eapply harmless_kills_own; [|exact H];
            auto using harmless_onData, harmless_onYieldTimer, harmless_handleExit,
              harmless_onChildError, harmless_process ].
Qed.

Lemma kills_own_run ks st evs : kills_own ks st → kills_own ks (run st evs).
Proof.
  intros H. induction evs as [|ev evs IH] using rev_ind; [done|].
  rewrite run_snoc. by apply kills_own_step.
Qed.

Lemma killSession_new_session h params e :
  e ∈ killSession (new_session h params) → aimed_at (new_session h params) e.
Proof.
  unfold new_session, killSession.
  destruct (start_transport h params) as [[[] w] [p|]]; cbn;
    destruct (h_childPid h) as [q|]; cbn;
    repeat match goal with
           | |- context [?x =? 0] =>
               let E := fresh in destruct (x =? 0) eqn:E; [|apply Z.eqb_neq in E]
           end; cbn;
    rewrite ?elem_of_cons, ?elem_of_nil; intros Hin; destruct_or?; subst; cbn;
    try done.
Qed.

End Kills.

(** X6.  A call only ever asks to kill its own process, and only after a
    timeout or a cancellation.  Over every sequence of events after
    [execute] (calls of the controller between them included): every kill
    request the call has made is for the tree of the process recorded in
    its session, whose id is not 0, or for its PTY handle when the session
    runs on a PTY; and a call that has made one has timed out or was
    cancelled by its signal. *)
Theorem kills_own_process (defaults : BashToolDefaults) (h : Host)
    (params : BashParams) (sig : option bool) (upd : bool) (r : Registry)
    (st0 : Exec) (evs : list Event) :
  bash_execute defaults h params sig upd r = Pending st0 →
  Forall (aimed_at (new_session h params)) (effects (run st0 evs))
  ∧ (effects (run st0 evs) ≠ [] →
     timedOut (run st0 evs) = true ∨ signal (run st0 evs) = Aborted).
Proof.
  intros H.
  assert (kills_own (killSession (new_session h params)) st0) as K.
  { destruct (bash_execute_shape _ _ _ _ _ _ _ H) as (_&_&Hsg&_&_&_&_&_&_&_&Hfx).
    pose proof (bash_execute_session _ _ _ _ _ _ _ H) as Hs.
    split.
    - eexists. split; [exact Hs|].
      destruct (yielded st0); [apply killSession_set_backgrounded | done].
    - rewrite Hfx. destruct sig as [[]|]; [by apply Forall_forall | done..].
    - rewrite Hfx, Hsg. destruct sig as [[]|]; [by right | done..]. }
  destruct (kills_own_run _ _ evs K) as [_ Hfx Hcause]. split; [|done].
  eapply Forall_impl; [exact Hfx|]. apply killSession_new_session.
Qed.

Lemma kills_own_process_witness :
  Forall (aimed_at (new_session Sample.host Sample.echo))
    (effects (run (Sample.started Sample.host Sample.echo)
                [EvTimeoutTimer; EvChildExit None (Some "SIGKILL") 1801000])).
Proof.
  assert (bash_execute Sample.defaults Sample.host Sample.echo None false emptyRegistry
          = Pending (Sample.started Sample.host Sample.echo)) as H
    by (vm_compute; reflexivity).
  exact (proj1 (kills_own_process _ _ _ _ _ _ _
                  [EvTimeoutTimer; EvChildExit None (Some "SIGKILL") 1801000] H)).
Defined.

(** ** The controller: what a call leaves alone *)

Section ControllerFrame.



Lemma others_refl (j : string) r :
  objs r !! j = objs r !! j ∧ (j ∈ live r ↔ j ∈ live r) ∧ (j ∈ fin r ↔ j ∈ fin r).
Proof. done. Qed.


End ControllerFrame.



(** X8.  A call the controller refuses changes nothing.  When the call
    names no session, or names one that is not there, or one that is not
    in the state the action needs ([poll], [log] and [kill] on a live
    session that was not backgrounded, [kill] on a session that is not
    live, [clear] on a session that has not finished), the result is a
    bare failure (status failed and a message, no other detail), the
    registry is as it was and no kill is requested. *)
Theorem process_failure_changes_nothing (now : Z) (params : ProcParams)
    (r : Registry) :
  refused params r →
  (∃ text, o_result (process_execute now params r) = failure text)
  ∧ o_registry (process_execute now params r) = r
  ∧ o_effects (process_execute now params r) = [].
Proof.
  unfold refused, process_execute.
  destruct (p_sessionId params) as [sid|]; [|intros _; split; [by eexists | done]].
  destruct (str_empty sid) eqn:E; [intros _; split; [by eexists | done]|].
  intros [-> | H]; [done|]. revert H. destruct (action params).
  - unfold process_poll. destruct (getSession r sid) as [s|];
      intros ->; (split; [by eexists | done]).
  - unfold process_log. destruct (getSession r sid) as [s|];
      intros ->; (split; [by eexists | done]).
  - unfold process_kill. destruct (getSession r sid) as [s|];
      [intros -> | intros _]; (split; [by eexists | done]).
  - unfold process_clear. intros ->. split; [by eexists | done].
  - unfold process_remove. intros [-> ->]. split; [by eexists | done].
Qed.

Lemma process_failure_changes_nothing_witness :
  o_registry (process_execute 2000 (mkProcParams Kill (Some "s1") None None)
                Sample.two_lines_live)
  = Sample.two_lines_live.
Proof.
  refine (proj1 (proj2 (process_failure_changes_nothing 2000
                   (mkProcParams Kill (Some "s1") None None) Sample.two_lines_live _))).
  right. vm_compute. reflexivity.
Defined.

(** X9.  [kill] and then [poll].  The [kill] action on a live session that
    was backgrounded requests the kill of its process and moves the
    session to the finished ones, recorded as failed with signal SIGKILL
    and no exit code; a [poll] that follows reports status failed, and its
    text is the tail of the output (or a placeholder) followed by
    [Process exited with signal SIGKILL.]; a second [kill] fails, the
    session being no longer live. *)
Theorem kill_then_poll (now now' : Z) (r : Registry) (sid : string) (s : Session) :
  sid ≠ "" → getSession r sid = Some s → backgrounded s = true → exited s = false →
  let killed := process_execute now (mkProcParams Kill (Some sid) None None) r in
  let polled :=
    process_execute now' (mkProcParams Poll (Some sid) None None) (o_registry killed) in
  o_effects killed = killSession s
  ∧ getSession (o_registry killed) sid = None
  ∧ getFinishedSession (o_registry killed) sid
    = Some (set_exited None (Some (SigName "SIGKILL")) Failed now s)
  ∧ d_status (p_details (o_result polled)) = Failed
  ∧ p_text (o_result polled)
    = str_or (tail s)
        ("(no output recorded" +:+
         (if truncated s then " — truncated to cap" else "") +:+ ")")
      +:+ nl +:+ nl +:+ "Process exited with signal SIGKILL."
  ∧ o_registry polled = o_registry killed
  ∧ o_result (process_execute now' (mkProcParams Kill (Some sid) None None)
                (o_registry killed))
    = failure ("No active session found for " +:+ sid).
Proof.
  intros Hsid Hs Hb He. cbn zeta. unfold process_execute. cbn [p_sessionId action].
  destruct sid as [|c sid']; [done|]. cbn [str_empty]. set (sid := String c sid') in *.
  assert (process_kill now sid r
          = mkProcOut
              (mkProcResult ("Killed session " +:+ sid +:+ ".")
                 (mkDetails Failed None None None None None None None
                    (deriveSessionName (command s))))
              (markExited sid None (Some (SigName "SIGKILL")) Failed now r)
              (killSession s)) as ->
    by (unfold process_kill; by rewrite Hs, Hb).
  cbn [o_effects o_registry].
  destruct (markExited_moves sid None (Some (SigName "SIGKILL")) Failed now r s Hs He)
    as (Hl&Hf).
  split; [done|]. split; [done|]. split; [done|].
  unfold process_poll, process_kill. rewrite !Hl, Hf.
  cbn [o_result o_registry p_details p_text d_status].
  assert (∀ x, tail (set_exited None (Some (SigName "SIGKILL")) Failed now x) = tail x
               ∧ truncated (set_exited None (Some (SigName "SIGKILL")) Failed now x)
                 = truncated x
               ∧ status (set_exited None (Some (SigName "SIGKILL")) Failed now x) = Failed
               ∧ exitSignal (set_exited None (Some (SigName "SIGKILL")) Failed now x)
                 = Some (SigName "SIGKILL")) as Hx by (by intros []).
  destruct (Hx s) as (->&->&->&->). done.
Qed.

Lemma kill_then_poll_witness :
  o_effects (process_execute 2000 (mkProcParams Kill (Some "s1") None None)
               Sample.sleeping)
  = [KillProcessTree 77].
Proof.
  refine (proj1 (kill_then_poll 2000 3000 Sample.sleeping "s1"
                   (set_backgrounded (new_session Sample.host Sample.sleep_bg))
                   _ _ _ _)); [discriminate | vm_compute; reflexivity..].
Defined.

(** ** The [write] action *)

(** X10.  [write] reaches the input of a session only when it may: if a
    call has written anything, the session is live, was backgrounded, and
    its input can be written to.  What it writes is the data as given (the
    empty text when there is none), to the PTY or to the pipe as the
    session runs, and after it, when [eof] is set, the character EOT on a
    PTY or the end of the input on a pipe, and nothing else. *)
Theorem write_reaches_writable (destroyed : bool) (write_error : option string)
    (sid : string) (data : option string) (eof : bool) (r : Registry) :
  write_ops (process_write destroyed write_error sid data eof r) ≠ [] →
  ∃ s, getSession r sid = Some s ∧ backgrounded s = true ∧ writable destroyed s
    ∧ ∃ rest,
        write_ops (process_write destroyed write_error sid data eof r)
        = match stdinMode s with
          | Pty => PtyWrite (default "" data) :: rest
          | Pipe => StdinWrite (default "" data) :: rest
          end
        ∧ (rest = []
           ∨ eof = true
             ∧ rest = match stdinMode s with
                      | Pty => [PtyWrite (String "004" "")]
                      | Pipe => [StdinEnd]
                      end).
Proof.
  unfold process_write, writable. destruct (getSession r sid) as [s|]; [|done].
  destruct (backgrounded s) eqn:Eb; cbn [negb write_ops]; [|done].
  destruct (stdinMode s) eqn:Em.
  - destruct (child s) eqn:Ec; [|by intros []].
    destruct destroyed; [by intros []|].
    intros _. exists s. rewrite Em, Ec.
    split; [done|]. split; [done|]. split; [by split; [eexists|]|].
    destruct write_error; cbn [write_ops].
    + eexists. split; [done|]. by left.
    + eexists. split; [done|]. destruct eof; [right | left]; done.
  - destruct (pty s) eqn:Ep; [|by intros []].
    destruct (exited s) eqn:Ee; [by intros []|].
    intros _. exists s. rewrite Em, Ep.
    split; [done|]. split; [done|]. split; [by split; [eexists|]|].
    cbn [write_ops].
    eexists. split; [done|]. destruct eof; [right | left]; done.
Qed.

Lemma write_reaches_writable_witness :
  ∃ s, getSession Sample.sleeping "s1" = Some s ∧ backgrounded s = true.
Proof.
  destruct (write_reaches_writable false None "s1" (Some "y") true Sample.sleeping)
    as (s&H1&H2&_); [vm_compute; discriminate|].
  exists s. split; [exact H1 | exact H2].
Defined.

(** X11.  [write] is rejected exactly when the write to the pipe fails:
    the session is live, backgrounded, runs on pipes, its input is there
    and not destroyed, and the stream hands an error to the callback of
    the write.  The rejection carries that error; the data was handed to
    the stream and the input is not ended, [eof] or not. *)
Theorem write_rejected_on_pipe_error (destroyed : bool)
    (write_error : option string) (sid : string) (data : option string)
    (eof : bool) (r : Registry) (err : string) (ops : list StdinOp) :
  process_write destroyed write_error sid data eof r = WriteRejected err ops
  ↔ (∃ s, getSession r sid = Some s ∧ backgrounded s = true
          ∧ stdinMode s = Pipe ∧ is_Some (child s))
    ∧ destroyed = false ∧ write_error = Some err
    ∧ ops = [StdinWrite (default "" data)].
Proof.
  unfold process_write. split.
  - destruct (getSession r sid) as [s|]; [|done].
    destruct (backgrounded s) eqn:Eb; cbn [negb]; [|done].
    destruct (stdinMode s) eqn:Em.
    + destruct (child s) eqn:Ec; [|done]. destruct destroyed; [done|].
      destruct write_error; [|done]. intros [= <- <-].
      split; [|done]. exists s. rewrite Ec. split_and!; [done..|by eexists].
    + destruct (pty s); [|done]. by destruct (exited s).
  - intros ((s&->&->&->&[ch ->])&->&->&->). done.
Qed.

(** ** [sliceLogLines]: limits *)

Section Limits.

Lemma count_lf_append a b : count_lf (a +:+ b) = (count_lf a + count_lf b)%nat.
Proof.
  induction a as [|c a IH]; [done|].
  rewrite string_append_cons. cbn [count_lf]. rewrite IH. lia.
Qed.

Lemma split_lf_one_line s : Forall one_line (split_lf s).
Proof.
  induction s as [|c r IH]; [by constructor|].
  rewrite split_lf_cons. destruct (Ascii.eqb c LF) eqn:E; [by constructor|].
  destruct IH as [|h t Hh Ht]; cbn; constructor; try done.
  - unfold one_line. cbn. by rewrite E.
  - unfold one_line in *. cbn. by rewrite E, Hh.
Qed.

Lemma pop_one_line l : Forall one_line l → Forall one_line (pop_if_last_empty l).
Proof.
  induction 1 as [|x l Hx Hl IH]; [constructor|].
  destruct l as [|y l']; cbn.
  - destruct (str_empty x); by constructor.
  - by constructor.
Qed.

Lemma count_lf_join l :
  Forall one_line l → count_lf (join nl l) = (length l - 1)%nat.
Proof.
  induction 1 as [|x l Hx Hl IH]; [done|].
  destruct l as [|y l']; [done|].
  change (join nl (x :: y :: l')) with (x +:+ nl +:+ join nl (y :: l')).
  rewrite !count_lf_append, IH, Hx. cbn. lia.
Qed.

Lemma log_lines_one_line text : Forall one_line (log_lines text).
Proof. apply pop_one_line, split_lf_one_line. Qed.

Lemma log_window_sublist lines offset limit :
  Forall one_line lines → Forall one_line (log_window lines offset limit).
Proof.
  intros H. destruct offset, limit; cbn;
    auto using Forall_take, Forall_drop.
Qed.

Lemma log_window_length lines offset l :
  (length (log_window lines offset (Some l)) <= line_index l)%nat.
Proof.
  destruct offset; cbn.
  - rewrite length_take. lia.
  - rewrite length_drop. lia.
Qed.

End Limits.

(** X12.  [sliceLogLines] never returns more lines than the limit: with a
    finite [limit], rounded down to [n], the slice is empty when [n] is 0 or
    less, and holds fewer than [n] line feeds otherwise, so at most [n]
    lines; this for every text and every finite or missing [offset]. *)
Theorem log_limit_respected (text : string) (offset : option Q) (l : Q) :
  let sl := slice (sliceLogLines text (Js.Fin <$> offset) (Some (Js.Fin l))) in
  if Qfloor l <=? 0 then sl = ""
  else Z.of_nat (count_lf sl) < Qfloor l.
Proof.
  cbn zeta.
  change (Some (Js.Fin l)) with (Js.Fin <$> Some l).
  rewrite sliceLogLines_finite. cbn [slice].
  pose proof (log_window_length (log_lines text) offset l) as Hlen.
  pose proof (log_window_sublist (log_lines text) offset (Some l)
                (log_lines_one_line text)) as Hone.
  rewrite (count_lf_join _ Hone). unfold line_index in Hlen.
  destruct (Qfloor l <=? 0) eqn:E.
  - apply Z.leb_le in E.
    destruct (log_window _ _ _); [done | cbn in Hlen; lia].
  - apply Z.leb_gt in E. lia.
Qed.

(** X13.  A limit that is NaN or +Infinity is no limit: [sliceLogLines]
    returns with it what it returns without a limit, whatever the text
    and the offset. *)
Theorem log_limit_not_finite (text : string) (offset : option Js.num) (l : Js.num) :
  l = Js.NaN ∨ l = Js.PInf →
  sliceLogLines text offset (Some l) = sliceLogLines text offset None.
Proof.
  intros H. unfold sliceLogLines. destruct (str_empty text); [done|].
  destruct offset as [o|]; destruct H as [-> | ->]; done.
Qed.

Lemma log_limit_not_finite_witness :
  sliceLogLines "a" None (Some Js.NaN) = sliceLogLines "a" None None.
Proof. apply (log_limit_not_finite "a" None Js.NaN). by left. Defined.

Lemma write_rejected_on_pipe_error_witness :
  process_write false (Some "EPIPE") "s1" (Some "y") true Sample.sleeping
  = WriteRejected "EPIPE" [StdinWrite "y"].
Proof.
  apply (write_rejected_on_pipe_error false (Some "EPIPE") "s1" (Some "y") true
           Sample.sleeping "EPIPE" [StdinWrite "y"]).
  split; [|by vm_compute].
  exists (set_backgrounded (new_session Sample.host Sample.sleep_bg)).
  vm_compute. split_and!; [reflexivity..|by eexists].
Defined.

(** ** The warning of the fallback is one line *)

Section OneLine.

Lemma first_line_one_line s : one_line (first_line s).
Proof.
  unfold one_line. induction s as [|c r IH]; [done|]. cbn [first_line].
  destruct (Ascii.eqb c LF) eqn:E; [done|].
  destruct (Ascii.eqb c CR && _); [done|]. cbn [count_lf]. by rewrite E, IH.
Qed.

Lemma one_line_cons c r : one_line (String c r) → Ascii.eqb c LF = false ∧ one_line r.
Proof.
  unfold one_line. cbn [count_lf]. destruct (Ascii.eqb c LF); [lia|].
  intros H. split; [done | exact H].
Qed.

Lemma trimStart_one_line s : one_line s → one_line (trimStart s).
Proof.
  induction s as [|c r IH]; [done|]. intros H. cbn [trimStart].
  destruct (is_ws c); [|done]. by apply IH, (one_line_cons c).
Qed.

Lemma trimEnd_one_line s : one_line s → one_line (trimEnd s).
Proof.
  induction s as [|c r IH]; [done|]. intros H. cbn [trimEnd].
  destruct (one_line_cons c r H) as [E Hr].
  destruct (is_ws c && _); [done|].
  unfold one_line in *. cbn [count_lf]. by rewrite E, IH.
Qed.

Lemma one_line_append a b : one_line a → one_line b → one_line (a +:+ b).
Proof. unfold one_line. intros Ha Hb. by rewrite count_lf_append, Ha, Hb. Qed.

End OneLine.

(** X14.  For an [Error], what [formatPtyError] adds to the warning is
    nothing, or the first line of the message, trimmed, in brackets: it
    never holds a line feed, and so the warning of the fallback is one
    line, whatever the message of the error is. *)
Theorem formatPtyError_one_line (message : string) :
  (formatPtyError (ErrError message) = ""
   ∨ formatPtyError (ErrError message) = " (" +:+ trim (first_line message) +:+ ")"
     ∧ trim (first_line message) ≠ "")
  ∧ one_line (formatPtyError (ErrError message))
  ∧ one_line (pty_warning "load" (ErrError message))
  ∧ one_line (pty_warning "start" (ErrError message)).
Proof.
  assert (one_line (trim (first_line message))) as Ht
    by apply trimEnd_one_line, trimStart_one_line, first_line_one_line.
  assert (one_line (formatPtyError (ErrError message))) as Hf.
  { cbn. destruct (str_empty _); [done|].
    apply (one_line_append " ("), one_line_append; done. }
  split.
  { cbn. destruct (trim (first_line message)); [by left | by right]. }
  split; [done|].
  split; unfold pty_warning; repeat (apply one_line_append; try done).
Qed.

(** ** [truncateMiddle], [pad] and [stripQuotes] *)

Section Display.

Lemma str_drop_nonpos n s : n <= 0 → str_drop n s = s.
Proof.
  intros H. destruct s as [|c r]; [done|]. cbn.
  destruct (0 <? n) eqn:E; [apply Z.ltb_lt in E; lia | done].
Qed.

Lemma str_take_app a b : str_take (Z.of_nat (String.length a)) (a +:+ b) = a.
Proof.
  induction a as [|c a IH].
  - destruct b; [done|]. cbn. done.
  - rewrite string_append_cons. cbn [str_take String.length].
    destruct (0 <? Z.of_nat (S (String.length a))) eqn:E;
      [|apply Z.ltb_ge in E; lia].
    replace (Z.of_nat (S (String.length a)) - 1) with (Z.of_nat (String.length a))
      by lia.
    by rewrite IH.
Qed.

Lemma length_repeat_char c n : String.length (repeat_char c n) = n.
Proof. induction n as [|n IH]; [done|]. cbn. by rewrite IH. Qed.

Lemma trimEnd_snoc s q :
  is_ws q = false → trimEnd (s +:+ String q "") = s +:+ String q "".
Proof.
  intros Hq. induction s as [|c r IH].
  - change (trimEnd (String q "") = String q ""). cbn [trimEnd]. by rewrite Hq.
  - rewrite string_append_cons. cbn [trimEnd]. rewrite IH.
    assert (str_empty (r +:+ String q "") = false) as -> by (by destruct r).
    by rewrite andb_false_r.
Qed.

Lemma ends_with_snoc s q : ends_with q (s +:+ String q "") = true.
Proof.
  induction s as [|c r IH]; [cbn; apply Ascii.eqb_refl|].
  rewrite string_append_cons. cbn [ends_with]. rewrite IH. by destruct r.
Qed.

Lemma quoted_strip q s :
  is_ws q = false →
  trim (String q (s +:+ String q "")) = String q (s +:+ String q "")
  ∧ starts_with q (String q (s +:+ String q "")) = true
  ∧ ends_with q (String q (s +:+ String q "")) = true
  ∧ str_slice (String q (s +:+ String q "")) 1 (Some (-1)) = s.
Proof.
  intros Hq. split_and!.
  - unfold trim. cbn [trimStart]. rewrite Hq.
    change (String q (s +:+ String q "")) with (String q s +:+ String q "").
    by apply trimEnd_snoc.
  - cbn. apply Ascii.eqb_refl.
  - change (String q (s +:+ String q "")) with (String q s +:+ String q "").
    apply ends_with_snoc.
  - unfold str_slice. cbn [String.length]. rewrite length_append. cbn [String.length].
    unfold Js.relIndex.
    destruct (1 <? 0) eqn:E1; [done|]. destruct (-1 <? 0) eqn:E2; [|done].
    rewrite Z.min_l by lia. cbn [str_drop]. change (0 <? 1) with true. cbn iota.
    rewrite str_drop_nonpos by lia.
    replace (Z.max (Z.of_nat (S (String.length s + 1)) + -1) 0 - 1)
      with (Z.of_nat (String.length s)) by lia.
    apply str_take_app.
Qed.

End Display.

Lemma truncateMiddle_cases (str : string) (max : Z) :
  3 <= max →
  Z.of_nat (String.length (truncateMiddle str max)) <= max
  ∧ (Z.of_nat (String.length str) <= max → truncateMiddle str max = str)
  ∧ (max < Z.of_nat (String.length str) →
     truncateMiddle str max
     = str_take ((max - 3) / 2) str +:+ "..." +:+ str_last ((max - 3) / 2) str).
Proof.
  intros Hmax. unfold truncateMiddle.
  pose proof (Z.mul_div_le (max - 3) 2 ltac:(lia)) as Hhalf.
  assert (0 <= (max - 3) / 2) as H0 by (apply Z.div_pos; lia).
  destruct (Z.of_nat (String.length str) <=? max) eqn:E.
  - apply Z.leb_le in E. split_and!; [done | done | lia].
  - apply Z.leb_gt in E.
    assert (str_slice str 0 (Some ((max - 3) / 2)) = str_take ((max - 3) / 2) str) as ->.
    { unfold str_slice, Js.relIndex. change (0 <? 0) with false. cbn iota.
      destruct ((max - 3) / 2 <? 0) eqn:E'; [apply Z.ltb_lt in E'; lia|].
      rewrite str_drop_nonpos by lia.
      rewrite (Z.min_l 0) by lia. rewrite Z.sub_0_r.
      by rewrite Z.min_l by lia. }
    assert (str_slice str (Z.of_nat (String.length str) - (max - 3) / 2) None
            = str_last ((max - 3) / 2) str) as ->.
    { unfold str_slice, Js.relIndex, str_last.
      destruct (_ <? 0) eqn:E'; [apply Z.ltb_lt in E'; lia|].
      rewrite Z.min_l by lia.
      set (d := str_drop _ str).
      pose proof (length_str_drop (Z.of_nat (String.length str) - (max - 3) / 2) str)
        as Hd. fold d in Hd.
      replace (Z.of_nat (String.length str)
               - (Z.of_nat (String.length str) - (max - 3) / 2))
        with (Z.of_nat (String.length d)) by lia.
      rewrite <- (append_empty_r d) at 2. apply str_take_app. }
    split_and!; [|lia|done].
    rewrite !length_append. cbn [String.length].
    pose proof (length_str_take ((max - 3) / 2) str).
    unfold str_last.
    pose proof (length_str_drop (Z.of_nat (String.length str) - (max - 3) / 2) str).
    lia.
Qed.

(** X15.  [truncateMiddle] makes a text fit: for a bound of 3 or more the
    result is never longer than the bound; a text that fits is returned as
    it is, a longer one is cut to its first and last [(max - 3) / 2]
    characters with three dots between them. *)
Theorem truncateMiddle_fits (str : string) (max : Z) :
  3 <= max →
  Z.of_nat (String.length (truncateMiddle str max)) <= max
  ∧ (Z.of_nat (String.length str) <= max → truncateMiddle str max = str)
  ∧ (max < Z.of_nat (String.length str) →
     truncateMiddle str max
     = str_take ((max - 3) / 2) str +:+ "..." +:+ str_last ((max - 3) / 2) str).
Proof. apply truncateMiddle_cases. Qed.

Lemma truncateMiddle_fits_witness :
  Z.of_nat (String.length (truncateMiddle "abcdefghijkl" 9)) <= 9.
Proof. apply (truncateMiddle_fits "abcdefghijkl" 9). lia. Defined.

(** X16.  [pad] fills up on the right: the result is the text followed by
    spaces only, and its length is the width, or that of the text when the
    text is as long as the width or longer. *)
Theorem pad_width (str : string) (width : Z) :
  (∃ k, pad str width = str +:+ repeat_char " " k)
  ∧ Z.of_nat (String.length (pad str width))
    = Z.max width (Z.of_nat (String.length str)).
Proof.
  unfold pad. destruct (width <=? Z.of_nat (String.length str)) eqn:E.
  - apply Z.leb_le in E. split; [|lia]. exists 0%nat. by rewrite append_empty_r.
  - apply Z.leb_gt in E. split; [by eexists|].
    rewrite length_append, length_repeat_char. lia.
Qed.

(** X17.  [stripQuotes] undoes quoting: a text put between two double
    quotes, or between two single quotes, comes back as it was, its own
    white space and inner quotes included. *)
Theorem stripQuotes_quoted (s : string) :
  stripQuotes (String DQ (s +:+ String DQ "")) = s
  ∧ stripQuotes (String SQ (s +:+ String SQ "")) = s.
Proof.
  split; unfold stripQuotes.
  - destruct (quoted_strip DQ s eq_refl) as (->&->&->&->). done.
  - destruct (quoted_strip SQ s eq_refl) as (->&_&->&->). done.
Qed.

(** ** [loadPtyModule] *)

(** X18.  The first import of the PTY backend decides for good: every
    call of [loadPtyModule] returns what the first one got, so a backend
    that failed to load is not tried again, and one that loaded is not
    loaded twice. *)
Theorem loadPtyModule_once (first : PtyLoad) (later : list PtyLoad) :
  loadPtyModule_calls (first :: later) None
  = replicate (S (length later)) first.
Proof.
  cbn. f_equal. induction later as [|i l IH]; [done|]. cbn. by rewrite IH.
Qed.

(** ** Progress updates *)

Section Updates.










End Updates.



(** ** [tokenizeCommand] *)

Section Tokens.

Lemma quoted_shorter q s rest :
  quoted q s = Some rest → (String.length rest < String.length s)%nat.
Proof.
  revert rest. induction s as [| c | c c' r IH1 IH2] using string_ind2; intros rest.
  - done.
  - cbn. destruct (Ascii.eqb c BS); destruct (Ascii.eqb c q); cbn;
      intros [= <-] || discriminate; cbn; lia.
  - cbn [quoted].
    destruct (if Ascii.eqb c BS then _ else _) as [x|] eqn:E1.
    { intros [= <-]. destruct (Ascii.eqb c BS); [|done].
      destruct (is_line_end c'); [done|]. apply IH1 in E1. cbn. lia. }
    destruct (if Ascii.eqb c q then _ else _) as [x|] eqn:E2.
    { intros [= <-]. destruct (Ascii.eqb c q); [done|]. apply IH2 in E2.
      cbn in *. lia. }
    destruct (Ascii.eqb c q); [|done]. intros [= <-]. cbn. lia.
Qed.

Lemma bare_run_length s : (String.length (bare_run s) <= String.length s)%nat.
Proof.
  induction s as [|c r IH]; [done|]. cbn [bare_run].
  destruct (is_bare c); cbn; lia.
Qed.

Lemma piece_shorter s rest :
  piece s = Some rest → (String.length rest < String.length s)%nat.
Proof.
  destruct s as [|c r]; [done|]. cbn [piece].
  destruct (is_bare c).
  { intros [= <-]. pose proof (bare_run_length r). cbn. lia. }
  destruct (Ascii.eqb c DQ); [intros H%quoted_shorter; cbn; lia|].
  destruct (Ascii.eqb c SQ); [intros H%quoted_shorter; cbn; lia | done].
Qed.

Lemma pieces_length n s : (String.length (pieces n s) <= String.length s)%nat.
Proof.
  revert s. induction n as [|n IH]; intros s; [done|]. cbn [pieces].
  destruct (piece s) as [rest|] eqn:E; [|done].
  apply piece_shorter in E. specialize (IH rest). lia.
Qed.

(** The turns given to the loops are enough: the loop of the pieces stops
    because no piece follows, and more turns give the same matches. *)
Lemma pieces_done n s : (String.length s <= n)%nat → piece (pieces n s) = None.
Proof.
  revert s. induction n as [|n IH]; intros s Hn.
  - destruct s; [done | cbn in Hn; lia].
  - cbn [pieces]. destruct (piece s) as [rest|] eqn:E; [|done].
    apply IH. apply piece_shorter in E. lia.
Qed.

Lemma match_here_shorter s token rest :
  match_here s = Some (token, rest) → (String.length rest < String.length s)%nat.
Proof.
  unfold match_here. destruct (piece s) as [rest1|] eqn:E; [|done].
  intros [= _ <-]. apply piece_shorter in E.
  pose proof (pieces_length (String.length rest1) rest1). lia.
Qed.

Lemma match_all_turns n m s :
  (String.length s <= n)%nat → (String.length s <= m)%nat →
  match_all n s = match_all m s.
Proof.
  revert m s. induction n as [|n IH]; intros m s Hn Hm.
  - destruct s; [by destruct m | cbn in Hn; lia].
  - destruct m as [|m]; [destruct s; [done | cbn in Hm; lia]|].
    cbn [match_all]. destruct s as [|c r]; [done|].
    destruct (match_here (String c r)) as [[token rest]|] eqn:E.
    + apply match_here_shorter in E. f_equal. apply IH; cbn in *; lia.
    + apply IH; cbn in *; lia.
Qed.

Lemma pieces_stop n s : piece s = None → pieces n s = s.
Proof. intros H. destruct n; [done|]. cbn. by rewrite H. Qed.

Lemma bare_run_word w x : all_bare w = true → bare_run (w +:+ x) = bare_run x.
Proof.
  induction w as [|c w IH]; [done|]. cbn [all_bare].
  intros [Hc Hw]%andb_prop. rewrite string_append_cons. cbn [bare_run].
  rewrite Hc. by apply IH.
Qed.

Lemma quoted_plain q s x :
  Ascii.eqb q BS = false → plain_for q s = true →
  quoted q (s +:+ String q x) = Some x.
Proof.
  intros Hq. induction s as [|c s IH].
  - intros _. change (quoted q (String q x) = Some x). cbn [quoted].
    rewrite Hq, Ascii.eqb_refl. done.
  - cbn [plain_for]. intros [[Hc Hb]%andb_prop Hs]%andb_prop.
    apply negb_true_iff in Hc, Hb.
    rewrite string_append_cons. cbn [quoted]. rewrite Hb, Hc, (IH Hs). done.
Qed.

(** What may follow an argument: the end of the text, or a space. *)
Lemma piece_after x : x = "" ∨ (∃ y, x = String " " y) → piece x = None.
Proof. intros [-> | [y ->]]; done. Qed.

Lemma match_here_argument raw value x :
  argument raw value → x = "" ∨ (∃ y, x = String " " y) →
  match_here (raw +:+ x) = Some (raw, x).
Proof.
  intros Ha Hx. pose proof (piece_after x Hx) as Hp.
  assert (∀ rest1, piece (raw +:+ x) = Some rest1 → rest1 = x →
                   match_here (raw +:+ x) = Some (raw, x)) as Hm.
  { intros rest1 E ->. unfold match_here. rewrite E, (pieces_stop _ _ Hp).
    rewrite length_append.
    replace (String.length raw + String.length x - String.length x)%nat
      with (String.length raw) by lia.
    by rewrite str_take_app. }
  destruct Ha as [w [Hne Hw] | q s Hq Hne Hs].
  - destruct w as [|c w]; [done|]. cbn [all_bare] in Hw.
    apply andb_prop in Hw as [Hc Hw]. eapply Hm.
    + rewrite string_append_cons. cbn [piece]. rewrite Hc. reflexivity.
    + rewrite (bare_run_word _ _ Hw). destruct Hx as [-> | [y ->]]; done.
  - eapply Hm; [|reflexivity].
    rewrite string_append_cons, string_app_assoc.
    change (String q "" +:+ x) with (String q x).
    destruct Hq as [-> | ->]; cbn [piece];
      change (is_bare DQ) with false; change (is_bare SQ) with false; cbn;
      by apply quoted_plain.
Qed.

Lemma match_all_arguments n (args : list (string * string)) :
  Forall (λ a, argument a.1 a.2) args →
  (String.length (join " " (map fst args)) <= n)%nat →
  match_all n (join " " (map fst args)) = map fst args.
Proof.
  intros H. revert n. induction H as [|[raw value] args Ha Hargs IH]; intros n Hn.
  { by destruct n. }
  cbn [fst snd] in Ha.
  assert (raw ≠ "") as Hraw.
  { inversion Ha as [w [Hne _] | q s _ _ _]; by subst. }
  destruct args as [|a2 args].
  - cbn in *. destruct n as [|n]; [destruct raw; [done | cbn in Hn; lia]|].
    cbn [match_all]. destruct raw as [|c raw']; [done|].
    rewrite <- (append_empty_r (String c raw')) at 1.
    rewrite (match_here_argument _ value "" Ha) by (by left).
    by destruct n.
  - change (join " " (map fst ((raw, value) :: a2 :: args)))
      with (raw +:+ " " +:+ join " " (map fst (a2 :: args))) in *.
    set (J := join " " (map fst (a2 :: args))) in *.
    change (" " +:+ J) with (String " " J) in *.
    rewrite length_append in Hn. cbn [String.length] in Hn.
    assert (0 < String.length raw)%nat by (destruct raw; [done | cbn; lia]).
    destruct n as [|n]; [lia|]. cbn [match_all].
    destruct (raw +:+ String " " J) as [|c0 r0] eqn:Er;
      [by destruct raw|].
    rewrite <- Er, (match_here_argument _ value (String " " J) Ha) by (right; by eexists).
    cbn [map fst]. f_equal.
    destruct n as [|n]; [lia|]. cbn [match_all].
    change (match_here (String " " J)) with (@None (string * string)).
    apply IH. lia.
Qed.

Lemma trimEnd_word w : all_bare w = true → trimEnd w = w.
Proof.
  induction w as [|c w IH]; [done|]. cbn [all_bare trimEnd].
  intros [Hc Hw]%andb_prop. rewrite (IH Hw).
  unfold is_bare in Hc. destruct (is_ws c); [done|]. done.
Qed.

Lemma stripQuotes_word w : word w → stripQuotes w = w.
Proof.
  intros [Hne Hw]. destruct w as [|c w]; [done|].
  pose proof (trimEnd_word _ Hw) as Ht. cbn [all_bare] in Hw.
  apply andb_prop in Hw as [Hc Hw]. unfold is_bare in Hc.
  destruct (is_ws c) eqn:Ews; [done|].
  destruct (Ascii.eqb c DQ) eqn:Ed; [done|].
  destruct (Ascii.eqb c SQ) eqn:Es; [done|].
  unfold stripQuotes, trim. cbn [trimStart]. rewrite Ews, Ht.
  cbn [starts_with]. by rewrite Ed, Es.
Qed.

Lemma stripQuotes_argument raw value :
  argument raw value → stripQuotes raw = value ∧ value ≠ "".
Proof.
  intros [w Hw | q s Hq Hne Hs].
  - split; [by apply stripQuotes_word | apply Hw].
  - split; [|done]. unfold stripQuotes.
    destruct Hq as [-> | ->].
    + destruct (quoted_strip DQ s eq_refl) as (->&->&->&->). done.
    + destruct (quoted_strip SQ s eq_refl) as (->&_&->&->). done.
Qed.

Lemma tokenizeCommand_args (args : list (string * string)) :
  Forall (λ a, argument a.1 a.2) args →
  tokenizeCommand (join " " (map fst args)) = map snd args.
Proof.
  intros H. unfold tokenizeCommand.
  rewrite (match_all_arguments _ args H) by done.
  induction H as [|[raw value] args Ha Hargs IH]; [done|].
  cbn [map fst snd]. destruct (stripQuotes_argument raw value Ha) as [-> Hne].
  rewrite filter_cons_True by (by destruct value). by rewrite IH.
Qed.

End Tokens.

(** X20.  [tokenizeCommand] reads a command line the way it is written:
    for arguments set one space apart, each a word (no white space, no
    quote) or a text that is not empty, holds neither backslash nor its
    quote, and stands between two double or two single quotes, the tokens
    are the arguments in order, the quoted ones without their quotes and
    with the white space inside them kept.  The loops of the matcher are
    given turns enough: more turns give the same matches. *)
Theorem tokenizeCommand_arguments (args : list (string * string)) :
  Forall (λ a, argument a.1 a.2) args →
  tokenizeCommand (join " " (map fst args)) = map snd args
  ∧ ∀ n, (String.length (join " " (map fst args)) <= n)%nat →
         match_all n (join " " (map fst args))
         = match_all (String.length (join " " (map fst args)))
             (join " " (map fst args)).
Proof.
  intros H. split; [by apply tokenizeCommand_args|].
  intros n Hn. by apply match_all_turns.
Qed.

Lemma tokenizeCommand_arguments_witness :
  tokenizeCommand (join " " ["echo"; String DQ ("a b" +:+ String DQ "")])
  = ["echo"; "a b"].
Proof.
  refine (proj1 (tokenizeCommand_arguments
                   [("echo", "echo"); (String DQ ("a b" +:+ String DQ ""), "a b")] _)).
  repeat constructor; cbn; done.
Defined.

(** ** [deriveSessionName] *)

Section Names.

Lemma words_arguments (ws : list string) :
  Forall word ws →
  Forall (λ a : string * string, argument a.1 a.2) (map (λ w, (w, w)) ws)
  ∧ map fst (map (λ w, (w, w)) ws) = ws
  ∧ map snd (map (λ w, (w, w)) ws) = ws.
Proof.
  induction 1 as [|w ws Hw Hws (IH1&IH2&IH3)]; [done|].
  cbn [map fst snd]. rewrite IH2, IH3. split; [|done].
  constructor; [by apply arg_word | done].
Qed.

Lemma tokenizeCommand_words (ws : list string) :
  Forall word ws → tokenizeCommand (join " " ws) = ws.
Proof.
  intros H. destruct (words_arguments ws H) as (Ha&E1&E2).
  rewrite <- E1 at 1. rewrite (tokenizeCommand_args _ Ha). exact E2.
Qed.

Lemma find_target flags target rest :
  Forall option_word flags → starts_with "-" target = false →
  List.find (λ t, negb (starts_with "-" t)) (flags ++ target :: rest) = Some target.
Proof.
  intros H Ht. induction H as [|f flags [_ Hf] _ IH]; cbn.
  - by rewrite Ht.
  - by rewrite Hf.
Qed.

Lemma find_no_target flags :
  Forall option_word flags →
  List.find (λ t, negb (starts_with "-" t)) flags = None.
Proof. induction 1 as [|f flags [_ Hf] _ IH]; cbn; [done | by rewrite Hf]. Qed.

Lemma word_not_empty w : word w → str_empty w = false.
Proof. intros [H _]. by destruct w. Qed.

End Names.

(** X21.  The name [deriveSessionName] gives a command line of words set
    one space apart: the first word, the verb, and after a space the first
    of the other words that is no option (does not begin with a dash), cut
    in the middle to 48 characters if it is longer; when all the others
    are options, the first option takes that place; a verb alone is its
    own name.  The name is at most 49 characters longer than the verb. *)
Theorem deriveSessionName_target (verb : string) (flags : list string)
    (target : string) (rest : list string) :
  word verb → Forall option_word flags →
  word target → starts_with "-" target = false → Forall word rest →
  deriveSessionName (join " " (verb :: flags ++ target :: rest))
  = Some (verb +:+ " " +:+ truncateMiddle target 48)
  ∧ (∀ flag, option_word flag →
       deriveSessionName (join " " (verb :: flag :: flags))
       = Some (verb +:+ " " +:+ truncateMiddle flag 48))
  ∧ deriveSessionName verb = Some verb
  ∧ Z.of_nat (String.length (verb +:+ " " +:+ truncateMiddle target 48))
    <= Z.of_nat (String.length verb) + 49.
Proof.
  intros Hv Hf Ht Hd Hr.
  assert (Forall word flags) as Hfw by (eapply Forall_impl; [exact Hf | by intros ? []]).
  split_and!.
  - unfold deriveSessionName. rewrite tokenizeCommand_words.
    2:{ constructor; [done|]. apply Forall_app. split; [done|]. by constructor. }
    rewrite (find_target _ _ _ Hf Hd), (word_not_empty _ Ht).
    cbn beta iota. rewrite (word_not_empty _ Ht).
    by rewrite !stripQuotes_word.
  - intros flag Hflag. unfold deriveSessionName. rewrite tokenizeCommand_words.
    2:{ constructor; [done|]. constructor; [apply Hflag | done]. }
    rewrite (find_no_target (flag :: flags)) by (by constructor).
    cbn [head]. rewrite (word_not_empty flag) by apply Hflag.
    rewrite (stripQuotes_word verb), (stripQuotes_word flag); [done | apply Hflag | done].
  - unfold deriveSessionName.
    change verb with (join " " [verb]) at 1.
    rewrite tokenizeCommand_words by (by constructor). done.
  - rewrite !length_append. cbn [String.length].
    destruct (truncateMiddle_cases target 48) as [H _]; lia.
Qed.

Lemma deriveSessionName_target_witness :
  deriveSessionName (join " " ("git" :: ["-C"] ++ "repo" :: ["status"]))
  = Some ("git" +:+ " " +:+ truncateMiddle "repo" 48).
Proof.
  refine (proj1 (deriveSessionName_target "git" ["-C"] "repo" ["status"] _ _ _ _ _));
    repeat constructor; cbn; done.
Defined.

(** ** [formatDuration] *)

Lemma two_digits (n : nat) :
  (n < 60)%nat → String.length (padStart2 (pretty (Z.of_nat n))) = 2%nat.
Proof.
  intros H. do 60 (destruct n as [|n]; [by vm_compute|]). lia.
Qed.

(** X22.  [formatDuration] from a minute on: the text is the whole
    minutes, the letter m, the seconds left in exactly two characters (a
    zero in front when they are fewer than ten), and the letter s. *)
Theorem formatDuration_minutes (ms : Z) :
  60000 <= ms →
  formatDuration ms
  = pretty (ms / 60000) +:+ "m" +:+ padStart2 (pretty (ms / 1000 mod 60)) +:+ "s"
  ∧ String.length (padStart2 (pretty (ms / 1000 mod 60))) = 2%nat.
Proof.
  intros H. unfold formatDuration.
  destruct (ms <? 1000) eqn:E1; [apply Z.ltb_lt in E1; lia|].
  assert (60 <= ms / 1000) by (apply Z.div_le_lower_bound; lia).
  destruct (ms / 1000 <? 60) eqn:E2; [apply Z.ltb_lt in E2; lia|].
  rewrite Z.div_div by lia. change (1000 * 60) with 60000. split; [done|].
  pose proof (Z.mod_pos_bound (ms / 1000) 60 ltac:(lia)) as Hm.
  rewrite <- (Z2Nat.id (ms / 1000 mod 60)) by lia. apply two_digits. lia.
Qed.

Lemma formatDuration_minutes_witness : formatDuration 65000 = "1m05s".
Proof. exact (proj1 (formatDuration_minutes 65000 ltac:(lia))). Defined.

(** ** [poll] and [clear], one call after another *)

(** X23.  [poll] shows output once.  After a [poll] on a live session
    that was backgrounded and has not exited, a second [poll], with no
    output between the two, finds nothing new: its text is
    [(no new output)] and [Process still running.], its status is running,
    and it still reports the whole aggregated output. *)
Theorem poll_twice (now now' : Z) (r : Registry) (sid : string) (s : Session) :
  sid ≠ "" → getSession r sid = Some s → backgrounded s = true → exited s = false →
  let first := process_execute now (mkProcParams Poll (Some sid) None None) r in
  let second :=
    process_execute now' (mkProcParams Poll (Some sid) None None) (o_registry first) in
  getSession (o_registry first) sid = Some (drained s)
  ∧ p_text (o_result second)
    = "(no new output)" +:+ nl +:+ nl +:+ "Process still running."
  ∧ d_status (p_details (o_result second)) = Running
  ∧ d_aggregated (p_details (o_result second)) = Some (aggregated s)
  ∧ o_registry second = o_registry first.
Proof.
  intros Hsid Hs Hb He. cbn zeta. unfold process_execute. cbn [p_sessionId action].
  destruct sid as [|c sid']; [done|]. cbn [str_empty]. set (sid := String c sid') in *.
  assert (sid ∈ live r ∧ objs r !! sid = Some s) as [Hl Ho].
  { unfold getSession in Hs. by case_decide. }
  assert (process_poll now sid r
          = (mkProcResult
               (str_or (trim (join nl (filter (λ x, str_empty x = false)
                                         [trimEnd (join "" (pendingStdout s));
                                          trimEnd (join "" (pendingStderr s))])))
                  "(no new output)" +:+ nl +:+ nl +:+ "Process still running.")
               (mkDetails Running (Some sid) None None (Some (aggregated s))
                  None None None (deriveSessionName (command s))),
             mkRegistry (alter drained sid (objs r)) (live r) (fin r))) as E1.
  { unfold process_poll. rewrite Hs, Hb. cbn [negb]. unfold drainSession.
    by rewrite He. }
  rewrite E1. cbn [o_registry].
  set (r1 := mkRegistry (alter drained sid (objs r)) (live r) (fin r)).
  assert (getSession r1 sid = Some (drained s)) as Hs1.
  { unfold getSession. rewrite decide_True by done. cbn.
    by rewrite lookup_alter_eq, Ho. }
  split; [done|].
  assert (backgrounded (drained s) = true ∧ exited (drained s) = false
          ∧ pendingStdout (drained s) = [] ∧ pendingStderr (drained s) = []
          ∧ aggregated (drained s) = aggregated s) as (Hb1&He1&Hp1&Hp2&Ha1).
  { destruct s. cbn in *. by subst. }
  unfold process_poll. rewrite Hs1, Hb1. cbn [negb]. unfold drainSession.
  rewrite He1, Hp1, Hp2, Ha1. cbn [o_result o_registry p_text p_details d_status
    d_aggregated]. split_and!; try done.
  subst r1. cbn [objs live fin]. f_equal. apply map_eq. intros j.
  destruct (decide (j = sid)) as [->|Hne]; [|by rewrite !lookup_alter_ne].
  rewrite !lookup_alter_eq, Ho. cbn. by destruct s.
Qed.

Lemma poll_twice_witness :
  p_text (o_result
    (process_execute 3000 (Sample.poll "s1")
       (o_registry (process_execute 2000 (Sample.poll "s1") Sample.sleeping))))
  = "(no new output)" +:+ nl +:+ nl +:+ "Process still running.".
Proof.
  refine (proj1 (proj2 (poll_twice 2000 3000 Sample.sleeping "s1"
                   (set_backgrounded (new_session Sample.host Sample.sleep_bg))
                   _ _ _ _))); [discriminate | vm_compute; reflexivity..].
Defined.

(** X24.  [clear] and [remove] forget a finished session: after either of
    them on a session that has finished, the session is in neither set of
    the registry, every action of the controller on its id fails and
    changes nothing, and a [write] to it fails without writing. *)
Theorem clear_forgets (now : Z) (r : Registry) (sid : string) (f : Session)
    (a : Action) :
  a = Clear ∨ a = Remove →
  sid ≠ "" → getSession r sid = None → getFinishedSession r sid = Some f →
  let r' := o_registry (process_execute now (mkProcParams a (Some sid) None None) r) in
  getSession r' sid = None ∧ getFinishedSession r' sid = None
  ∧ (∀ destroyed write_error data eof,
       process_write destroyed write_error sid data eof r'
       = WriteReturned (failure ("No active session found for " +:+ sid)) [])
  ∧ ∀ now' params, p_sessionId params = Some sid →
      (∃ text, o_result (process_execute now' params r') = failure text)
      ∧ o_registry (process_execute now' params r') = r'
      ∧ o_effects (process_execute now' params r') = [].
Proof.
  intros Ha Hsid Hl Hf. cbn zeta.
  assert (o_registry (process_execute now (mkProcParams a (Some sid) None None) r)
          = deleteSession sid r) as ->.
  { unfold process_execute. cbn [p_sessionId action].
    destruct sid as [|c sid']; [done|]. cbn [str_empty].
    destruct Ha as [-> | ->]; unfold process_clear, process_remove;
      by rewrite ?Hl, Hf. }
  assert (getSession (deleteSession sid r) sid = None
          ∧ getFinishedSession (deleteSession sid r) sid = None) as [Hl' Hf'].
  { unfold getSession, getFinishedSession, deleteSession. cbn.
    split; (case_decide as Hin; [|done]);
      apply elem_of_difference in Hin as [_ Hin]; destruct Hin;
      by apply elem_of_singleton. }
  split; [done|]. split; [done|].
  split; [intros; unfold process_write; by rewrite Hl'|].
  intros now' params Hp. unfold process_execute. rewrite Hp.
  destruct sid as [|c sid']; [done|]. cbn [str_empty].
  destruct (action params);
    unfold process_poll, process_log, process_kill, process_clear, process_remove;
    rewrite ?Hl', ?Hf'; cbn; (split; [by eexists | done]).
Qed.

Lemma clear_forgets_witness :
  getFinishedSession
    (o_registry (process_execute 2000 (mkProcParams Clear (Some "s1") None None)
                   Sample.echo_done)) "s1"
  = None.
Proof.
  refine (proj1 (proj2 (clear_forgets 2000 Sample.echo_done "s1" Sample.echo_session
                          Clear _ _ _ _)));
    [by left | discriminate | vm_compute; reflexivity..].
Defined.

(** ** The output cap *)

(** X25.  The cap on the output kept for a session is between 1000 and
    150000 characters, whatever the environment variable that sets it
    holds; without the variable it is 30000. *)
Theorem max_output_bounds (h : Host) (params : BashParams) :
  1000 <= maxOutputChars (new_session h params) <= 150000
  ∧ (h_envMaxOutput h = None → maxOutputChars (new_session h params) = 30000).
Proof.
  assert (maxOutputChars (new_session h params) = DEFAULT_MAX_OUTPUT h) as ->.
  { unfold new_session. by destruct (start_transport h params) as [[? ?] ?]. }
  unfold DEFAULT_MAX_OUTPUT. split; [|by intros ->].
  destruct (clampNumber_between (Js.of_Z <$> h_envMaxOutput h) (Js.of_Z 30000)
              (Js.of_Z 1000) (Js.of_Z 150000)) as [H1 H2]; [by vm_compute..|].
  destruct (clampNumber _ _ _ _) as [q| | |]; cbn in *; try done.
  apply Qfloor_resp_le in H1, H2. rewrite Qfloor_Z in H1, H2. lia.
Qed.
